(** * F5-TTS front-end (ifgjs.py): speech-type parser and workflow drivers

    A shallow embedding of the pure and state-passing parts of
    [src/f5_tts/infer/infer/ifgjs.py].  Python [str] values are sequences of
    Unicode code points, modelled as [list N]; the external collaborators
    (model loading, inference, transcription, the chat model, file writes)
    are oracles taken as section variables, fallible where Python can raise. *)

From Stdlib Require Import String Ascii DecimalString.
From Stdlib Require Import List NArith ZArith Bool Arith Lia.
From Stdlib Require DecimalNat.
Import ListNotations.

(** ** Python strings *)

Module Py.

Definition char := N.
Definition str := list char.

(** An ASCII literal as a Python string (one code point per character). *)
Definition of_string (s : string) : str :=
  map N_of_ascii (list_ascii_of_string s).

Definition lbrace : char := 123%N.
Definition rbrace : char := 125%N.
Definition newline : char := 10%N.

Definition str_eqb (a b : str) : bool :=
  if list_eq_dec N.eq_dec a b then true else false.

(** [str.isspace] on one code point (CPython's [Py_UNICODE_ISSPACE]): the
    characters [str.strip()] removes. *)
Definition isspace (c : char) : bool :=
  ((9 <=? c) && (c <=? 13) || (28 <=? c) && (c <=? 32)
   || (c =? 133) || (c =? 160) || (c =? 5760)
   || (8192 <=? c) && (c <=? 8202)
   || (c =? 8232) || (c =? 8233) || (c =? 8239) || (c =? 8287)
   || (c =? 12288))%N.

Fixpoint lstrip (s : str) : str :=
  match s with
  | [] => []
  | c :: s' => if isspace c then lstrip s' else s
  end.

Definition rstrip (s : str) : str := rev (lstrip (rev s)).

(** [s.strip()] *)
Definition strip (s : str) : str := rstrip (lstrip s).

(** Truth value of a string: non-empty. *)
Definition truthy (s : str) : bool :=
  match s with [] => false | _ :: _ => true end.

(** The value of a text box or file widget: Python [None] or a [str]. *)
Definition widget := option str.

Definition widget_truthy (v : widget) : bool :=
  match v with
  | Some s => truthy s
  | None => false
  end.

(** [str(n)] for a non-negative [int]. *)
Definition decimal (n : nat) : str :=
  of_string (NilEmpty.string_of_uint (Nat.to_uint n)).

(** [s.startswith(prefix)] *)
Fixpoint startswith (prefix s : str) : bool :=
  match prefix, s with
  | [], _ => true
  | p :: prefix', c :: s' => (p =? c)%N && startswith prefix' s'
  | _ :: _, [] => false
  end.

(** Outcome of a call that may raise. *)
Inductive result (E A : Type) : Type :=
  | Ok (a : A)
  | Raise (e : E).
Arguments Ok {E A} a.
Arguments Raise {E A} e.

(** A loop whose body may raise: the first exception ends it, and the
    state reached so far is kept. *)
Fixpoint for_each {S X E : Type} (body : S -> X -> S * option E)
    (xs : list X) (st : S) : S * option E :=
  match xs with
  | [] => (st, None)
  | x :: xs' =>
      match body st x with
      | (st', None) => for_each body xs' st'
      | (st', Some e) => (st', Some e)
      end
  end.

(** [sep.join(parts)] *)
Fixpoint join (sep : str) (parts : list str) : str :=
  match parts with
  | [] => []
  | [p] => p
  | p :: ps => p ++ sep ++ join sep ps
  end.

(** [f"{v}"] for a value that is [None] or a [str]. *)
Definition format_widget (v : widget) : str :=
  match v with
  | Some s => s
  | None => of_string "None"
  end.

(** The code points a UTF-8 stream cannot encode: the surrogates, which a
    Python [str] may hold singly. *)
Definition is_surrogate (c : char) : bool :=
  ((55296 <=? c) && (c <=? 57343))%N.

(** [s] can be written to a UTF-8 text stream. *)
Definition encodable (s : str) : bool :=
  forallb (fun c => negb (is_surrogate c)) s.

(** The place of the first surrogate of a string that has one. *)
Fixpoint first_surrogate (s : str) : nat :=
  match s with
  | [] => 0
  | c :: s' => if is_surrogate c then 0 else S (first_surrogate s')
  end.

(** The number of surrogates a string starts with. *)
Fixpoint surrogate_run (s : str) : nat :=
  match s with
  | [] => 0
  | c :: s' => if is_surrogate c then S (surrogate_run s') else 0
  end.

(** The [UnicodeEncodeError] of the codec utf-8: the text, and the range
    from [e_start] to [e_end] (excluded) the encoder gave up on, the first
    run of surrogates. *)
Record encode_error := EncodeError {
  e_object : str;
  e_start : nat;
  e_end : nat
}.

Definition encode_error_of (s : str) : encode_error :=
  let start := first_surrogate s in
  EncodeError s start (start + surrogate_run (skipn start s)).

Definition hex_digit (d : N) : char :=
  if (d <? 10)%N then (48 + d)%N else (87 + d)%N.

(** [c] as the four digits of the escape [\uXXXX]. *)
Definition hex4 (c : char) : str :=
  [hex_digit ((c / 4096) mod 16); hex_digit ((c / 256) mod 16);
   hex_digit ((c / 16) mod 16); hex_digit (c mod 16)]%N.

(** [str(e)] for such an error. *)
Definition encode_error_str (e : encode_error) : str :=
  if Nat.eqb (e_end e) (S (e_start e)) then
    of_string "'utf-8' codec can't encode character '\u"
    ++ hex4 (nth (e_start e) (e_object e) 0%N)
    ++ of_string "' in position " ++ decimal (e_start e)
    ++ of_string ": surrogates not allowed"
  else
    of_string "'utf-8' codec can't encode characters in position "
    ++ decimal (e_start e) ++ of_string "-" ++ decimal (e_end e - 1)
    ++ of_string ": surrogates not allowed".

(** [print(s)] where the standard output is a UTF-8 text stream with
    strict errors, as Python sets it up under a UTF-8 locale: a text with
    a surrogate in it raises [UnicodeEncodeError], any other text is
    written. *)
Definition print (s : str) : result encode_error unit :=
  if encodable s then Ok tt else Raise (encode_error_of s).

End Py.

(** ** The speech-type parser *)

Module Parser.
Import Py.

Record segment := Segment { style : str; text : str }.

Definition Regular : str := of_string "Regular".

(** The tail [(.*?)\}] of the pattern, run on the text that follows an
    opening brace: the lazy group stops at the first closing brace, and
    fails at a line feed ([.] does not match it) or at the end of input.
    Returns the captured group and what follows the closing brace. *)
Fixpoint lazy_group (r : str) : option (str * str) :=
  match r with
  | [] => None
  | c :: r' =>
      if (c =? rbrace)%N then Some ([], r')
      else if (c =? newline)%N then None
      else match lazy_group r' with
           | Some (g, rest) => Some (c :: g, rest)
           | None => None
           end
  end.

(** The pattern [\{(.*?)\}] tried at the start of [s]. *)
Definition match_here (s : str) : option (str * str) :=
  match s with
  | [] => None
  | c :: r => if (c =? lbrace)%N then lazy_group r else None
  end.

(** Leftmost match of the pattern in [s]: the text before it, the captured
    group, and the text after the match. *)
Fixpoint search (s : str) : option (str * str * str) :=
  match match_here s with
  | Some (g, rest) => Some ([], g, rest)
  | None =>
      match s with
      | [] => None
      | c :: s' =>
          match search s' with
          | Some (pre, g, rest) => Some (c :: pre, g, rest)
          | None => None
          end
      end
  end.

(** [re.split(pattern, s)] with the one capture group: text, group, text,
    ..., text.  Every match consumes at least the two braces, so a fuel of
    the length of the input is never exhausted (see [re_split_eq]). *)
Fixpoint re_split_fuel (fuel : nat) (s : str) : list str :=
  match search s with
  | None => [s]
  | Some (pre, g, rest) =>
      match fuel with
      | O => [s]
      | S fuel' => pre :: g :: re_split_fuel fuel' rest
      end
  end.

Definition re_split (s : str) : list str := re_split_fuel (length s) s.

(** The state of the [for] loop: the list being built and [current_style]. *)
Record loop_state := LoopState { segments : list segment; current_style : str }.

(** One iteration of [for i in range(len(tokens))]. *)
Definition loop_body (tokens : list str) (st : loop_state) (i : nat) : loop_state :=
  if Nat.even i then
    let text := strip (nth i tokens []) in
    if truthy text then
      LoopState (segments st ++ [Segment (current_style st) text]) (current_style st)
    else st
  else
    let style := strip (nth i tokens []) in
    LoopState (segments st) style.

Definition parse_speechtypes_text (gen_text : str) : list segment :=
  let tokens := re_split gen_text in
  segments (fold_left (loop_body tokens) (seq 0 (length tokens))
                      (LoopState [] Regular)).

(** *** Reading a string as text spans and markers

    A string seen as a first text span followed by (label, text span)
    pairs, each label written between braces. *)

Definition marker (l : str) : str := lbrace :: l ++ [rbrace].

Fixpoint render (t0 : str) (rest : list (str * str)) : str :=
  match rest with
  | [] => t0
  | (l, t) :: rest' => t0 ++ marker l ++ render t rest'
  end.

(** What the pattern can capture: no closing brace and no line feed. *)
Definition label_ok (l : str) : bool :=
  forallb (fun c => negb (c =? rbrace)%N && negb (c =? newline)%N) l.

(** After an opening brace: a closing brace comes before any line feed. *)
Fixpoint closes (r : str) : bool :=
  match r with
  | [] => false
  | c :: r' =>
      if (c =? rbrace)%N then true
      else if (c =? newline)%N then false
      else closes r'
  end.

(** After an opening brace: a line feed comes before any closing brace. *)
Fixpoint blocked (r : str) : bool :=
  match r with
  | [] => false
  | c :: r' =>
      if (c =? rbrace)%N then false
      else if (c =? newline)%N then true
      else blocked r'
  end.

(** No marker starts in a text span that a marker follows: each opening
    brace in it is cut off by a line feed inside the span. *)
Fixpoint inner_span_ok (t : str) : bool :=
  match t with
  | [] => true
  | c :: t' => (if (c =? lbrace)%N then blocked t' else true) && inner_span_ok t'
  end.

(** No marker starts in the last text span: no opening brace in it is
    closed on its line. *)
Fixpoint last_span_ok (t : str) : bool :=
  match t with
  | [] => true
  | c :: t' => (if (c =? lbrace)%N then negb (closes t') else true) && last_span_ok t'
  end.

Fixpoint layout_ok (t0 : str) (rest : list (str * str)) : bool :=
  match rest with
  | [] => last_span_ok t0
  | (l, t) :: rest' => inner_span_ok t0 && label_ok l && layout_ok t rest'
  end.

(** The tokens [re.split] gives for a layout: spans and labels alternate. *)
Fixpoint layout_tokens (t0 : str) (rest : list (str * str)) : list str :=
  match rest with
  | [] => [t0]
  | (l, t) :: rest' => t0 :: l :: layout_tokens t rest'
  end.

(** The text spans of a layout, in input order. *)
Definition spans (t0 : str) (rest : list (str * str)) : list str :=
  t0 :: map snd rest.

(** Whitespace-only (or empty) text. *)
Definition blank (t : str) : bool := forallb isspace t.

(** The segment a text span gives under a style: none when the span is
    empty after trimming. *)
Definition emit (sty t : str) : list segment :=
  if truthy (strip t) then [Segment sty (strip t)] else [].

(** The segments of a layout when each marker sets the current style to
    its label with outer whitespace removed. *)
Fixpoint layout_segments (cur t0 : str) (rest : list (str * str)) : list segment :=
  emit cur t0 ++
  match rest with
  | [] => []
  | (l, t) :: rest' => layout_segments (strip l) t rest'
  end.

(** The parser as the specification words it: the span before the first
    marker has style "Regular", each marker sets the current style to its
    label, spans that are empty after trimming are dropped. *)
Fixpoint spec_segments (cur t0 : str) (rest : list (str * str)) : list segment :=
  emit cur t0 ++
  match rest with
  | [] => []
  | (l, t) :: rest' => spec_segments l t rest'
  end.

End Parser.

(** ** Multi-style synthesis *)

Module Multistyle.
Import Py Parser.

(** [{"audio": ..., "ref_text": ...}] *)
Record entry := Entry { audio : widget; ref_text : widget }.

(** An [OrderedDict] keyed by speech-type name: keys in insertion order, an
    assignment to a present key keeps its place. *)
Definition odict := list (str * entry).

Fixpoint od_get (k : str) (d : odict) : option entry :=
  match d with
  | [] => None
  | (k', e) :: d' => if str_eqb k' k then Some e else od_get k d'
  end.

(** [k in d] *)
Definition od_mem (k : str) (d : odict) : bool :=
  match od_get k d with
  | Some _ => true
  | None => false
  end.

(** [d[k] = e] *)
Fixpoint od_set (k : str) (e : entry) (d : odict) : odict :=
  match d with
  | [] => [(k, e)]
  | (k', e') :: d' =>
      if str_eqb k' k then (k, e) :: d' else (k', e') :: od_set k e d'
  end.

(** [f"@{ref_text_idx}@"] *)
Definition placeholder (ref_text_idx : nat) : str :=
  of_string "@" ++ decimal ref_text_idx ++ of_string "@".

(** One round of the loop that collects the speech types. *)
Definition collect_step (st : odict * nat)
    (row : widget * (widget * widget)) : odict * nat :=
  let '(speech_types, ref_text_idx) := st in
  let '(name_input, (audio_input, ref_text_input)) := row in
  let speech_types :=
    match name_input with
    | Some name =>
        if truthy name && widget_truthy audio_input then
          od_set name (Entry audio_input ref_text_input) speech_types
        else
          od_set (placeholder ref_text_idx) (Entry (Some []) (Some []))
            speech_types
    | None =>
        od_set (placeholder ref_text_idx) (Entry (Some []) (Some []))
          speech_types
    end in
  (speech_types, S ref_text_idx).

(** The dictionary built from the three slices of [args] ([zip] stops at
    the shortest). *)
Definition collect_speech_types
    (speech_type_names_list speech_type_audios_list
       speech_type_ref_texts_list : list widget) : odict :=
  fst (fold_left collect_step
         (combine speech_type_names_list
            (combine speech_type_audios_list speech_type_ref_texts_list))
         ([], 0)).

(** The style the loop settles on for a segment. *)
Definition route (speech_types : odict) (style : str) : str :=
  if od_mem style speech_types then style else Regular.

Section Generate.

(** Audio arrays, what a collaborator raises, and the state of everything
    outside this function (loaded models, files). *)
Variables (wave ext World : Type).

(** [infer(ref_audio, ref_text, text, tts_model_choice, remove_silence, 0,
    show_info=print)], giving [(sr, audio_data)] and [ref_text_out]. *)
Variable infer :
  widget -> widget -> str -> bool -> World ->
  World * result ext (N * wave * str).

(** [np.concatenate] *)
Variable concatenate : list wave -> wave.

Inductive exc : Type :=
  | KeyError (key : str)
  | Raised (e : ext).

(** A record of one call of [infer]: the style chosen, the arguments
    passed, and the reference text it returned ([None] when it raised). *)
Record call := Call {
  c_style : str;
  c_ref_audio : widget;
  c_ref_text : widget;
  c_gen_text : str;
  c_ref_text_out : option str
}.

Record state := State {
  speech_types : odict;
  generated_audio_segments : list wave;
  sr : option N;
  world : World;
  calls : list call
}.

(** The body of [for segment in segments]. *)
Definition segment_step (remove_silence : bool) (st : state) (segment : segment)
    : state * option exc :=
  let style := style segment in
  let text := text segment in
  let current_style := route (speech_types st) style in
  match od_get current_style (speech_types st) with
  | None => (st, Some (KeyError current_style))
  | Some e =>
      let ref_audio := audio e in
      let ref_text := ref_text e in
      match infer ref_audio ref_text text remove_silence (world st) with
      | (w, Raise x) =>
          (State (speech_types st) (generated_audio_segments st) (sr st) w
             (calls st ++ [Call current_style ref_audio ref_text text None]),
           Some (Raised x))
      | (w, Ok (sr', audio_data, ref_text_out)) =>
          (State
             (od_set current_style (Entry (audio e) (Some ref_text_out))
                (speech_types st))
             (generated_audio_segments st ++ [audio_data])
             (Some sr') w
             (calls st ++
                [Call current_style ref_audio ref_text text (Some ref_text_out)]),
           None)
      end
  end.

(** The values returned to the interface: the audio, if any, and the
    reference text of every entry in dictionary order. *)
Definition outputs (st : state) : option (N * wave) * list widget :=
  (match generated_audio_segments st, sr st with
   | _ :: _, Some r => Some (r, concatenate (generated_audio_segments st))
   | _, _ => None
   end,
   map (fun kv => ref_text (snd kv)) (speech_types st)).

(** The loop of [generate_multistyle_speech] from the collected dictionary
    and the parsed segments. *)
Definition synthesize_segments (remove_silence : bool)
    (speech_types : odict) (segments : list segment) (w : World)
    : state * option exc :=
  for_each (segment_step remove_silence) segments
    (State speech_types [] None w []).

Definition generate_multistyle_speech (gen_text : str)
    (speech_type_names_list speech_type_audios_list
       speech_type_ref_texts_list : list widget)
    (remove_silence : bool) (w : World)
    : state * result exc (option (N * wave) * list widget) :=
  let speech_types :=
    collect_speech_types speech_type_names_list speech_type_audios_list
      speech_type_ref_texts_list in
  let segments := parse_speechtypes_text gen_text in
  match synthesize_segments remove_silence speech_types segments w with
  | (st, Some e) => (st, Raise e)
  | (st, None) => (st, Ok (outputs st))
  end.

(** The reference text an entry holds after a run of calls: the one the
    latest returned call under its key gave back, else the initial one. *)
Fixpoint ref_text_after (initial : widget) (key : str) (done : list call)
    : widget :=
  match done with
  | [] => initial
  | c :: done' =>
      ref_text_after
        (if str_eqb (c_style c) key then
           match c_ref_text_out c with
           | Some r => Some r
           | None => initial
           end
         else initial)
        key done'
  end.

(** The world after the calls of a log, made one after the other. *)
Definition world_after (remove_silence : bool) (done : list call) (w : World)
    : World :=
  fold_left (fun w c =>
               fst (infer (c_ref_audio c) (c_ref_text c) (c_gen_text c)
                      remove_silence w)) done w.

(** What the loop keeps true of the dictionary: the keys and the audio of
    the collected entries, and for the reference texts the latest value
    returned under each key. *)
Definition tracks (d0 : odict) (st : state) : Prop :=
  forall k,
    match od_get k d0 with
    | None => od_get k (speech_types st) = None
    | Some e0 =>
        exists e, od_get k (speech_types st) = Some e /\
          audio e = audio e0 /\
          ref_text e = ref_text_after (ref_text e0) k (calls st)
    end.

(** The call made for a segment reads the entry of the segment's own style
    when the collected dictionary has it, and the entry "Regular"
    otherwise; [done] are the calls made before it. *)
Definition routed (d0 : odict) (done : list call) (sg : segment) (c : call)
    : Prop :=
  c_gen_text c = text sg /\
  (od_mem (style sg) d0 = true -> c_style c = style sg) /\
  (od_mem (style sg) d0 = false -> c_style c = Regular) /\
  exists e0, od_get (c_style c) d0 = Some e0 /\
    c_ref_audio c = audio e0 /\
    c_ref_text c = ref_text_after (ref_text e0) (c_style c) done.

End Generate.

Arguments State {wave World}.
Arguments tracks {wave World}.
Arguments speech_types {wave World}.
Arguments generated_audio_segments {wave World}.
Arguments sr {wave World}.
Arguments world {wave World}.
Arguments calls {wave World}.
Arguments KeyError {ext}.
Arguments Raised {ext}.
Arguments segment_step {wave ext World}.
Arguments outputs {wave World}.
Arguments synthesize_segments {wave ext World}.
Arguments world_after {wave ext World}.
Arguments generate_multistyle_speech {wave ext World}.

End Multistyle.

(** ** Batch chapter synthesis *)

Module Batch.
Import Py.

Section Json.

(** Python [float] values and their truth value, and what the file system
    and the decoder raise; [ext_str] is [str(e)]. *)
Variables (pyfloat ext : Type).
Variable float_truthy : pyfloat -> bool.
Variable ext_str : ext -> str.

(** A value returned by [json.load]; a [dict] lists its items in order. *)
#[local] Unset Elimination Schemes.
Inductive json : Type :=
  | JNull
  | JBool (b : bool)
  | JInt (z : Z)
  | JFloat (f : pyfloat)
  | JStr (s : str)
  | JList (items : list json)
  | JDict (items : list (str * json)).
#[local] Set Elimination Schemes.

(** [str(v)] for a value that is not a [str]. *)
Variable str_other : json -> str.

(** [open(path, 'r', encoding='utf-8')] followed by [json.load]. *)
Variable json_load : str -> result ext json.

Definition json_truthy (v : json) : bool :=
  match v with
  | JNull => false
  | JBool b => b
  | JInt z => negb (z =? 0)%Z
  | JFloat f => float_truthy f
  | JStr s => truthy s
  | JList items => match items with [] => false | _ :: _ => true end
  | JDict items => match items with [] => false | _ :: _ => true end
  end.

Definition type_name (v : json) : string :=
  match v with
  | JNull => "NoneType"
  | JBool _ => "bool"
  | JInt _ => "int"
  | JFloat _ => "float"
  | JStr _ => "str"
  | JList _ => "list"
  | JDict _ => "dict"
  end.

(** What the [try] blocks of this tab catch: a missing attribute, the
    error of a [print], and what a collaborator raises. *)
Inductive exc : Type :=
  | AttributeError (msg : str)
  | UnicodeEncodeError (e : encode_error)
  | Raised (e : ext).

(** [str(e)] *)
Definition exc_str (e : exc) : str :=
  match e with
  | AttributeError msg => msg
  | UnicodeEncodeError u => encode_error_str u
  | Raised x => ext_str x
  end.

Definition no_attribute (type attr : string) : exc :=
  AttributeError
    (of_string "'" ++ of_string type ++ of_string "' object has no attribute '"
     ++ of_string attr ++ of_string "'").

Fixpoint lookup (k : str) (items : list (str * json)) : option json :=
  match items with
  | [] => None
  | (k', v) :: items' => if str_eqb k' k then Some v else lookup k items'
  end.

(** [data.get("chapters", {})] *)
Definition get_chapters (data : json) : result exc json :=
  match data with
  | JDict items =>
      Ok (match lookup (of_string "chapters") items with
          | Some v => v
          | None => JDict []
          end)
  | _ => Raise (no_attribute (type_name data) "get")
  end.

(** [chapters.items()] *)
Definition dict_items (chapters : json) : result exc (list (str * json)) :=
  match chapters with
  | JDict items => Ok items
  | _ => Raise (no_attribute (type_name chapters) "items")
  end.

(** [f"{content}"] *)
Definition format_value (content : json) : str :=
  match content with
  | JStr s => s
  | _ => str_other content
  end.

(** [f"{title} {content}"] *)
Definition paragraph (item : str * json) : str :=
  fst item ++ of_string " " ++ format_value (snd item).

(** [f"Loaded Chapter: {title[:20]}..."] *)
Definition loaded_notice (title : str) : str :=
  of_string "Loaded Chapter: " ++ firstn 20 title ++ of_string "...".

(** The body of [for title, content in chapters.items()]: the paragraph
    is appended, then the title is printed. *)
Definition load_step (chapter_list : list str) (item : str * json)
    : list str * option exc :=
  let chapter_list := chapter_list ++ [paragraph item] in
  match print (loaded_notice (fst item)) with
  | Raise u => (chapter_list, Some (UnicodeEncodeError u))
  | Ok _ => (chapter_list, None)
  end.

(** The body of the [try]: the chapter list it leaves, and what it
    returns or raises.  [json_file] is the uploaded file's path, [None]
    when nothing was uploaded.  The prints of fixed texts are left out. *)
Definition process_json_body (json_file : widget) (chapter_list : list str)
    : list str * result exc str :=
  match json_file with
  | None => (chapter_list, Raise (no_attribute "NoneType" "name"))
  | Some name =>
      match print (of_string "Processing JSON file: " ++ name) with
      | Raise u => (chapter_list, Raise (UnicodeEncodeError u))
      | Ok _ =>
          match json_load name with
          | Raise x => (chapter_list, Raise (Raised x))
          | Ok data =>
              match get_chapters data with
              | Raise e => (chapter_list, Raise e)
              | Ok chapters =>
                  if negb (json_truthy chapters) then
                    (chapter_list, Ok (of_string "Error: No chapters found."))
                  else
                    match dict_items chapters with
                    | Raise e => (chapter_list, Raise e)
                    | Ok items =>
                        match for_each load_step items chapter_list with
                        | (chapter_list, Some e) => (chapter_list, Raise e)
                        | (chapter_list, None) =>
                            (chapter_list, Ok (join [newline] chapter_list))
                        end
                    end
              end
          end
      end
  end.

(** Takes the global [chapter_list] and gives its new value with the
    string returned, or with the error of the [print] in the handler. *)
Definition process_json_file (json_file : widget) (chapter_list : list str)
    : list str * result encode_error str :=
  let chapter_list := @nil str in
  match process_json_body json_file chapter_list with
  | (chapter_list, Ok out) => (chapter_list, Ok out)
  | (chapter_list, Raise e) =>
      match print (of_string "Error processing JSON file: " ++ exc_str e) with
      | Raise u => (chapter_list, Raise u)
      | Ok _ => (chapter_list, Ok (of_string "Error: " ++ exc_str e))
      end
  end.

End Json.

Arguments JNull {pyfloat}.
Arguments JBool {pyfloat}.
Arguments JInt {pyfloat}.
Arguments JFloat {pyfloat}.
Arguments JStr {pyfloat}.
Arguments JList {pyfloat}.
Arguments JDict {pyfloat}.
Arguments AttributeError {ext}.
Arguments UnicodeEncodeError {ext}.
Arguments Raised {ext}.
Arguments json_truthy {pyfloat}.
Arguments type_name {pyfloat}.
Arguments exc_str {ext}.
Arguments no_attribute {ext}.
Arguments lookup {pyfloat}.
Arguments get_chapters {pyfloat ext}.
Arguments dict_items {pyfloat ext}.
Arguments format_value {pyfloat}.
Arguments paragraph {pyfloat}.
Arguments load_step {pyfloat ext}.
Arguments process_json_body {pyfloat ext}.
Arguments process_json_file {pyfloat ext}.

Section Synthesize.

(** Audio arrays, what collaborators raise with its [str(e)], the state
    outside this function, and the values handed on to [infer] as they
    are: the check box, the two sliders and [tts_model_choice]. *)
Variables (wave ext World inputs : Type).
Variable ext_str : ext -> str.

(** [infer(ref_audio_input, ref_text_input, chapter_text,
    tts_model_choice, ..., show_info=print)], giving [audio_out] as
    sample rate and waveform. *)
Variable infer :
  widget -> str -> str -> inputs -> World -> World * result ext (N * wave).

(** [sf.write(file_path, data, samplerate)] *)
Variable sf_write : str -> wave -> N -> World -> World * result ext unit.

Variable os_path_join : str -> str -> str.

(** [os.getcwd()] when the module is loaded. *)
Variable cwd : str.

Definition output_dir : str := os_path_join cwd (of_string "generated_audio").

(** [f"chapter_{idx + 1}.wav"] *)
Definition file_name (idx : nat) : str :=
  of_string "chapter_" ++ decimal (idx + 1) ++ of_string ".wav".

(** [f"Processing Chapter {idx + 1}/{len(chapter_list)}:
    {chapter_text[:50]}..."] *)
Definition announce (idx total : nat) (chapter_text : str) : str :=
  of_string "Processing Chapter " ++ decimal (idx + 1) ++ of_string "/"
  ++ decimal total ++ of_string ": " ++ firstn 50 chapter_text
  ++ of_string "...".

(** [f"Error processing Chapter {idx + 1}: {e}"] *)
Definition error_notice (idx : nat) (e : exc ext) : str :=
  of_string "Error processing Chapter " ++ decimal (idx + 1)
  ++ of_string ": " ++ exc_str ext_str e.

(** What happened to one chapter inside the [try]. *)
Inductive outcome : Type :=
  | InferRaised (x : ext)
  | NoticeRaised (file_path : str) (u : encode_error)
  | WriteRaised (file_path : str) (x : ext)
  | Written (file_path : str) (data : wave) (samplerate : N).

(** The exception the [except] clause got. *)
Definition caught (o : outcome) : option (exc ext) :=
  match o with
  | InferRaised x => Some (Raised x)
  | NoticeRaised _ u => Some (UnicodeEncodeError u)
  | WriteRaised _ x => Some (Raised x)
  | Written _ _ _ => None
  end.

(** A record of one round of the loop that got into its [try]: the
    chapter, the state of the outside world when the round began, and what
    happened. *)
Record visit := Visit {
  v_idx : nat;
  v_text : str;
  v_world : World;
  v_outcome : outcome
}.

Record state := State {
  file_paths : list str;
  world : World;
  log : list visit
}.

(** The body of [for idx, chapter_text in enumerate(chapter_list)]: the
    [print] before the [try] and the one in the [except] clause end the
    run when they raise. *)
Definition chapter_step (ref_audio_input : widget) (ref_text_input : str)
    (args : inputs) (total : nat) (st : state) (item : nat * str)
    : state * option encode_error :=
  let '(idx, chapter_text) := item in
  match print (announce idx total chapter_text) with
  | Raise u => (st, Some u)
  | Ok _ =>
      let failed (w : World) (o : outcome) (e : exc ext) :=
        (State (file_paths st) w
           (log st ++ [Visit idx chapter_text (world st) o]),
         match print (error_notice idx e) with
         | Raise u => Some u
         | Ok _ => None
         end) in
      match infer ref_audio_input ref_text_input chapter_text args (world st)
      with
      | (w, Raise x) => failed w (InferRaised x) (Raised x)
      | (w, Ok (rate, data)) =>
          let file_path := os_path_join output_dir (file_name idx) in
          match print (of_string "Saving audio file: " ++ file_path) with
          | Raise u =>
              failed w (NoticeRaised file_path u) (UnicodeEncodeError u)
          | Ok _ =>
              match sf_write file_path data rate w with
              | (w', Raise x) =>
                  failed w' (WriteRaised file_path x) (Raised x)
              | (w', Ok _) =>
                  (State (file_paths st ++ [file_path]) w'
                     (log st ++
                        [Visit idx chapter_text (world st)
                           (Written file_path data rate)]),
                   None)
              end
          end
      end
  end.

(** The state the run leaves, and the string returned or the error of
    the [print] that ended the run.  The prints of fixed texts, of the two
    numbers and of the list of paths are left out: none holds a
    surrogate. *)
Definition batch_tts_synthesize (ref_audio_input : widget)
    (ref_text_input : str) (args : inputs) (chapter_list : list str)
    (w : World) : state * result encode_error str :=
  match print (of_string "Reference Audio: " ++ format_widget ref_audio_input)
  with
  | Raise u => (State [] w [], Raise u)
  | Ok _ =>
      match print (of_string "Reference Text: " ++ ref_text_input) with
      | Raise u => (State [] w [], Raise u)
      | Ok _ =>
          match chapter_list with
          | [] =>
              (State [] w [],
               Ok (of_string "Error: No chapters available for synthesis."))
          | _ :: _ =>
              match
                for_each
                  (chapter_step ref_audio_input ref_text_input args
                     (length chapter_list))
                  (combine (seq 0 (length chapter_list)) chapter_list)
                  (State [] w [])
              with
              | (st, Some u) => (st, Raise u)
              | (st, None) => (st, Ok (join [newline] (file_paths st)))
              end
          end
      end
  end.

(** The paths of the chapters that were written, in the order of a log. *)
Definition written_paths (l : list visit) : list str :=
  flat_map (fun v => match v_outcome v with
                     | Written file_path _ _ => [file_path]
                     | _ => []
                     end) l.

(** What a round that got into its [try] does with a chapter, read off
    the collaborators: the world it leaves and what happened.  The
    chapter is written to its file when [infer] returns, the path of the
    file can be printed and [sf.write] returns; it is passed over
    otherwise. *)
Definition round_of (ref_audio_input : widget) (ref_text_input : str)
    (args : inputs) (idx : nat) (chapter_text : str) (w : World)
    : World * outcome :=
  match infer ref_audio_input ref_text_input chapter_text args w with
  | (w1, Raise x) => (w1, InferRaised x)
  | (w1, Ok (rate, data)) =>
      let file_path := os_path_join output_dir (file_name idx) in
      if encodable file_path then
        match sf_write file_path data rate w1 with
        | (w2, Raise x) => (w2, WriteRaised file_path x)
        | (w2, Ok _) => (w2, Written file_path data rate)
        end
      else
        (w1, NoticeRaised file_path
               (encode_error_of (of_string "Saving audio file: " ++ file_path)))
  end.

(** The worlds a run of rounds goes through: the world left by the
    rounds of a log, one after the other. *)
Definition world_after (ref_audio_input : widget) (ref_text_input : str)
    (args : inputs) (l : list visit) (w : World) : World :=
  fold_left (fun w v =>
               fst (round_of ref_audio_input ref_text_input args
                      (v_idx v) (v_text v) w)) l w.

(** The round of a visit ended by itself: nothing was caught, or what
    was caught could be printed. *)
Definition went_on (v : visit) : bool :=
  match caught (v_outcome v) with
  | Some e => encodable (error_notice (v_idx v) e)
  | None => true
  end.

End Synthesize.

Arguments InferRaised {wave ext}.
Arguments NoticeRaised {wave ext}.
Arguments WriteRaised {wave ext}.
Arguments Written {wave ext}.
Arguments caught {wave ext}.
Arguments Visit {wave ext World}.
Arguments v_idx {wave ext World}.
Arguments v_text {wave ext World}.
Arguments v_world {wave ext World}.
Arguments v_outcome {wave ext World}.
Arguments State {wave ext World}.
Arguments file_paths {wave ext World}.
Arguments world {wave ext World}.
Arguments log {wave ext World}.
Arguments written_paths {wave ext World}.
Arguments error_notice {ext}.
Arguments went_on {wave ext World}.
Arguments chapter_step {wave ext World inputs}.
Arguments round_of {wave ext World inputs}.
Arguments world_after {wave ext World inputs}.
Arguments batch_tts_synthesize {wave ext World inputs}.

End Batch.

(** ** The inference orchestrator and its model cache *)

Module Infer.
Import Py.

(** The [model] argument: a name, or a list such as
    [["Custom", model_path, vocab_path]]. *)
Inductive selector : Type :=
  | Name (s : str)
  | Items (l : list str).

Section Infer.

Variables (model ext audio_in audio wave number : Type).

Variable USING_SPACES : bool.
Variable F5TTS_ema_model : model.

Variable preprocess_ref_audio_text :
  audio_in -> widget -> result ext (audio * str).
Variable load_e2tts : unit -> result ext model.
Variable cached_path : str -> result ext str.

(** [load_model(DiT, model_cfg, ckpt_path, vocab_file=vocab_path)] with the
    default configuration. *)
Variable load_model : str -> str -> result ext model.

(** [infer_process], the optional silence removal and the saving of the
    spectrogram: sample rate, waveform and the path of the image. *)
Variable synthesize :
  audio -> str -> str -> option model -> bool -> number -> number ->
  result ext (N * wave * str).

Definition resolve (path : str) : result ext str :=
  if startswith (of_string "hf://") path then cached_path path else Ok path.

Definition load_custom (ckpt_path vocab_path : str) : result ext model :=
  let ckpt_path := strip ckpt_path in
  let vocab_path := strip vocab_path in
  match resolve ckpt_path with
  | Raise x => Raise x
  | Ok ckpt_path =>
      match resolve vocab_path with
      | Raise x => Raise x
      | Ok vocab_path => load_model ckpt_path vocab_path
      end
  end.

(** The module's globals that [infer] assigns. *)
Record globals := Globals {
  E2TTS_ema_model : option model;
  custom_ema_model : option model;
  pre_custom_path : str
}.

Inductive exc : Type :=
  | AssertionError (msg : str)
  | IndexError
  | UnboundLocalError
  | Raised (e : ext).

(** The loads a call asks for. *)
Inductive event : Type :=
  | LoadE2
  | LoadCustom (ckpt_path vocab_path : str).

(** The local [ema_model] after the selection: not assigned, or assigned
    (possibly to [None]). *)
Inductive binding : Type :=
  | Unbound
  | Bound (m : option model).

(** The block "Model selection and loading". *)
Definition model_selection (model : selector) (g : globals)
    : globals * list event * result exc binding :=
  match model with
  | Name s =>
      if str_eqb s (of_string "F5-TTS") then
        (g, [], Ok (Bound (Some F5TTS_ema_model)))
      else if str_eqb s (of_string "E2-TTS") then
        match E2TTS_ema_model g with
        | Some m => (g, [], Ok (Bound (Some m)))
        | None =>
            match load_e2tts tt with
            | Raise x => (g, [LoadE2], Raise (Raised x))
            | Ok m =>
                (Globals (Some m) (custom_ema_model g) (pre_custom_path g),
                 [LoadE2], Ok (Bound (Some m)))
            end
        end
      else (g, [], Ok Unbound)
  | Items l =>
      match l with
      | [] => (g, [], Raise IndexError)
      | head :: _ =>
          if str_eqb head (of_string "Custom") then
            if USING_SPACES then
              (g, [],
               Raise (AssertionError
                        (of_string "Only official checkpoints allowed in Spaces.")))
            else
              match nth_error l 1 with
              | None => (g, [], Raise IndexError)
              | Some path =>
                  if negb (str_eqb (pre_custom_path g) path) then
                    match nth_error l 2 with
                    | None => (g, [], Raise IndexError)
                    | Some vocab =>
                        match load_custom path vocab with
                        | Raise x =>
                            (g, [LoadCustom path vocab], Raise (Raised x))
                        | Ok m =>
                            (Globals (E2TTS_ema_model g) (Some m) path,
                             [LoadCustom path vocab], Ok (Bound (Some m)))
                        end
                    end
                  else (g, [], Ok (Bound (custom_ema_model g)))
              end
          else (g, [], Ok Unbound)
      end
  end.

Definition infer (ref_audio_orig : audio_in) (ref_text : widget)
    (gen_text : str) (model : selector) (remove_silence : bool)
    (cross_fade_duration speed : number) (g : globals)
    : globals * list event * result exc (N * wave * str * str) :=
  match preprocess_ref_audio_text ref_audio_orig ref_text with
  | Raise x => (g, [], Raise (Raised x))
  | Ok (ref_audio, ref_text) =>
      match model_selection model g with
      | (g', loads, Raise e) => (g', loads, Raise e)
      | (g', loads, Ok Unbound) => (g', loads, Raise UnboundLocalError)
      | (g', loads, Ok (Bound ema_model)) =>
          match synthesize ref_audio ref_text gen_text ema_model
                  remove_silence cross_fade_duration speed with
          | Raise x => (g', loads, Raise (Raised x))
          | Ok (rate, final_wave, spectrogram_path) =>
              (g', loads, Ok (rate, final_wave, spectrogram_path, ref_text))
          end
      end
  end.

End Infer.

Arguments Globals {model}.
Arguments Unbound {model}.
Arguments Bound {model}.
Arguments load_custom {model ext}.
Arguments model_selection {model ext}.
Arguments infer {model ext audio_in audio wave number}.
Arguments E2TTS_ema_model {model}.
Arguments custom_ema_model {model}.
Arguments pre_custom_path {model}.
Arguments AssertionError {ext}.
Arguments IndexError {ext}.
Arguments UnboundLocalError {ext}.
Arguments Raised {ext}.

End Infer.

(** ** Voice chat *)

Module Chat.
Import Py.

(** [{"role": ..., "content": ...}] *)
Record message := Message { role : str; content : str }.

Section Chat.

(** What the collaborators raise, with its [str(e)]. *)
Variable ext : Type.
Variable ext_str : ext -> str.

(** [preprocess_ref_audio_text(audio_path, text)[1]] *)
Variable transcribe : str -> str -> result ext str.

(** [generate_response(conv_state, chat_model_state, chat_tokenizer_state)] *)
Variable generate_response : list message -> result ext str.

(** [history[-1] = x] on a non-empty list. *)
Definition set_last {A : Type} (l : list A) (x : A) : list A :=
  removelast l ++ [x].

(** What the [try] catches: the error of a [print], or what a
    collaborator raises. *)
Inductive exc : Type :=
  | UnicodeEncodeError (e : encode_error)
  | Raised (e : ext).

(** [str(e)] *)
Definition exc_str (e : exc) : str :=
  match e with
  | UnicodeEncodeError u => encode_error_str u
  | Raised x => ext_str x
  end.

(** The body of the [try]: the two lists as it leaves them, and the
    exception it raised, if any. *)
Definition respond (audio_path : widget) (text : str)
    (history : list (str * option str)) (conv_state : list message)
    : list (str * option str) * list message * option exc :=
  match (match audio_path with
         | Some path =>
             if truthy path then
               match transcribe path text with
               | Raise x => Raise (Raised x)
               | Ok text =>
                   match print (of_string "Transcribed Text: " ++ text) with
                   | Raise u => Raise (UnicodeEncodeError u)
                   | Ok _ => Ok text
                   end
               end
             else Ok text
         | None => Ok text
         end) with
  | Raise e => (history, conv_state, Some e)
  | Ok text =>
      let conv_state := conv_state ++ [Message (of_string "user") text] in
      let history := history ++ [(text, None)] in
      match generate_response conv_state with
      | Raise x => (history, conv_state, Some (Raised x))
      | Ok response =>
          match print (of_string "AI Response: " ++ response) with
          | Raise u => (history, conv_state, Some (UnicodeEncodeError u))
          | Ok _ =>
              let conv_state :=
                conv_state ++ [Message (of_string "assistant") response] in
              let history := set_last history (text, Some response) in
              (history, conv_state, None)
          end
      end
  end.

(** The two lists are mutated in place and returned; the function gives
    their contents when it ends, and the new value of the text box or the
    error of the [print] that raised out of it: one of the two before the
    [try], or the one in the [except] clause.  The prints of fixed texts
    are left out. *)
Definition process_audio_input (audio_path : widget) (text : str)
    (history : list (str * option str)) (conv_state : list message)
    : list (str * option str) * list message * result encode_error str :=
  match (if widget_truthy audio_path
         then print (of_string "Audio Input Path: " ++ format_widget audio_path)
         else Ok tt) with
  | Raise u => (history, conv_state, Raise u)
  | Ok _ =>
      match (if truthy text
             then print (of_string "User Text Input: " ++ text)
             else Ok tt) with
      | Raise u => (history, conv_state, Raise u)
      | Ok _ =>
          if negb (widget_truthy audio_path) && negb (truthy (strip text)) then
            (history, conv_state, Ok [])
          else
            match respond audio_path text history conv_state with
            | (history, conv_state, None) => (history, conv_state, Ok [])
            | (history, conv_state, Some e) =>
                match print (of_string "Error processing input: " ++ exc_str e)
                with
                | Raise u => (history, conv_state, Raise u)
                | Ok _ => (history, conv_state, Ok [])
                end
            end
      end
  end.

End Chat.

Arguments UnicodeEncodeError {ext}.
Arguments Raised {ext}.
Arguments exc_str {ext}.
Arguments respond {ext}.
Arguments process_audio_input {ext}.

End Chat.

(** ** The speech-type rows of the multi-style tab *)

Module SpeechTypes.
Import Py Parser.

Definition max_speech_types : Z := 100.

(** [gr.update()] and [gr.update(visible=...)]. *)
Inductive update : Type :=
  | Keep
  | SetVisible (visible : bool).

(** [range(1, max_speech_types)] *)
Definition row_range : list Z := map Z.of_nat (seq 1 99).

Definition add_speech_type_fn (speech_type_count : Z) : Z * list update :=
  if (speech_type_count <? max_speech_types)%Z then
    let speech_type_count := (speech_type_count + 1)%Z in
    (speech_type_count,
     map (fun i => if (i <? speech_type_count)%Z then SetVisible true else Keep)
       row_range)
  else
    (speech_type_count, map (fun _ => Keep) row_range).

(** [make_delete_speech_type_fn(index)] applied to the count. *)
Definition make_delete_speech_type_fn (index : Z) (speech_type_count : Z)
    : Z * list update :=
  let row_updates :=
    map (fun i => if (i =? index)%Z then SetVisible false else Keep)
      row_range in
  let speech_type_count := Z.max 1 speech_type_count in
  (speech_type_count, row_updates).

(** The handler wired to the delete button of the row [j] of
    [speech_type_rows]: [enumerate(speech_type_delete_btns)] counts from
    zero. *)
Definition delete_button (j : nat) : Z -> Z * list update :=
  make_delete_speech_type_fn (Z.of_nat j).

(** The outputs are [[speech_type_count] + speech_type_rows]: the update
    at place [k] goes to the row [k].  The rows are given by their
    visibility. *)
Fixpoint apply_updates (updates : list update) (rows : list bool) : list bool :=
  match updates, rows with
  | u :: updates', r :: rows' =>
      match u with
      | Keep => r
      | SetVisible v => v
      end :: apply_updates updates' rows'
  | _, _ => rows
  end.

(** [insert_speech_type_fn]: the new value of the text box. *)
Definition insert_speech_type_fn (current_text speech_type_name : widget) : str :=
  let current_text := if widget_truthy current_text
                      then match current_text with Some s => s | None => [] end
                      else [] in
  let speech_type_name :=
    if widget_truthy speech_type_name
    then match speech_type_name with Some s => s | None => [] end
    else of_string "None" in
  current_text ++ lbrace :: speech_type_name ++ rbrace :: of_string " ".

(** Membership in a [set] of strings given by its elements. *)
Definition set_mem (x : str) (s : list str) : bool := existsb (str_eqb x) s.

(** [validate_speech_types]: the [interactive] flag of the update it
    returns for the generate button. *)
Definition validate_speech_types (gen_text : str) (regular_name : widget)
    (args : list widget) : bool :=
  let speech_type_names_list := firstn (Z.to_nat max_speech_types) args in
  let speech_types_available :=
    (match regular_name with
     | Some name => if truthy name then [name] else []
     | None => []
     end) ++
    flat_map (fun name_input =>
                match name_input with
                | Some name => if truthy name then [name] else []
                | None => []
                end) speech_type_names_list in
  let segments := parse_speechtypes_text gen_text in
  let speech_types_in_text := map style segments in
  let missing_speech_types :=
    filter (fun s => negb (set_mem s speech_types_available))
      speech_types_in_text in
  match missing_speech_types with
  | _ :: _ => false
  | [] => true
  end.

(** The key under which the collecting loop of
    [generate_multistyle_speech] files the row at place [ref_text_idx]:
    the name of a row with a name and an audio, the placeholder of its
    place otherwise. *)
Definition row_key (ref_text_idx : nat)
    (row : widget * (widget * widget)) : str :=
  match fst row with
  | Some name =>
      if truthy name && widget_truthy (fst (snd row)) then name
      else Multistyle.placeholder ref_text_idx
  | None => Multistyle.placeholder ref_text_idx
  end.

(** The keys of the rows from the place [n] on, in order. *)
Fixpoint row_keys (n : nat) (rows : list (widget * (widget * widget)))
    : list str :=
  match rows with
  | [] => []
  | row :: rows' => row_key n row :: row_keys (S n) rows'
  end.

End SpeechTypes.

(** ** The voice-chat session *)

Module ChatSession.
Import Py Chat.

Definition default_prompt : str :=
  of_string "You are not an AI assistant, you are whoever the user says you are. You must stay in character. Keep your responses concise since they will be spoken out loud.".

Definition system_message (prompt : str) : message :=
  Message (of_string "system") prompt.

(** The new chat history and conversation state. *)
Definition clear_conversation : list (str * option str) * list message :=
  ([], [system_message default_prompt]).

Definition update_system_prompt (new_prompt : str)
    : list (str * option str) * list message :=
  let new_conv_state := [system_message new_prompt] in
  ([], new_conv_state).

Section Session.

Variables (ext audio World chat_model tokenizer : Type).
Variable ext_str : ext -> str.
Variable transcribe : str -> str -> result ext str.
Variable generate_response : list message -> result ext str.

(** [infer(ref_audio, ref_text, last_ai_response, tts_model_choice,
    remove_silence, cross_fade_duration=0.15, speed=1.0, show_info=print)],
    giving [audio_result] and [ref_text_out]. *)
Variable infer :
  str -> widget -> str -> bool -> World -> World * result ext (audio * str).

(** [AutoModelForCausalLM.from_pretrained] and
    [AutoTokenizer.from_pretrained] for the chat model. *)
Variable load_model : unit -> result ext chat_model.
Variable load_tokenizer : unit -> result ext tokenizer.

(** [None], or the audio with the new value of the reference text box. *)
Definition generate_audio_response (history : list (str * option str))
    (ref_audio ref_text : widget) (remove_silence : bool) (w : World)
    : World * result ext (option (audio * str)) :=
  match history, ref_audio with
  | [], _ => (w, Ok None)
  | _ :: _, None => (w, Ok None)
  | _ :: _, Some ref_audio_path =>
      if negb (truthy ref_audio_path) then (w, Ok None)
      else
        let '(last_user_message, last_ai_response) :=
          last history ([], None) in
        match last_ai_response with
        | None => (w, Ok None)
        | Some response =>
            if negb (truthy response) then (w, Ok None)
            else
              match infer ref_audio_path ref_text response remove_silence w with
              | (w', Raise x) => (w', Raise x)
              | (w', Ok (audio_result, ref_text_out)) =>
                  (w', Ok (Some (audio_result, ref_text_out)))
              end
        end
  end.

(** The chat history and the conversation state the page holds after
    [process_audio_input] ran on them.  A handler that returns sets both
    outputs.  One that raises sets none: the chat keeps the history it
    had, and the conversation state, the list the handler appends to in
    place, is as the handler left it. *)
Definition after_input (history : list (str * option str))
    (run : list (str * option str) * list message * result encode_error str)
    : list (str * option str) * list message :=
  let '(history', conv_state', r) := run in
  match r with
  | Ok _ => (history', conv_state')
  | Raise _ => (history, conv_state')
  end.

(** A submitted message: [process_audio_input], then
    [generate_audio_response] on the history the page holds, whether the
    first returned or raised. *)
Definition send_message (audio_path : widget) (text : str)
    (history : list (str * option str)) (conv_state : list message)
    (ref_audio ref_text : widget) (remove_silence : bool) (w : World)
    : list (str * option str) * list message *
      (World * result ext (option (audio * str))) :=
  let '(history, conv_state) :=
    after_input history
      (process_audio_input ext_str transcribe generate_response audio_path
         text history conv_state) in
  (history, conv_state,
   generate_audio_response history ref_audio ref_text remove_silence w).

(** The globals [chat_model_state] and [chat_tokenizer_state]. *)
Record chat_globals := ChatGlobals {
  chat_model_state : option chat_model;
  chat_tokenizer_state : option tokenizer
}.

Definition load_chat_model (g : chat_globals) : chat_globals * result ext unit :=
  match chat_model_state g with
  | Some _ => (g, Ok tt)
  | None =>
      match load_model tt with
      | Raise x => (g, Raise x)
      | Ok m =>
          let g := ChatGlobals (Some m) (chat_tokenizer_state g) in
          match load_tokenizer tt with
          | Raise x => (g, Raise x)
          | Ok t => (ChatGlobals (chat_model_state g) (Some t), Ok tt)
          end
      end
  end.

(** What the user can do to the chat, and the state it leaves. *)
Inductive event : Type :=
  | Send (audio_path : widget) (text : str)
  | Clear
  | SystemPrompt (new_prompt : str).

Definition handle (st : list (str * option str) * list message) (e : event)
    : list (str * option str) * list message :=
  match e with
  | Send audio_path text =>
      after_input (fst st)
        (process_audio_input ext_str transcribe generate_response audio_path
           text (fst st) (snd st))
  | Clear => clear_conversation
  | SystemPrompt new_prompt => update_system_prompt new_prompt
  end.

End Session.

Arguments ChatGlobals {chat_model tokenizer}.
Arguments chat_model_state {chat_model tokenizer}.
Arguments chat_tokenizer_state {chat_model tokenizer}.
Arguments generate_audio_response {ext audio World}.
Arguments send_message {ext audio World}.
Arguments load_chat_model {ext chat_model tokenizer}.
Arguments handle {ext}.

(** The exchanges a conversation state holds: each user message with the
    assistant message that follows it at once, if one does. *)
Fixpoint transcript (conv : list message) : list (str * option str) :=
  match conv with
  | [] => []
  | m :: rest =>
      if str_eqb (role m) (of_string "user") then
        match rest with
        | m' :: rest' =>
            if str_eqb (role m') (of_string "assistant")
            then (content m, Some (content m')) :: transcript rest'
            else (content m, None) :: transcript rest
        | [] => [(content m, None)]
        end
      else transcript rest
  end.

End ChatSession.

(** ** What the model cache holds *)

Module Cache.
Import Py Infer.

Section Cache.

Variables (model ext : Type).
Variable cached_path : str -> result ext str.
Variable load_model : str -> str -> result ext model.

(** The custom model held is one that [load_custom] gave for the path
    held, with some vocabulary; with no model held, the path held is the
    empty string the module starts with. *)
Definition coherent (g : globals model) : Prop :=
  match custom_ema_model g with
  | None => pre_custom_path g = []
  | Some m =>
      exists vocab,
        load_custom cached_path load_model (pre_custom_path g) vocab = Ok m
  end.

End Cache.

Arguments coherent {model ext}.

End Cache.

(** ** The choice of the model *)

Module ModelChoice.
Import Py Infer.

Definition comma : char := 44%N.
Definition carriage_return : char := 13%N.

(** [s.split(",")] *)
Fixpoint split_comma (s : str) : list str :=
  match s with
  | [] => [[]]
  | c :: s' =>
      if (c =? comma)%N then [] :: split_comma s'
      else match split_comma s' with
           | part :: parts => (c :: part) :: parts
           | [] => [[c]]
           end
  end.

(** ["," in s] *)
Definition has_comma (s : str) : bool := existsb (N.eqb comma) s.

(** ["\r" in s] *)
Definition has_return (s : str) : bool := existsb (N.eqb carriage_return) s.

(** What reading in text mode makes of the text stored: a carriage
    return and the line feed after it become one line feed, and any other
    carriage return becomes a line feed. *)
Fixpoint universal_newlines (s : str) : str :=
  match s with
  | [] => []
  | c :: s' =>
      if (c =? carriage_return)%N then
        match s' with
        | c' :: _ =>
            if (c' =? newline)%N then universal_newlines s'
            else newline :: universal_newlines s'
        | [] => [newline]
        end
      else c :: universal_newlines s'
  end.

Definition default_custom : list str :=
  [of_string "hf://SWivid/F5-TTS/F5TTS_Base/model_1200000.safetensors";
   of_string "hf://SWivid/F5-TTS/F5TTS_Base/vocab.txt"].

(** [load_last_used_custom], from the file: the text stored in it, read
    in text mode, or [None] for [FileNotFoundError]. *)
Definition load_last_used_custom (file : option str) : list str :=
  match file with
  | Some stored => split_comma (universal_newlines stored)
  | None => default_custom
  end.

Inductive exc : Type :=
  | ValueError.

(** [switch_tts_model]: the new [tts_model_choice]. *)
Definition switch_tts_model (new_choice : str) (file : option str)
    : result exc selector :=
  if str_eqb new_choice (of_string "Custom") then
    match load_last_used_custom file with
    | [custom_ckpt_path; custom_vocab_path] =>
        Ok (Items [of_string "Custom"; custom_ckpt_path; custom_vocab_path])
    | _ => Raise ValueError
    end
  else Ok (Name new_choice).

(** [set_custom_model]: the new [tts_model_choice], the text the file
    holds after, and what [f.write] raises.  The file is opened for
    writing in text mode under a UTF-8 locale on a system whose line
    separator is the line feed: the text is stored as it is, and a text
    with a surrogate in it raises [UnicodeEncodeError] with the file left
    empty. *)
Definition set_custom_model (custom_ckpt_path custom_vocab_path : str)
    : selector * str * result encode_error unit :=
  let tts_model_choice :=
    Items [of_string "Custom"; custom_ckpt_path; custom_vocab_path] in
  let written := custom_ckpt_path ++ comma :: custom_vocab_path in
  if encodable written then (tts_model_choice, written, Ok tt)
  else (tts_model_choice, [], Raise (encode_error_of written)).

End ModelChoice.

(** ** Collaborators to run the model on *)

Module Demo.
Import Py.

(** A preprocessing that passes, with the reference text as typed. *)
Definition preprocess (_ : unit) (ref_text : widget) : result unit (unit * str) :=
  Ok (tt, match ref_text with Some s => s | None => [] end).

(** Models are numbered; a checkpoint loads to the length of its path. *)
Definition load_e2tts (_ : unit) : result unit nat := Ok 2.
Definition cached_path (path : str) : result unit str := Ok path.
Definition load_model (ckpt_path vocab_path : str) : result unit nat :=
  Ok (length ckpt_path).

(** A synthesis that echoes the text and fails when given no model. *)
Definition synthesize (_ : unit) (_ gen_text : str) (m : option nat)
    (_ : bool) (_ _ : unit) : result unit (N * str * str) :=
  match m with
  | Some _ => Ok (24000%N, gen_text, of_string "spectrogram.png")
  | None => Raise tt
  end.

(** For the multi-style tab: an [infer] that echoes the text and counts
    its calls in the world. *)
Definition infer_count (_ _ : widget) (gen_text : str) (_ : bool) (w : nat)
    : nat * result unit (N * str * str) :=
  (S w, Ok (24000%N, gen_text, of_string "heard")).

(** For the batch: an [infer] that always raises, one that echoes the
    chapter, a write that passes and a POSIX path join. *)
Definition infer_raises (_ : widget) (_ _ : str) (_ : unit) (w : unit)
    : unit * result unit (N * str) := (w, Raise tt).
Definition infer_echo (_ : widget) (_ chapter_text : str) (_ : unit)
    (w : unit) : unit * result unit (N * str) :=
  (w, Ok (24000%N, chapter_text)).
(** What the collaborators raise says "failed". *)
Definition message_of (_ : unit) : str := of_string "failed".
Definition sf_write (_ : str) (_ : str) (_ : N) (w : unit)
    : unit * result unit unit := (w, Ok tt).
Definition path_join (a b : str) : str := a ++ of_string "/" ++ b.

End Demo.

(** * Properties *)

(** ** Python string primitives *)

Module PyFacts.
Import Py.

Lemma lstrip_split (s : str) :
  exists ws, s = ws ++ lstrip s /\ forallb isspace ws = true.
Proof.
  induction s as [|c s IH]; simpl.
  - exists []. split; reflexivity.
  - destruct (isspace c) eqn:Hc.
    + destruct IH as [ws [Hs Hws]]. exists (c :: ws). simpl.
      rewrite Hc, Hws. split; [f_equal; exact Hs | reflexivity].
    + exists []. split; reflexivity.
Qed.

Lemma lstrip_head (s : str) c r : lstrip s = c :: r -> isspace c = false.
Proof.
  induction s as [|a s IH]; simpl; [discriminate|].
  destruct (isspace a) eqn:Ha; [exact IH|].
  intros H. injection H as -> _. exact Ha.
Qed.

Lemma lstrip_blank (s : str) : lstrip s = [] <-> forallb isspace s = true.
Proof.
  induction s as [|a s IH]; simpl; [tauto|].
  destruct (isspace a); simpl; [exact IH|].
  split; discriminate.
Qed.

Lemma strip_split (s : str) :
  exists ws1 ws2,
    s = ws1 ++ strip s ++ ws2 /\
    forallb isspace ws1 = true /\ forallb isspace ws2 = true.
Proof.
  destruct (lstrip_split s) as [ws1 [Hs H1]].
  destruct (lstrip_split (rev (lstrip s))) as [ws2 [Hr H2]].
  exists ws1, (rev ws2). split; [|split].
  - unfold strip, rstrip. rewrite <- rev_app_distr, <- Hr, rev_involutive.
    exact Hs.
  - exact H1.
  - rewrite forallb_forall in *. intros x Hx. apply H2.
    apply in_rev. exact Hx.
Qed.

Lemma strip_first (s : str) c r : strip s = c :: r -> isspace c = false.
Proof.
  unfold strip, rstrip. intros H.
  destruct (lstrip (rev (lstrip s))) as [|z zs] eqn:Hz; [discriminate|].
  pose proof (lstrip_head _ _ _ Hz) as Hsp.
  pose proof (lstrip_split (rev (lstrip s))) as [ws [Hrev _]].
  rewrite Hz in Hrev.
  assert (Hl : lstrip s = rev zs ++ z :: rev ws).
  { rewrite <- (rev_involutive (lstrip s)), Hrev, rev_app_distr. simpl.
    rewrite <- app_assoc. reflexivity. }
  simpl in H. destruct (rev zs) as [|y ys] eqn:Hy.
  - simpl in H. injection H as <- _. exact Hsp.
  - simpl in H. injection H as <- _. simpl in Hl. exact (lstrip_head _ _ _ Hl).
Qed.

Lemma strip_last (s : str) r c : strip s = r ++ [c] -> isspace c = false.
Proof.
  unfold strip, rstrip. intros H.
  apply (f_equal (@rev char)) in H.
  rewrite rev_involutive, rev_app_distr in H. simpl in H.
  exact (lstrip_head _ _ _ H).
Qed.

Lemma strip_blank (s : str) : strip s = [] <-> forallb isspace s = true.
Proof.
  split.
  - intros H. destruct (strip_split s) as [ws1 [ws2 [Hs [H1 H2]]]].
    rewrite H in Hs. simpl in Hs. rewrite Hs, forallb_app, H1, H2. reflexivity.
  - intros H. unfold strip. apply lstrip_blank in H. rewrite H. reflexivity.
Qed.

Lemma truthy_strip (s : str) : truthy (strip s) = negb (forallb isspace s).
Proof.
  destruct (forallb isspace s) eqn:Hb.
  - apply strip_blank in Hb. rewrite Hb. reflexivity.
  - destruct (strip s) eqn:Hs; [|reflexivity].
    apply strip_blank in Hs. congruence.
Qed.

Lemma str_eqb_eq a b : str_eqb a b = true <-> a = b.
Proof.
  unfold str_eqb. destruct (list_eq_dec N.eq_dec a b); split;
    congruence.
Qed.

Lemma str_eqb_refl a : str_eqb a a = true.
Proof. apply str_eqb_eq. reflexivity. Qed.

Lemma str_eqb_neq a b : str_eqb a b = false <-> a <> b.
Proof.
  unfold str_eqb. destruct (list_eq_dec N.eq_dec a b); split;
    congruence.
Qed.

Lemma is_surrogate_small c : (c < 55296)%N -> is_surrogate c = false.
Proof.
  intros H. unfold is_surrogate.
  destruct (N.leb_spec 55296 c); [lia | reflexivity].
Qed.

Lemma encodable_app a b : encodable (a ++ b) = encodable a && encodable b.
Proof. unfold encodable. apply forallb_app. Qed.

Lemma encodable_cons c s :
  encodable (c :: s) = negb (is_surrogate c) && encodable s.
Proof. reflexivity. Qed.

Lemma encodable_of_string (s : string) : encodable (of_string s) = true.
Proof.
  unfold of_string. induction s as [|a s IH]; [reflexivity|].
  cbn [list_ascii_of_string map]. rewrite encodable_cons, IH.
  rewrite is_surrogate_small; [reflexivity|].
  pose proof (N_ascii_bounded a). lia.
Qed.

Lemma encodable_literal_app (lit : string) (s : str) :
  encodable (of_string lit ++ s) = encodable s.
Proof. rewrite encodable_app, encodable_of_string. reflexivity. Qed.

Lemma encodable_decimal n : encodable (decimal n) = true.
Proof. apply encodable_of_string. Qed.

Lemma hex_digit_small d : (d < 16)%N -> is_surrogate (hex_digit d) = false.
Proof.
  intros H. apply is_surrogate_small. unfold hex_digit.
  destruct (N.ltb_spec d 10); lia.
Qed.

Lemma encodable_hex4 c : encodable (hex4 c) = true.
Proof.
  unfold hex4, encodable. cbn [forallb].
  rewrite !hex_digit_small by (apply N.mod_lt; discriminate).
  reflexivity.
Qed.

(** The text of a [UnicodeEncodeError] can itself be printed. *)
Lemma encode_error_str_encodable e : encodable (encode_error_str e) = true.
Proof.
  unfold encode_error_str.
  destruct (Nat.eqb (e_end e) (S (e_start e)));
    rewrite !encodable_app, !encodable_of_string, ?encodable_hex4,
      ?encodable_decimal; reflexivity.
Qed.

Lemma isspace_not_surrogate c : isspace c = true -> is_surrogate c = false.
Proof.
  intros H. destruct (N.ltb_spec c 55296) as [Hlt|Hge].
  - apply is_surrogate_small. exact Hlt.
  - exfalso. revert H. unfold isspace.
    repeat match goal with
           | |- context [(?a <=? ?b)%N] =>
               destruct (N.leb_spec a b); try lia
           | |- context [(?a =? ?b)%N] =>
               destruct (N.eqb_spec a b); try lia
           end; simpl; discriminate.
Qed.

Lemma blank_encodable s : forallb isspace s = true -> encodable s = true.
Proof.
  induction s as [|c s IH]; [reflexivity|]. cbn [forallb].
  intros H. apply andb_true_iff in H as [Hc Hs].
  rewrite encodable_cons, (isspace_not_surrogate c Hc), (IH Hs). reflexivity.
Qed.

Lemma print_ok s : encodable s = true -> print s = Ok tt.
Proof. unfold print. intros ->. reflexivity. Qed.

Lemma print_raise s :
  encodable s = false -> print s = Raise (encode_error_of s).
Proof. unfold print. intros ->. reflexivity. Qed.

Lemma print_cases s :
  (encodable s = true /\ print s = Ok tt) \/
  (encodable s = false /\ print s = Raise (encode_error_of s)).
Proof.
  unfold print. destruct (encodable s); [left | right]; split; reflexivity.
Qed.

Lemma startswith_app p x : startswith p (p ++ x) = true.
Proof.
  induction p as [|c p IH]; simpl; [reflexivity|].
  rewrite N.eqb_refl. exact IH.
Qed.

End PyFacts.

(** ** The pattern and [re.split] *)

Module ParserFacts.
Import Py Parser PyFacts.

Lemma lazy_group_some r g rest :
  lazy_group r = Some (g, rest) ->
  r = g ++ rbrace :: rest /\ label_ok g = true.
Proof.
  revert g. induction r as [|c r IH]; simpl; intros g H; [discriminate|].
  destruct (c =? rbrace)%N eqn:Hrb.
  - injection H as <- <-. apply N.eqb_eq in Hrb. subst c. split; reflexivity.
  - destruct (c =? newline)%N eqn:Hnl; [discriminate|].
    destruct (lazy_group r) as [[g' rest']|]; [|discriminate].
    injection H as <- <-. destruct (IH g' eq_refl) as [-> Hg].
    split; [reflexivity|]. simpl. rewrite Hrb, Hnl, Hg. reflexivity.
Qed.

Lemma lazy_group_label l rest :
  label_ok l = true -> lazy_group (l ++ rbrace :: rest) = Some (l, rest).
Proof.
  induction l as [|c l IH]; simpl; intros H.
  - reflexivity.
  - apply andb_prop in H as [Hc Hl]. apply andb_prop in Hc as [Hrb Hnl].
    apply negb_true_iff in Hrb, Hnl. rewrite Hrb, Hnl, (IH Hl). reflexivity.
Qed.

Lemma lazy_group_closes r : lazy_group r = None <-> closes r = false.
Proof.
  induction r as [|c r IH]; simpl; [tauto|].
  destruct (c =? rbrace)%N; [split; discriminate|].
  destruct (c =? newline)%N; [tauto|].
  destruct (lazy_group r) as [[g rest]|].
  - split; [discriminate|]. intros H. apply IH in H. discriminate.
  - split; [intros _; apply IH; reflexivity | reflexivity].
Qed.

Lemma blocked_app b x : blocked b = true -> closes (b ++ x) = false.
Proof.
  induction b as [|c b IH]; simpl; [discriminate|].
  destruct (c =? rbrace)%N; [discriminate|].
  destruct (c =? newline)%N; [reflexivity | exact IH].
Qed.

(** A label followed by its closing brace blocks nothing: an opening brace
    cut short before the marker was cut by a line feed of its own. *)
Lemma closes_app_marker b l rest :
  label_ok l = true ->
  closes (b ++ marker l ++ rest) = false -> blocked b = true.
Proof.
  intros Hl. induction b as [|c b IH]; simpl.
  - intros H. exfalso. unfold lbrace, rbrace in H. simpl in H.
    assert (Hc : closes (l ++ rbrace :: rest) = true).
    { clear H. induction l as [|a l IHl]; simpl; [reflexivity|].
      simpl in Hl. apply andb_prop in Hl as [Ha Hl'].
      apply andb_prop in Ha as [Hrb Hnl]. apply negb_true_iff in Hrb, Hnl.
      rewrite Hrb, Hnl. exact (IHl Hl'). }
    unfold marker in H. simpl in H. rewrite <- app_assoc in H. simpl in H.
    unfold rbrace in Hc. congruence.
  - destruct (c =? rbrace)%N; [discriminate|].
    destruct (c =? newline)%N; [reflexivity | exact IH].
Qed.

Lemma search_none s : search s = None <-> last_span_ok s = true.
Proof.
  induction s as [|c s IH]; simpl; [tauto|].
  destruct (c =? lbrace)%N.
  - destruct (lazy_group s) as [[g rest]|] eqn:Hg.
    + split; [discriminate|]. intros H. apply andb_prop in H as [H _].
      apply negb_true_iff, lazy_group_closes in H. congruence.
    + apply lazy_group_closes in Hg. rewrite Hg. simpl.
      destruct (search s) as [[[pre g] rest]|].
      * split; [discriminate|]. intros H. apply IH in H. discriminate.
      * split; [intros _; apply IH; reflexivity | reflexivity].
  - simpl. destruct (search s) as [[[pre g] rest]|].
    + split; [discriminate|]. intros H. apply IH in H. discriminate.
    + split; [intros _; apply IH; reflexivity | reflexivity].
Qed.

Lemma search_some s pre g rest :
  search s = Some (pre, g, rest) ->
  s = pre ++ marker g ++ rest /\
  inner_span_ok pre = true /\ label_ok g = true.
Proof.
  revert pre. induction s as [|c s IH]; simpl; intros pre H; [discriminate|].
  destruct (c =? lbrace)%N eqn:Hlb.
  - destruct (lazy_group s) as [[g' rest']|] eqn:Hg.
    + injection H as <- <- <-. apply N.eqb_eq in Hlb. subst c.
      destruct (lazy_group_some _ _ _ Hg) as [-> Hl].
      unfold marker. simpl. rewrite <- app_assoc. simpl. auto.
    + destruct (search s) as [[[pre' g'] rest']|] eqn:Hs; [|discriminate].
      injection H as <- <- <-.
      destruct (IH pre' eq_refl) as [-> [Hpre Hl]].
      split; [reflexivity|]. split; [|exact Hl].
      simpl. rewrite Hlb, Hpre, andb_true_r.
      apply lazy_group_closes in Hg.
      exact (closes_app_marker _ _ _ Hl Hg).
  - destruct (search s) as [[[pre' g'] rest']|] eqn:Hs; [|discriminate].
    injection H as <- <- <-.
    destruct (IH pre' eq_refl) as [-> [Hpre Hl]].
    split; [reflexivity|]. split; [|exact Hl].
    simpl. rewrite Hlb. exact Hpre.
Qed.

Lemma search_marker t l rest :
  inner_span_ok t = true -> label_ok l = true ->
  search (t ++ marker l ++ rest) = Some (t, l, rest).
Proof.
  intros Ht Hl. induction t as [|c t IH].
  - unfold marker. simpl. rewrite <- app_assoc. simpl.
    rewrite (lazy_group_label _ _ Hl). reflexivity.
  - simpl in Ht. apply andb_prop in Ht as [Hc Ht].
    change (search ((c :: t) ++ marker l ++ rest))
      with (match match_here (c :: t ++ marker l ++ rest) with
            | Some (g, r) => Some ([], g, r)
            | None => match search (t ++ marker l ++ rest) with
                      | Some (pre, g, r) => Some (c :: pre, g, r)
                      | None => None
                      end
            end).
    rewrite (IH Ht). unfold match_here. destruct (c =? lbrace)%N; [|reflexivity].
    pose proof (blocked_app _ (marker l ++ rest) Hc) as Hb.
    apply lazy_group_closes in Hb. rewrite Hb. reflexivity.
Qed.

Lemma search_shorter s pre g rest :
  search s = Some (pre, g, rest) -> length rest < length s.
Proof.
  intros H. apply search_some in H as [-> _].
  unfold marker. rewrite !length_app. simpl. rewrite length_app. simpl. lia.
Qed.

Lemma re_split_fuel_indep n m s :
  length s <= n -> length s <= m -> re_split_fuel n s = re_split_fuel m s.
Proof.
  revert m s. induction n as [|n IH]; intros m s Hn Hm.
  - destruct s; [|simpl in Hn; lia]. destruct m; reflexivity.
  - simpl. destruct (search s) as [[[pre g] rest]|] eqn:Hs.
    + pose proof (search_shorter _ _ _ _ Hs) as Hlt.
      destruct m as [|m]; [lia|]. simpl. rewrite Hs.
      f_equal. f_equal. apply IH; lia.
    + destruct m; simpl; rewrite Hs; reflexivity.
Qed.

(** The fuel is never exhausted: [re_split] satisfies the defining equation
    of [re.split]. *)
Lemma re_split_eq s :
  re_split s =
  match search s with
  | None => [s]
  | Some (pre, g, rest) => pre :: g :: re_split rest
  end.
Proof.
  unfold re_split. destruct (length s) as [|n] eqn:Hn.
  - destruct s; [reflexivity | discriminate].
  - simpl. destruct (search s) as [[[pre g] rest]|] eqn:Hs; [|reflexivity].
    pose proof (search_shorter _ _ _ _ Hs) as Hlt.
    f_equal. f_equal. apply re_split_fuel_indep; lia.
Qed.

Lemma re_split_render t0 rest :
  layout_ok t0 rest = true -> re_split (render t0 rest) = layout_tokens t0 rest.
Proof.
  revert t0. induction rest as [|[l t] rest IH]; intros t0 H;
    cbn [render layout_ok layout_tokens] in *.
  - rewrite re_split_eq. apply search_none in H. rewrite H. reflexivity.
  - apply andb_prop in H as [H Hrest]. apply andb_prop in H as [Ht Hl].
    rewrite re_split_eq, (search_marker _ _ _ Ht Hl), (IH _ Hrest).
    reflexivity.
Qed.

(** Every string has a layout: [re.split] never fails to read its input. *)
Lemma layout_exists s :
  exists t0 rest, s = render t0 rest /\ layout_ok t0 rest = true.
Proof.
  remember (length s) as n eqn:Hn. revert s Hn.
  induction n as [n IH] using lt_wf_ind. intros s Hn.
  destruct (search s) as [[[pre g] r]|] eqn:Hs.
  - pose proof (search_shorter _ _ _ _ Hs) as Hlt.
    destruct (search_some _ _ _ _ Hs) as [-> [Hpre Hg]].
    destruct (IH (length r) ltac:(subst n; exact Hlt) r eq_refl)
      as [t [rest [-> Hok]]].
    exists pre, ((g, t) :: rest). simpl. rewrite Hpre, Hg, Hok.
    split; reflexivity.
  - exists s, []. split; [reflexivity|]. simpl. apply search_none. exact Hs.
Qed.

(** A layout is determined by the string it renders. *)
Lemma layout_unique t0 rest t0' rest' :
  layout_ok t0 rest = true -> layout_ok t0' rest' = true ->
  render t0 rest = render t0' rest' -> t0 = t0' /\ rest = rest'.
Proof.
  intros H H' E.
  assert (Ht : layout_tokens t0 rest = layout_tokens t0' rest').
  { rewrite <- !re_split_render by assumption. rewrite E. reflexivity. }
  clear H H' E. revert t0 t0' rest' Ht.
  induction rest as [|[l t] rest IH]; intros t0 t0' [|[l' t'] rest'] Ht;
    simpl in Ht.
  - injection Ht as ->. split; reflexivity.
  - destruct rest' as [|[? ?] ?]; discriminate.
  - destruct rest as [|[? ?] ?]; discriminate.
  - injection Ht as -> -> Ht. destruct (IH _ _ _ Ht) as [-> ->].
    split; reflexivity.
Qed.

(** *** The loop over the tokens *)

Lemma loop_body_text pre tok suf st :
  Nat.even (length pre) = true ->
  loop_body (pre ++ tok :: suf) st (length pre) =
  LoopState (segments st ++ emit (current_style st) tok) (current_style st).
Proof.
  intros He. unfold loop_body, emit. rewrite He, nth_middle.
  destruct (truthy (strip tok)).
  - reflexivity.
  - rewrite app_nil_r. destruct st; reflexivity.
Qed.

Lemma loop_body_style pre tok suf st :
  Nat.even (length pre) = false ->
  loop_body (pre ++ tok :: suf) st (length pre) =
  LoopState (segments st) (strip tok).
Proof.
  intros He. unfold loop_body. rewrite He, nth_middle. reflexivity.
Qed.

Lemma loop_layout rest : forall pre t0 st,
  Nat.even (length pre) = true ->
  segments
    (fold_left (loop_body (pre ++ layout_tokens t0 rest))
       (seq (length pre) (length (layout_tokens t0 rest))) st) =
  segments st ++ layout_segments (current_style st) t0 rest.
Proof.
  induction rest as [|[l t] rest IH]; intros pre t0 st He.
  - simpl. rewrite (loop_body_text pre t0 [] st He). simpl.
    rewrite app_nil_r. reflexivity.
  - cbn [layout_tokens length seq fold_left layout_segments].
    rewrite (loop_body_text pre t0 _ st He).
    assert (E1 : pre ++ t0 :: l :: layout_tokens t rest =
                 (pre ++ [t0]) ++ l :: layout_tokens t rest)
      by (rewrite <- app_assoc; reflexivity).
    assert (L1 : S (length pre) = length (pre ++ [t0]))
      by (rewrite length_app; simpl; lia).
    rewrite E1, L1.
    rewrite loop_body_style
      by (rewrite <- L1, Nat.even_succ, <- Nat.negb_even, He; reflexivity).
    assert (E2 : (pre ++ [t0]) ++ l :: layout_tokens t rest =
                 (pre ++ [t0; l]) ++ layout_tokens t rest)
      by (rewrite <- !app_assoc; reflexivity).
    assert (L2 : S (length (pre ++ [t0])) = length (pre ++ [t0; l]))
      by (rewrite !length_app; simpl; lia).
    rewrite E2, L2, IH.
    + simpl. rewrite <- app_assoc. reflexivity.
    + rewrite length_app. simpl. rewrite Nat.add_comm. simpl. exact He.
Qed.

(** The parser on a string given by its layout. *)
Lemma parse_render t0 rest :
  layout_ok t0 rest = true ->
  parse_speechtypes_text (render t0 rest) = layout_segments Regular t0 rest.
Proof.
  intros H. unfold parse_speechtypes_text.
  rewrite (re_split_render _ _ H).
  exact (loop_layout rest [] t0 (LoopState [] Regular) eq_refl).
Qed.

Lemma emit_blank sty t : blank t = true -> emit sty t = [].
Proof.
  intros H. unfold emit. rewrite truthy_strip. unfold blank in H.
  rewrite H. reflexivity.
Qed.

Lemma emit_nonblank sty t :
  blank t = false -> emit sty t = [Segment sty (strip t)].
Proof.
  intros H. unfold emit. rewrite truthy_strip. unfold blank in H.
  rewrite H. reflexivity.
Qed.

Lemma layout_segments_texts cur t0 rest :
  map text (layout_segments cur t0 rest) =
  map strip (filter (fun t => negb (blank t)) (spans t0 rest)).
Proof.
  revert cur t0. induction rest as [|[l t] rest IH]; intros cur t0.
  - unfold spans. simpl. destruct (blank t0) eqn:Hb.
    + rewrite (emit_blank _ _ Hb). reflexivity.
    + rewrite (emit_nonblank _ _ Hb). reflexivity.
  - cbn [layout_segments]. rewrite map_app, IH. unfold spans. simpl.
    destruct (blank t0) eqn:Hb.
    + rewrite (emit_blank _ _ Hb). reflexivity.
    + rewrite (emit_nonblank _ _ Hb). reflexivity.
Qed.

(** Dropping a marker and the whitespace-only span after it, when another
    marker follows, keeps the layout well formed and changes no segment. *)
Lemma layout_ok_drop_gap before : forall t0 l1 w l2 t after,
  layout_ok t0 (before ++ (l1, w) :: (l2, t) :: after) = true ->
  layout_ok t0 (before ++ (l2, t) :: after) = true.
Proof.
  induction before as [|[l s] before IH]; intros t0 l1 w l2 t after H;
    simpl in *.
  - apply andb_prop in H as [H1 H2]. apply andb_prop in H1 as [Ht0 _].
    apply andb_prop in H2 as [H2 H3]. apply andb_prop in H2 as [_ Hl2].
    rewrite Ht0, Hl2, H3. reflexivity.
  - apply andb_prop in H as [H1 H2]. rewrite H1. simpl.
    exact (IH _ _ _ _ _ _ H2).
Qed.

Lemma layout_segments_drop_gap before : forall cur t0 l1 w l2 t after,
  blank w = true ->
  layout_segments cur t0 (before ++ (l1, w) :: (l2, t) :: after) =
  layout_segments cur t0 (before ++ (l2, t) :: after).
Proof.
  induction before as [|[l s] before IH]; intros cur t0 l1 w l2 t after Hw.
  - cbn [app layout_segments]. rewrite (emit_blank _ _ Hw). reflexivity.
  - cbn [app layout_segments]. rewrite (IH _ _ _ _ _ _ _ Hw). reflexivity.
Qed.

(** *** The claims about the parser *)

(** C1, as the code has it: every input string reads in exactly one way as
    a first text span followed by markers and their text spans, a marker
    being an opening brace, a label with no closing brace and no line feed
    in it, and a closing brace, taken leftmost first; the parser returns,
    in input order, one segment for each span that is not empty after
    trimming: the first span under the style "Regular", every later span
    under the label of the nearest preceding marker with its outer
    whitespace removed. *)
Theorem parse_speechtypes_text_layout (s : str) :
  (exists t0 rest, s = render t0 rest /\ layout_ok t0 rest = true) /\
  (forall t0 rest t0' rest',
     s = render t0 rest -> layout_ok t0 rest = true ->
     s = render t0' rest' -> layout_ok t0' rest' = true ->
     t0 = t0' /\ rest = rest') /\
  (forall t0 rest,
     s = render t0 rest -> layout_ok t0 rest = true ->
     parse_speechtypes_text s = layout_segments Regular t0 rest).
Proof.
  split; [|split].
  - apply layout_exists.
  - intros t0 rest t0' rest' -> H E H'.
    exact (layout_unique _ _ _ _ H H' E).
  - intros t0 rest -> H. apply parse_render. exact H.
Qed.

(** The input "a{ b }c": one span before the marker, one after. *)
Lemma parse_speechtypes_text_layout_witness :
  parse_speechtypes_text (of_string "a{ b }c")
  = layout_segments Regular (of_string "a") [(of_string " b ", of_string "c")].
Proof.
  exact (proj2 (proj2 (parse_speechtypes_text_layout (of_string "a{ b }c")))
           (of_string "a") [(of_string " b ", of_string "c")]
           eq_refl eq_refl).
Defined.

(** C1 as the specification words it fails: on the input "{ Sad } x" the
    marker's label is " Sad ", and the parser emits the span under the
    style "Sad". *)
Lemma parse_label_trimmed_counterexample :
  let t0 := @nil char in
  let rest := [(of_string " Sad ", of_string " x")] in
  render t0 rest = of_string "{ Sad } x" /\
  layout_ok t0 rest = true /\
  parse_speechtypes_text (of_string "{ Sad } x")
    = [Segment (of_string "Sad") (of_string "x")] /\
  spec_segments Regular t0 rest
    = [Segment (of_string " Sad ") (of_string "x")] /\
  parse_speechtypes_text (render t0 rest) <> spec_segments Regular t0 rest.
Proof.
  cbv zeta. repeat split; try (vm_compute; reflexivity).
  vm_compute. discriminate.
Qed.

(** C2: the worked example of the specification. *)
Theorem parse_worked_example :
  parse_speechtypes_text
    (of_string "{Regular} Hello. {Sad} I wanted a sandwich.")
  = [ Segment (of_string "Regular") (of_string "Hello.");
      Segment (of_string "Sad") (of_string "I wanted a sandwich.") ].
Proof. vm_compute. reflexivity. Qed.



(** C4: on an input in which the pattern finds no marker, the parser
    returns the empty list when the input is whitespace-only, and otherwise
    the single segment with style "Regular" and the trimmed input. *)
Theorem parse_no_marker (s : str) :
  search s = None ->
  parse_speechtypes_text s =
  if blank s then [] else [Segment Regular (strip s)].
Proof.
  intros H. apply search_none in H.
  change s with (render s []) at 1.
  rewrite (parse_render s [] H). simpl. rewrite app_nil_r.
  destruct (blank s) eqn:Hb.
  - apply emit_blank. exact Hb.
  - apply emit_nonblank. exact Hb.
Qed.

(** A text with no brace in it. *)
Lemma parse_no_marker_witness :
  parse_speechtypes_text (of_string "  plain text ")
  = [Segment Regular (of_string "plain text")].
Proof.
  exact (parse_no_marker (of_string "  plain text ") eq_refl).
Defined.

(** C5: the segments of the output answer, in order, the text spans of
    the input that are not whitespace-only, and the text of each is its
    span with nothing changed but whitespace removed at both ends: the
    span is whitespace, then the text, then whitespace, and the text
    neither starts nor ends with a whitespace character. *)
Theorem parse_text_verbatim (s : str) t0 rest :
  s = render t0 rest -> layout_ok t0 rest = true ->
  Forall2
    (fun sg span =>
       (exists ws1 ws2,
          span = ws1 ++ text sg ++ ws2 /\
          blank ws1 = true /\ blank ws2 = true) /\
       (forall c r, text sg = c :: r -> isspace c = false) /\
       (forall r c, text sg = r ++ [c] -> isspace c = false))
    (parse_speechtypes_text s)
    (filter (fun t => negb (blank t)) (spans t0 rest)).
Proof.
  intros -> Hok. rewrite (parse_render _ _ Hok).
  pose proof (layout_segments_texts Regular t0 rest) as Ht.
  revert Ht. generalize (layout_segments Regular t0 rest) as segs.
  generalize (filter (fun t => negb (blank t)) (spans t0 rest)) as sp.
  induction sp as [|t sp IH]; intros [|sg segs] Ht; simpl in Ht;
    try discriminate.
  - constructor.
  - injection Ht as Hsg Ht. constructor; [|exact (IH _ Ht)].
    rewrite Hsg. split; [|split].
    + destruct (strip_split t) as [ws1 [ws2 [E [H1 H2]]]].
      exists ws1, ws2. auto.
    + intros c r. apply strip_first.
    + intros r c. apply strip_last.
Qed.

(** A span with accented and Japanese letters and a line feed inside. *)
Lemma parse_text_verbatim_witness :
  Forall2
    (fun sg span =>
       (exists ws1 ws2,
          span = ws1 ++ text sg ++ ws2 /\
          blank ws1 = true /\ blank ws2 = true) /\
       (forall c r, text sg = c :: r -> isspace c = false) /\
       (forall r c, text sg = r ++ [c] -> isspace c = false))
    (parse_speechtypes_text
       (of_string "{A} " ++ [233; 10; 12354; 32]%N ++ of_string "{B}"))
    [32 :: 233 :: 10 :: 12354 :: [32]]%N.
Proof.
  exact (parse_text_verbatim
           (of_string "{A} " ++ [233; 10; 12354; 32]%N ++ of_string "{B}")
           [] [(of_string "A", [32; 233; 10; 12354; 32]%N); (of_string "B", [])]
           eq_refl eq_refl).
Defined.

End ParserFacts.

(** ** Multi-style synthesis *)

Module MultistyleFacts.
Import Py Parser Multistyle PyFacts.

Lemma od_get_set_same k e d : od_get k (od_set k e d) = Some e.
Proof.
  induction d as [|[k' e'] d IH]; simpl.
  - rewrite str_eqb_refl. reflexivity.
  - destruct (str_eqb k' k) eqn:E; simpl.
    + rewrite str_eqb_refl. reflexivity.
    + rewrite E. exact IH.
Qed.

Lemma od_get_set_other k k' e d :
  k <> k' -> od_get k' (od_set k e d) = od_get k' d.
Proof.
  intros Hne. induction d as [|[k0 e0] d IH]; simpl.
  - apply str_eqb_neq in Hne. rewrite Hne. reflexivity.
  - destruct (str_eqb k0 k) eqn:E; simpl.
    + apply str_eqb_eq in E. subst k0. apply str_eqb_neq in Hne.
      rewrite Hne. reflexivity.
    + destruct (str_eqb k0 k'); [reflexivity | exact IH].
Qed.

Lemma od_mem_get k d : od_mem k d = true -> exists e, od_get k d = Some e.
Proof.
  unfold od_mem. destruct (od_get k d) as [e|]; [|discriminate].
  intros _. exists e. reflexivity.
Qed.

Lemma od_mem_set k k' e d :
  od_mem k' d = true -> od_mem k' (od_set k e d) = true.
Proof.
  unfold od_mem. destruct (list_eq_dec N.eq_dec k k') as [->|Hne].
  - rewrite od_get_set_same. reflexivity.
  - rewrite (od_get_set_other _ _ _ _ Hne). auto.
Qed.

Lemma od_mem_set_same k e d : od_mem k (od_set k e d) = true.
Proof. unfold od_mem. rewrite od_get_set_same. reflexivity. Qed.

Lemma collect_step_keeps st row k :
  od_mem k (fst st) = true -> od_mem k (fst (collect_step st row)) = true.
Proof.
  destruct st as [d n], row as [name [aud rt]]. simpl.
  destruct name as [name|]; [|apply od_mem_set].
  destruct (truthy name && widget_truthy aud); apply od_mem_set.
Qed.

Lemma collect_keeps rows : forall st k,
  od_mem k (fst st) = true ->
  od_mem k (fst (fold_left collect_step rows st)) = true.
Proof.
  induction rows as [|row rows IH]; intros st k H; simpl.
  - exact H.
  - apply IH, collect_step_keeps, H.
Qed.

(** A row that has a name and an audio puts its name among the keys of the
    dictionary. *)
Lemma configured_row_is_key (names audios ref_texts : list widget)
    i name aud rt :
  nth_error (combine names (combine audios ref_texts)) i
  = Some (Some name, (aud, rt)) ->
  truthy name = true -> widget_truthy aud = true ->
  od_mem name (collect_speech_types names audios ref_texts) = true.
Proof.
  unfold collect_speech_types.
  generalize (combine names (combine audios ref_texts)) as rows.
  generalize (@nil (str * entry), 0) as st.
  intros st rows. revert st i.
  induction rows as [|row rows IH]; intros st i Hi Hn Ha.
  - destruct i; discriminate.
  - destruct i as [|i]; simpl in Hi.
    + injection Hi as ->. cbn [fold_left]. apply collect_keeps.
      destruct st as [d n]. unfold collect_step. cbv beta iota zeta.
      rewrite Hn, Ha.
      apply od_mem_set_same.
    + simpl. exact (IH _ i Hi Hn Ha).
Qed.

Section Generate.

Variables (wave ext World : Type).
Variable infer :
  widget -> widget -> str -> bool -> World ->
  World * result ext (N * wave * str).
Variable concatenate : list wave -> wave.

Lemma ref_text_after_snoc initial key done c :
  ref_text_after initial key (done ++ [c]) =
  if str_eqb (c_style c) key then
    match c_ref_text_out c with
    | Some r => Some r
    | None => ref_text_after initial key done
    end
  else ref_text_after initial key done.
Proof.
  revert initial. induction done as [|c0 done IH]; intros initial; simpl.
  - reflexivity.
  - apply IH.
Qed.

Lemma tracks_mem d0 (st : state wave World) k :
  tracks d0 st -> od_mem k (speech_types st) = od_mem k d0.
Proof.
  intros H. specialize (H k). unfold od_mem.
  destruct (od_get k d0) as [e0|].
  - destruct H as [e [-> _]]. reflexivity.
  - rewrite H. reflexivity.
Qed.

(** A round either finds no entry to read, which happens only when the
    segment's style is no key and the key "Regular" is missing too, or
    calls [infer] once, as [routed] says. *)
Lemma segment_step_spec d0 rs (st : state wave World) sg :
  tracks d0 st ->
  (segment_step infer rs st sg = (st, Some (KeyError Regular)) /\
   od_mem (style sg) d0 = false /\ od_mem Regular d0 = false) \/
  (exists st' oe c,
     segment_step infer rs st sg = (st', oe) /\
     calls st' = calls st ++ [c] /\
     routed d0 (calls st) sg c /\
     tracks d0 st' /\
     (forall k, oe <> Some (KeyError k))).
Proof.
  intros Htr. unfold segment_step.
  set (key := route (speech_types st) (style sg)).
  assert (Hkey : key = if od_mem (style sg) d0 then style sg else Regular).
  { unfold key, route. rewrite (tracks_mem _ _ _ Htr). reflexivity. }
  pose proof (Htr key) as Hk.
  destruct (od_get key d0) as [e0|] eqn:He0.
  2:{ left. rewrite Hk.
      destruct (od_mem (style sg) d0) eqn:E.
      - exfalso. rewrite Hkey in He0. unfold od_mem in E.
        rewrite He0 in E. discriminate.
      - rewrite Hkey in He0 |- *. split; [reflexivity|].
        split; [reflexivity|]. unfold od_mem. rewrite He0. reflexivity. }
  right. destruct Hk as [e [He [Haud Hrt]]]. rewrite He.
  assert (Hrouted : forall out,
            routed d0 (calls st) sg
              (Call key (audio e) (ref_text e) (text sg) out)).
  { intros out. unfold routed. simpl. split; [reflexivity|].
    split; [|split].
    - intros E. rewrite Hkey, E. reflexivity.
    - intros E. rewrite Hkey, E. reflexivity.
    - exists e0. auto. }
  destruct (infer (audio e) (ref_text e) (text sg) rs (world st))
    as [w [[[sr' data] out]|x]] eqn:Hinf.
  - eexists _, _, _. split; [reflexivity|]. simpl.
    split; [reflexivity|]. split; [apply Hrouted|].
    split; [|intros k; discriminate].
    intros k. simpl. specialize (Htr k).
    destruct (list_eq_dec N.eq_dec key k) as [<-|Hne].
    + rewrite He0. rewrite od_get_set_same. eexists. split; [reflexivity|].
      simpl. split; [exact Haud|].
      rewrite ref_text_after_snoc. simpl. rewrite str_eqb_refl. reflexivity.
    + rewrite (od_get_set_other _ _ _ _ Hne).
      destruct (od_get k d0) as [ek|]; [|exact Htr].
      destruct Htr as [e' [He' [Ha' Hr']]]. exists e'.
      split; [exact He'|]. split; [exact Ha'|].
      rewrite ref_text_after_snoc. simpl.
      apply str_eqb_neq in Hne. rewrite Hne. exact Hr'.
  - eexists _, _, _. split; [reflexivity|]. simpl.
    split; [reflexivity|]. split; [apply Hrouted|].
    split; [|intros k; discriminate].
    intros k. simpl. specialize (Htr k).
    destruct (od_get k d0) as [ek|]; [|exact Htr].
    destruct Htr as [e' [He' [Ha' Hr']]]. exists e'.
    split; [exact He'|]. split; [exact Ha'|].
    rewrite ref_text_after_snoc. simpl.
    destruct (str_eqb key k); exact Hr'.
Qed.

Lemma for_each_segments d0 rs segs : forall (st st' : state wave World) oe,
  tracks d0 st ->
  for_each (segment_step infer rs) segs st = (st', oe) ->
  exists new,
    calls st' = calls st ++ new /\
    length new <= length segs /\
    (oe = None -> length new = length segs) /\
    (forall k, oe = Some (KeyError k) ->
       k = Regular /\ od_mem Regular d0 = false) /\
    (forall i sg c,
       nth_error segs i = Some sg -> nth_error new i = Some c ->
       routed d0 (calls st ++ firstn i new) sg c).
Proof.
  induction segs as [|sg segs IH]; intros st st' oe Htr Hrun; simpl in Hrun.
  - injection Hrun as <- <-. exists []. rewrite app_nil_r. simpl.
    split; [reflexivity|]. split; [lia|]. split; [reflexivity|].
    split; [discriminate|]. intros [|i] sg c H; discriminate.
  - destruct (segment_step_spec d0 rs st sg Htr)
      as [[Hstep [_ Hreg]] | [st1 [oe1 [c [Hstep [Hcalls [Hrt [Htr1 Hke]]]]]]]];
      rewrite Hstep in Hrun.
    + injection Hrun as <- <-. exists []. rewrite app_nil_r. simpl.
      split; [reflexivity|]. split; [lia|]. split; [discriminate|].
      split; [intros k E; injection E as <-; split; [reflexivity | exact Hreg]|].
      intros [|i] sg' c' _ H; discriminate.
    + destruct oe1 as [e|].
      * injection Hrun as <- <-. exists [c]. simpl.
        split; [exact Hcalls|]. split; [lia|]. split; [discriminate|].
        split; [intros k E; exfalso; exact (Hke k E)|].
        intros [|i] sg' c' Hs Hc; simpl in *.
        -- injection Hs as <-. injection Hc as <-. rewrite app_nil_r.
           exact Hrt.
        -- destruct i; discriminate.
      * destruct (IH _ _ _ Htr1 Hrun) as [new [Hc' [Hlen [Hall [Hk Hr]]]]].
        exists (c :: new). rewrite Hc', Hcalls, <- app_assoc. simpl.
        split; [reflexivity|]. split; [lia|].
        split; [intros E; rewrite (Hall E); reflexivity|].
        split; [exact Hk|].
        intros [|i] sg' c' Hs Hc; simpl in *.
        -- injection Hs as <-. injection Hc as <-. rewrite app_nil_r.
           exact Hrt.
        -- specialize (Hr i sg' c' Hs Hc).
           rewrite Hcalls, <- app_assoc in Hr. exact Hr.
Qed.

Lemma tracks_initial d0 (w : World) :
  tracks d0 (State (wave := wave) d0 [] None w []).
Proof.
  intros k. simpl. destruct (od_get k d0) as [e0|] eqn:E; [|reflexivity].
  exists e0. auto.
Qed.

(** Without an entry "Regular" the fallback has nothing to read: the
    lookup of the key "Regular" raises. *)
Lemma segment_step_no_regular rs (st : state wave World) sg :
  od_mem (style sg) (speech_types st) = false ->
  od_mem Regular (speech_types st) = false ->
  segment_step infer rs st sg = (st, Some (KeyError Regular)).
Proof.
  intros Hs Hr. unfold segment_step, route. rewrite Hs.
  unfold od_mem in Hr. destruct (od_get Regular (speech_types st));
    [discriminate | reflexivity].
Qed.

(** What one round does besides choosing the entry: it makes no call when
    the lookup raises, and otherwise calls [infer] once on the world it
    found, keeps the world the call leaves, and appends the audio the call
    returns. *)
Lemma segment_step_effect rs (st st' : state wave World) sg oe :
  segment_step infer rs st sg = (st', oe) ->
  (st' = st /\ exists k, oe = Some (KeyError k)) \/
  (exists c,
     calls st' = calls st ++ [c] /\
     world st' =
     fst (infer (c_ref_audio c) (c_ref_text c) (c_gen_text c) rs (world st)) /\
     match snd (infer (c_ref_audio c) (c_ref_text c) (c_gen_text c) rs
                  (world st)) with
     | Ok (sr', audio_data, ref_text_out) =>
         c_ref_text_out c = Some ref_text_out /\
         generated_audio_segments st' =
         generated_audio_segments st ++ [audio_data] /\
         sr st' = Some sr' /\ oe = None
     | Raise x =>
         c_ref_text_out c = None /\
         generated_audio_segments st' = generated_audio_segments st /\
         oe = Some (Raised x)
     end).
Proof.
  unfold segment_step.
  destruct (od_get (route (speech_types st) (style sg)) (speech_types st))
    as [e|].
  2:{ intros H. injection H as <- <-. left. split; [reflexivity|].
      eexists. reflexivity. }
  destruct (infer (audio e) (ref_text e) (text sg) rs (world st))
    as [w1 [[[sr' data] out]|x]] eqn:Hinf;
    intros H; injection H as <- <-; right.
  - exists (Call (route (speech_types st) (style sg)) (audio e) (ref_text e)
              (text sg) (Some out)).
    cbn [calls world generated_audio_segments sr c_ref_audio c_ref_text
         c_gen_text c_ref_text_out].
    rewrite Hinf. cbn [fst snd]. repeat split.
  - exists (Call (route (speech_types st) (style sg)) (audio e) (ref_text e)
              (text sg) None).
    cbn [calls world generated_audio_segments sr c_ref_audio c_ref_text
         c_gen_text c_ref_text_out].
    rewrite Hinf. cbn [fst snd]. repeat split.
Qed.

Lemma world_after_cons rs c (done : list call) (w : World) :
  world_after infer rs (c :: done) w =
  world_after infer rs done
    (fst (infer (c_ref_audio c) (c_ref_text c) (c_gen_text c) rs w)).
Proof. reflexivity. Qed.

Lemma for_each_calls_length rs segs : forall (a b : state wave World),
  for_each (segment_step infer rs) segs a = (b, None) ->
  length (calls b) = length (calls a) + length segs.
Proof.
  induction segs as [|s0 segs IH]; intros a b H; simpl in H.
  - injection H as <-. simpl. lia.
  - destruct (segment_step infer rs a s0) as [a1 o1] eqn:Hs.
    destruct (segment_step_effect rs a a1 s0 o1 Hs)
      as [[-> [k ->]] | [c [Hc [_ Hres]]]]; [discriminate|].
    destruct o1 as [e1|]; [discriminate|].
    rewrite (IH a1 b H), Hc, length_app. simpl. lia.
Qed.

(** The calls a run of rounds logs are calls of [infer], each made on the
    world the one before left; the audio of every call that returned is
    kept, in order; a call that raised is the last. *)
Lemma for_each_effects rs segs : forall (st st' : state wave World) oe,
  for_each (segment_step infer rs) segs st = (st', oe) ->
  exists new waves,
    calls st' = calls st ++ new /\
    generated_audio_segments st' = generated_audio_segments st ++ waves /\
    world st' = world_after infer rs new (world st) /\
    (forall i c,
       nth_error new i = Some c ->
       match snd (infer (c_ref_audio c) (c_ref_text c) (c_gen_text c) rs
                    (world_after infer rs (firstn i new) (world st))) with
       | Ok (sr', audio_data, ref_text_out) =>
           c_ref_text_out c = Some ref_text_out /\
           nth_error waves i = Some audio_data
       | Raise x =>
           c_ref_text_out c = None /\ S i = length new /\
           oe = Some (Raised x)
       end) /\
    (oe = None -> length waves = length new /\
                  (new <> [] -> sr st' <> None)) /\
    (forall x, oe = Some (Raised x) -> new <> []) /\
    (forall k, oe = Some (KeyError k) -> length waves = length new).
Proof.
  induction segs as [|sg segs IH]; intros st st' oe Hrun; simpl in Hrun.
  - injection Hrun as <- <-. exists [], []. rewrite !app_nil_r.
    repeat split; try discriminate; try congruence.
    intros [|i] c H; discriminate.
  - destruct (segment_step infer rs st sg) as [st1 oe1] eqn:Hstep.
    destruct (segment_step_effect rs st st1 sg oe1 Hstep)
      as [[-> [k ->]] | [c [Hc [Hw Hres]]]].
    + injection Hrun as <- <-. exists [], []. rewrite !app_nil_r.
      repeat split; try discriminate.
      intros [|i] c H; discriminate.
    + destruct (snd (infer (c_ref_audio c) (c_ref_text c) (c_gen_text c) rs
                       (world st))) as [[[sr' data] out]|x] eqn:Hinf.
      * destruct Hres as [Hout [Hgen [Hsr ->]]].
        destruct (IH st1 st' oe Hrun)
          as [new [waves [Hc' [Hg' [Hw' [Hall [Hnone [Hrs Hke]]]]]]]].
        exists (c :: new), (data :: waves).
        rewrite Hc', Hc, Hg', Hgen, <- !app_assoc. cbn [app].
        split; [reflexivity|]. split; [reflexivity|].
        split; [rewrite Hw', Hw; reflexivity|].
        split; [|split; [|split]].
        -- intros [|i] c0 Hi; cbn [nth_error firstn] in *.
           ++ injection Hi as <-. cbn [world_after fold_left].
              rewrite Hinf. split; [exact Hout | reflexivity].
           ++ rewrite world_after_cons, <- Hw.
              specialize (Hall i c0 Hi).
              destruct (snd (infer (c_ref_audio c0) (c_ref_text c0)
                               (c_gen_text c0) rs
                               (world_after infer rs (firstn i new)
                                  (world st1)))) as [[[s1 d1] o1]|x1].
              ** exact Hall.
              ** destruct Hall as [H1 [H2 H3]].
                 split; [exact H1|]. split; [|exact H3].
                 cbn [length]. rewrite H2. reflexivity.
        -- intros E. destruct (Hnone E) as [Hl Hs]. cbn [length].
           split; [rewrite Hl; reflexivity|].
           intros _. destruct new as [|c1 new1].
           ++ destruct segs as [|sg1 segs1].
              ** simpl in Hrun. injection Hrun as <- _. rewrite Hsr.
                 discriminate.
              ** exfalso. rewrite app_nil_r in Hc'. subst oe.
                 apply for_each_calls_length in Hrun.
                 rewrite Hc' in Hrun. simpl in Hrun. lia.
           ++ apply Hs. discriminate.
        -- intros x _. discriminate.
        -- intros k E. cbn [length]. rewrite (Hke k E). reflexivity.
      * destruct Hres as [Hout [Hgen ->]].
        injection Hrun as <- <-. exists [c], [].
        rewrite Hc, Hgen, app_nil_r.
        split; [reflexivity|]. split; [reflexivity|].
        split; [rewrite Hw; reflexivity|].
        split; [|split; [|split]].
        -- intros [|i] c0 Hi; cbn [nth_error] in Hi.
           ++ injection Hi as <-. cbn [firstn world_after fold_left].
              rewrite Hinf. split; [exact Hout|]. split; reflexivity.
           ++ destruct i; discriminate.
        -- discriminate.
        -- intros x0 _. discriminate.
        -- discriminate.
Qed.

(** C6: the run of [generate_multistyle_speech] goes through the parsed
    segments in order and, for each, reads one entry of the collected
    speech types: the entry under the segment's own style when the speech
    types have that key, the entry "Regular" when they have not.  When the
    entry is there, [infer] is called on the world the call before left,
    with the segment's text, the audio collected for the entry and the
    reference text the entry holds then (the collected one until a call
    under that entry returns, and the text that call gave back after), and
    the audio the call returns is kept as the segment's.  The run returns
    only after a call for every segment.  It stops before that, with no
    call for the segment nor for those after it, at a segment whose style
    is no key when the key "Regular" is missing, with the [KeyError] of
    "Regular", and after a call of [infer] that raises. *)
Theorem multistyle_fallback_regular gen_text names audios ref_texts rs w :
  let d0 := collect_speech_types names audios ref_texts in
  let segs := parse_speechtypes_text gen_text in
  let run :=
    generate_multistyle_speech infer concatenate gen_text names audios
      ref_texts rs w in
  let done := calls (fst run) in
  length done <= length segs /\
  world (fst run) = world_after infer rs done w /\
  (forall i sg c,
     nth_error segs i = Some sg -> nth_error done i = Some c ->
     c_gen_text c = text sg /\
     (od_mem (style sg) d0 = true -> c_style c = style sg) /\
     (od_mem (style sg) d0 = false -> c_style c = Regular) /\
     (exists e0, od_get (c_style c) d0 = Some e0 /\
        c_ref_audio c = audio e0 /\
        c_ref_text c =
        ref_text_after (ref_text e0) (c_style c) (firstn i done)) /\
     match snd (infer (c_ref_audio c) (c_ref_text c) (text sg) rs
                  (world_after infer rs (firstn i done) w)) with
     | Ok (sr', audio_data, ref_text_out) =>
         c_ref_text_out c = Some ref_text_out /\
         nth_error (generated_audio_segments (fst run)) i = Some audio_data
     | Raise x =>
         c_ref_text_out c = None /\ S i = length done /\
         snd run = Raise (Raised x)
     end) /\
  (forall out, snd run = Ok out ->
     length done = length segs /\
     length (generated_audio_segments (fst run)) = length segs /\
     (segs = [] -> fst out = None) /\
     (segs <> [] ->
      exists r,
        fst out = Some (r, concatenate (generated_audio_segments (fst run))))) /\
  (forall k, snd run = Raise (KeyError k) ->
     k = Regular /\ od_mem Regular d0 = false /\
     length (generated_audio_segments (fst run)) = length done /\
     exists sg, nth_error segs (length done) = Some sg /\
                od_mem (style sg) d0 = false) /\
  (forall x, snd run = Raise (Raised x) -> done <> []) /\
  (od_mem Regular d0 = true -> forall k, snd run <> Raise (KeyError k)).
Proof.
  intros d0 segs run done. subst done run.
  unfold generate_multistyle_speech. fold d0. fold segs.
  unfold synthesize_segments.
  destruct (for_each (segment_step infer rs) segs (State d0 [] None w []))
    as [st oe] eqn:Hrun.
  destruct (for_each_segments d0 rs segs _ _ _ (tracks_initial d0 w) Hrun)
    as [new [Hcalls [Hlen [Hall [Hk Hr]]]]].
  destruct (for_each_effects rs segs _ _ _ Hrun)
    as [new' [waves [Hcalls' [Hgen [Hw [Heff [Hnone [Hrs Hke]]]]]]]].
  cbn [calls generated_audio_segments world app] in Hcalls, Hcalls', Hgen, Hw,
    Heff, Hr.
  subst new. rewrite Hcalls' in *. subst waves.
  assert (Hst : fst (match oe with
                     | Some e => (st, Raise e)
                     | None => (st, Ok (outputs concatenate st))
                     end) = st)
    by (destruct oe; reflexivity).
  rewrite Hst, Hcalls'.
  assert (Hstop : forall k, oe = Some (KeyError k) ->
            exists sg, nth_error segs (length new') = Some sg /\
                       od_mem (style sg) d0 = false).
  { clear - Hrun Hcalls'. intros k E. subst oe.
    assert (G : forall segs (a b : state wave World),
              tracks d0 a ->
              for_each (segment_step infer rs) segs a = (b, Some (KeyError k)) ->
              exists sg,
                nth_error segs (length (calls b) - length (calls a)) = Some sg /\
                od_mem (style sg) d0 = false).
    { clear. induction segs as [|s0 segs IH]; intros a b Htr H; simpl in H;
        [discriminate|].
      destruct (segment_step_spec d0 rs a s0 Htr)
        as [[Hstep [Hs _]] | [a1 [o1 [c [Hstep [Hc [_ [Htr1 Hke]]]]]]]];
        rewrite Hstep in H.
      - injection H as <-. exists s0. rewrite Nat.sub_diag. split;
          [reflexivity | exact Hs].
      - destruct o1 as [e1|].
        + injection H as <- ->. exfalso. exact (Hke k eq_refl).
        + destruct (IH a1 b Htr1 H) as [sg [Hn Hs]]. exists sg.
          split; [|exact Hs].
          assert (Hge : length (calls a1) <= length (calls b)).
          { destruct (for_each_effects rs segs a1 b _ H)
              as [n1 [_ [E1 _]]]. rewrite E1, length_app. lia. }
          rewrite Hc, length_app in Hn, Hge. simpl in Hn, Hge.
          replace (length (calls b) - length (calls a))
            with (S (length (calls b) - (length (calls a) + 1))) by lia.
          exact Hn. }
    destruct (G segs _ _ (tracks_initial d0 w) Hrun) as [sg [Hn Hs]].
    cbn [calls length] in Hn. rewrite Nat.sub_0_r, Hcalls' in Hn.
    exists sg. split; assumption. }
  split; [exact Hlen|]. split; [exact Hw|].
  split; [|split; [|split; [|split]]].
  - intros i sg c Hs Hc.
    destruct (Hr i sg c Hs Hc) as [Ht [H1 [H2 H3]]].
    split; [exact Ht|]. split; [exact H1|]. split; [exact H2|].
    split; [exact H3|].
    specialize (Heff i c Hc). rewrite Ht in Heff.
    destruct (snd (infer (c_ref_audio c) (c_ref_text c) (text sg) rs
                     (world_after infer rs (firstn i new') w)))
      as [[[s1 d1] o1]|x1].
    + exact Heff.
    + destruct Heff as [E1 [E2 E3]]. split; [exact E1|].
      split; [exact E2|]. subst oe. reflexivity.
  - intros out Hout. destruct oe as [e|]; [discriminate|].
    injection Hout as <-.
    destruct (Hnone eq_refl) as [Hl Hsr]. specialize (Hall eq_refl).
    split; [exact Hall|]. split; [rewrite Hl; exact Hall|].
    unfold outputs. cbn [fst]. split.
    + intros E. rewrite E in Hall. simpl in Hall.
      destruct (generated_audio_segments st); [reflexivity|].
      simpl in Hl. lia.
    + intros Hne.
      assert (Hn' : new' <> []).
      { intros E. rewrite E in Hall. destruct segs; [congruence|].
        discriminate. }
      destruct (generated_audio_segments st) as [|a l] eqn:Eg.
      { destruct new'; [congruence | discriminate]. }
      destruct (sr st) as [r|]; [|exfalso; exact (Hsr Hn' eq_refl)].
      exists r. reflexivity.
  - intros k E. destruct oe as [e|]; [|discriminate]. injection E as ->.
    destruct (Hk k eq_refl) as [-> Hreg].
    split; [reflexivity|]. split; [exact Hreg|].
    split; [exact (Hke _ eq_refl)|]. exact (Hstop _ eq_refl).
  - intros x E. destruct oe as [e|]; [|discriminate]. injection E as ->.
    exact (Hrs x eq_refl).
  - intros Hreg k E. destruct oe as [e|]; [|discriminate]. injection E as ->.
    destruct (Hk k eq_refl) as [_ H]. rewrite H in Hreg. discriminate.
Qed.

End Generate.

(** One configured speech type, "Regular", and a text whose first
    segment asks for the style "Sad", which no row configures: the call
    for it is the first call of [infer], made with the entry "Regular",
    and its audio is kept. *)
Lemma multistyle_fallback_regular_witness :
  let names := [Some (of_string "Regular"); None] in
  let audios := [Some (of_string "r.wav"); None] in
  let ref_texts := [Some (of_string "hello"); None] in
  let d0 := collect_speech_types names audios ref_texts in
  let run :=
    generate_multistyle_speech Demo.infer_count (@concat char)
      (of_string "{Sad} a {Regular} b") names audios ref_texts true 0 in
  let c := Call Regular (Some (of_string "r.wav")) (Some (of_string "hello"))
             (of_string "a") (Some (of_string "heard")) in
  c_gen_text c = of_string "a" /\
  (od_mem (of_string "Sad") d0 = true -> c_style c = of_string "Sad") /\
  (od_mem (of_string "Sad") d0 = false -> c_style c = Regular) /\
  (exists e0, od_get (c_style c) d0 = Some e0 /\
     c_ref_audio c = audio e0 /\ c_ref_text c = ref_text e0) /\
  c_ref_text_out c = Some (of_string "heard") /\
  nth_error (generated_audio_segments (fst run)) 0 = Some (of_string "a").
Proof.
  exact (proj1 (proj2 (proj2
    (multistyle_fallback_regular (list char) unit nat Demo.infer_count
       (@concat char) (of_string "{Sad} a {Regular} b")
       [Some (of_string "Regular"); None]
       [Some (of_string "r.wav"); None]
       [Some (of_string "hello"); None] true 0))) 0
    (Segment (of_string "Sad") (of_string "a"))
    (Call Regular (Some (of_string "r.wav")) (Some (of_string "hello"))
       (of_string "a") (Some (of_string "heard")))
    eq_refl eq_refl).
Defined.

(** C6 as the specification words it fails on the page as it opens, the
    regular row named "Regular" with no audio yet: its key is the
    placeholder of its place, the style "Sad" of the segment is no key,
    and the fallback finds no entry "Regular"; the lookup raises and the
    segment is not synthesized. *)
Lemma multistyle_fallback_regular_counterexample :
  let names := [Some (of_string "Regular")] in
  let audios := [@None str] in
  let ref_texts := [@None str] in
  let d0 := collect_speech_types names audios ref_texts in
  let run :=
    generate_multistyle_speech Demo.infer_count (@concat char)
      (of_string "{Sad} a") names audios ref_texts false 0 in
  parse_speechtypes_text (of_string "{Sad} a")
  = [Segment (of_string "Sad") (of_string "a")] /\
  d0 = [(of_string "@0@", Entry (Some []) (Some []))] /\
  od_mem (of_string "Sad") d0 = false /\
  snd run = Raise (KeyError Regular) /\
  calls (fst run) = [] /\
  generated_audio_segments (fst run) = [] /\
  world (fst run) = 0.
Proof.
  cbv zeta. vm_compute. repeat split.
Qed.

End MultistyleFacts.

(** ** Batch chapter synthesis *)

Module BatchFacts.
Import Py Batch PyFacts.

Lemma fold_left_snoc_map {A B : Type} (f : A -> B) (l : list A) (acc : list B) :
  fold_left (fun acc x => acc ++ [f x]) l acc = acc ++ map f l.
Proof.
  revert acc. induction l as [|x l IH]; intros acc; simpl.
  - rewrite app_nil_r. reflexivity.
  - rewrite IH, <- app_assoc. reflexivity.
Qed.

Section Json.

Variables (pyfloat ext : Type).
Variable float_truthy : pyfloat -> bool.
Variable ext_str : ext -> str.
Variable str_other : json pyfloat -> str.
Variable json_load : str -> result ext (json pyfloat).

Lemma loaded_notice_encodable title :
  encodable (loaded_notice title) = encodable (firstn 20 title).
Proof.
  unfold loaded_notice.
  rewrite encodable_literal_app, encodable_app, encodable_of_string.
  apply andb_true_r.
Qed.

Lemma no_attribute_encodable (type attr : string) :
  encodable (exc_str ext_str (no_attribute type attr)) = true.
Proof.
  unfold no_attribute, exc_str.
  rewrite !encodable_app, !encodable_of_string. reflexivity.
Qed.

Lemma load_step_eq (chapter_list : list str) (item : str * json pyfloat) :
  load_step (ext := ext) str_other chapter_list item =
  (chapter_list ++ [paragraph str_other item],
   if encodable (firstn 20 (fst item)) then None
   else Some (UnicodeEncodeError (encode_error_of (loaded_notice (fst item))))).
Proof.
  unfold load_step, print. rewrite loaded_notice_encodable.
  destruct (encodable (firstn 20 (fst item))); reflexivity.
Qed.

(** The loop over the chapters appends a paragraph for every chapter up
    to and including the first one whose title cannot be printed. *)
Lemma for_each_load_step (items : list (str * json pyfloat)) :
  forall chapter_list : list str,
  (Forall (fun item => encodable (firstn 20 (fst item)) = true) items /\
   for_each (load_step (ext := ext) str_other) items chapter_list =
   (chapter_list ++ map (paragraph str_other) items, None)) \/
  (exists good bad rest,
     items = good ++ bad :: rest /\
     Forall (fun item => encodable (firstn 20 (fst item)) = true) good /\
     encodable (firstn 20 (fst bad)) = false /\
     for_each (load_step (ext := ext) str_other) items chapter_list =
     (chapter_list ++ map (paragraph str_other) (good ++ [bad]),
      Some (UnicodeEncodeError (encode_error_of (loaded_notice (fst bad)))))).
Proof.
  induction items as [|item items IH]; intros chapter_list.
  - left. split; [constructor|]. simpl. rewrite app_nil_r. reflexivity.
  - cbn [for_each]. rewrite load_step_eq.
    destruct (encodable (firstn 20 (fst item))) eqn:He.
    + destruct (IH (chapter_list ++ [paragraph str_other item]))
        as [[Hall ->] | [good [bad [rest [-> [Hgood [Hbad ->]]]]]]].
      * left. split; [constructor; assumption|].
        rewrite <- app_assoc. reflexivity.
      * right. exists (item :: good), bad, rest.
        split; [reflexivity|]. split; [constructor; assumption|].
        split; [exact Hbad|]. rewrite <- app_assoc. reflexivity.
    + right. exists [], item, items. split; [reflexivity|].
      split; [constructor|]. split; [exact He|]. reflexivity.
Qed.

(** What the handler of the [try] makes of an exception. *)
Lemma process_json_file_caught json_file chapter_list l e :
  process_json_body float_truthy str_other json_load json_file [] =
  (l, Raise e) ->
  process_json_file float_truthy ext_str str_other json_load json_file
    chapter_list =
  (l, if encodable (exc_str ext_str e)
      then Ok (of_string "Error: " ++ exc_str ext_str e)
      else Raise (encode_error_of
                    (of_string "Error processing JSON file: "
                     ++ exc_str ext_str e))).
Proof.
  intros H. unfold process_json_file. rewrite H. unfold print.
  rewrite encodable_literal_app.
  destruct (encodable (exc_str ext_str e)); reflexivity.
Qed.

Lemma process_json_file_returned json_file chapter_list l out :
  process_json_body float_truthy str_other json_load json_file [] =
  (l, Ok out) ->
  process_json_file float_truthy ext_str str_other json_load json_file
    chapter_list = (l, Ok out).
Proof. intros H. unfold process_json_file. rewrite H. reflexivity. Qed.

(** The body of the [try] up to the chapters, for a file that can be
    read. *)
Lemma process_json_body_chapters name data chapters l :
  encodable name = true -> json_load name = Ok data ->
  get_chapters (ext := ext) data = Ok chapters ->
  process_json_body float_truthy str_other json_load (Some name) l =
  if negb (json_truthy float_truthy chapters) then
    (l, Ok (of_string "Error: No chapters found."))
  else
    match dict_items chapters with
    | Raise e => (l, Raise e)
    | Ok items =>
        match for_each (load_step str_other) items l with
        | (chapter_list, Some e) => (chapter_list, Raise e)
        | (chapter_list, None) =>
            (chapter_list, Ok (join [newline] chapter_list))
        end
    end.
Proof.
  intros Hn Hl Hg. unfold process_json_body.
  rewrite print_ok by (rewrite encodable_literal_app; exact Hn).
  rewrite Hl, Hg. reflexivity.
Qed.


End Json.



Section Synthesize.

Variables (wave ext World inputs : Type).
Variable ext_str : ext -> str.
Variable infer :
  widget -> str -> str -> inputs -> World -> World * result ext (N * wave).
Variable sf_write : str -> wave -> N -> World -> World * result ext unit.
Variable os_path_join : str -> str -> str.
Variable cwd : str.

Lemma announce_encodable idx total chapter_text :
  encodable (announce idx total chapter_text) =
  encodable (firstn 50 chapter_text).
Proof.
  unfold announce.
  rewrite !encodable_app, !encodable_of_string, !encodable_decimal.
  apply andb_true_r.
Qed.

Lemma error_notice_encodable idx (e : exc ext) :
  encodable (error_notice ext_str idx e) = encodable (exc_str ext_str e).
Proof.
  unfold error_notice.
  rewrite !encodable_app, !encodable_of_string, !encodable_decimal.
  reflexivity.
Qed.

Lemma written_paths_app (l1 l2 : list (visit wave ext World)) :
  written_paths (l1 ++ l2) = written_paths l1 ++ written_paths l2.
Proof. unfold written_paths. apply flat_map_app. Qed.

Lemma world_after_app ra rt args (l1 l2 : list (visit wave ext World)) w :
  world_after infer sf_write os_path_join cwd ra rt args (l1 ++ l2) w =
  world_after infer sf_write os_path_join cwd ra rt args l2
    (world_after infer sf_write os_path_join cwd ra rt args l1 w).
Proof. unfold world_after. apply fold_left_app. Qed.

(** One round: it ends the run before its [try] when the start of the
    chapter cannot be printed; otherwise it adds one visit to the log,
    with the world and the outcome the collaborators give, and the path of
    the file when it was written, and ends the run when what was caught
    cannot be printed. *)
Lemma chapter_step_effect ra rt args total (st : state wave ext World)
    idx chapter_text :
  let step := chapter_step ext_str infer sf_write os_path_join cwd ra rt args
                total st (idx, chapter_text) in
  let round := round_of infer sf_write os_path_join cwd ra rt args idx
                 chapter_text (world st) in
  let v := Visit idx chapter_text (world st) (snd round) in
  if encodable (firstn 50 chapter_text) then
    log (fst step) = log st ++ [v] /\
    world (fst step) = fst round /\
    file_paths (fst step) = file_paths st ++ written_paths [v] /\
    (if went_on ext_str v then snd step = None
     else exists u, snd step = Some u)
  else
    step = (st, Some (encode_error_of (announce idx total chapter_text))).
Proof.
  cbv zeta. unfold chapter_step, round_of.
  destruct (encodable (firstn 50 chapter_text)) eqn:Hc.
  2:{ rewrite print_raise by (rewrite announce_encodable; exact Hc).
      reflexivity. }
  rewrite print_ok by (rewrite announce_encodable; exact Hc).
  assert (Hnotice : forall e : exc ext,
            if encodable (error_notice ext_str idx e)
            then match print (error_notice ext_str idx e) with
                 | Raise u => Some u
                 | Ok _ => None
                 end = None
            else exists u, match print (error_notice ext_str idx e) with
                           | Raise u => Some u
                           | Ok _ => None
                           end = Some u).
  { intros e. unfold print.
    destruct (encodable (error_notice ext_str idx e));
      [reflexivity | eexists; reflexivity]. }
  destruct (infer ra rt chapter_text args (world st)) as [w1 [[rate data]|x]].
  - destruct (encodable
                (os_path_join (output_dir os_path_join cwd) (file_name idx)))
      eqn:Hp.
    + rewrite print_ok by (rewrite encodable_literal_app; exact Hp).
      destruct (sf_write _ data rate w1) as [w2 [u|x]];
        cbn [fst snd log world file_paths written_paths flat_map v_outcome];
        rewrite ?app_nil_r.
      * repeat split.
      * split; [reflexivity|]. split; [reflexivity|].
        split; [reflexivity|].
        unfold went_on. cbn [v_outcome caught v_idx].
        exact (Hnotice (Raised x)).
    + rewrite print_raise by (rewrite encodable_literal_app; exact Hp).
      cbn [fst snd log world file_paths written_paths flat_map v_outcome].
      rewrite ?app_nil_r.
      split; [reflexivity|]. split; [reflexivity|]. split; [reflexivity|].
      unfold went_on. cbn [v_outcome caught v_idx].
      exact (Hnotice (UnicodeEncodeError _)).
  - cbn [fst snd log world file_paths written_paths flat_map v_outcome].
    rewrite ?app_nil_r.
    split; [reflexivity|]. split; [reflexivity|]. split; [reflexivity|].
    unfold went_on. cbn [v_outcome caught v_idx].
    exact (Hnotice (Raised x)).
Qed.

(** The rounds of a run: the visits logged are those of the first
    chapters, in order, each begun in the world the one before left; the
    run goes on to the end unless the start of a chapter, or what a round
    caught, cannot be printed. *)
Lemma for_each_chapter_step ra rt args total items :
  forall (st st' : state wave ext World) ou,
  for_each (chapter_step ext_str infer sf_write os_path_join cwd ra rt args
              total) items st = (st', ou) ->
  exists new,
    log st' = log st ++ new /\
    world st' =
    world_after infer sf_write os_path_join cwd ra rt args new (world st) /\
    file_paths st' = file_paths st ++ written_paths new /\
    map (fun v => (v_idx v, v_text v)) new = firstn (length new) items /\
    (forall i v,
       nth_error new i = Some v ->
       v_world v =
       world_after infer sf_write os_path_join cwd ra rt args (firstn i new)
         (world st) /\
       v_outcome v =
       snd (round_of infer sf_write os_path_join cwd ra rt args (v_idx v)
              (v_text v) (v_world v)) /\
       encodable (firstn 50 (v_text v)) = true /\
       (S i < length new -> went_on ext_str v = true)) /\
    (ou = None ->
     length new = length items /\ forallb (went_on ext_str) new = true) /\
    (forall u, ou = Some u ->
       (exists item,
          nth_error items (length new) = Some item /\
          encodable (firstn 50 (snd item)) = false /\
          forallb (went_on ext_str) new = true) \/
       (exists v,
          nth_error new (length new - 1) = Some v /\
          went_on ext_str v = false)).
Proof.
  induction items as [|[idx chapter_text] items IH]; intros st st' ou Hrun;
    cbn [for_each] in Hrun.
  - injection Hrun as <- <-. exists []. rewrite !app_nil_r.
    split; [reflexivity|]. split; [reflexivity|].
    split; [reflexivity|]. split; [reflexivity|].
    split; [intros [|i] v H; discriminate|].
    split; [intros _; split; reflexivity|]. discriminate.
  - pose proof (chapter_step_effect ra rt args total st idx chapter_text)
      as Hstep. cbv zeta in Hstep.
    destruct (chapter_step ext_str infer sf_write os_path_join cwd ra rt args
                total st (idx, chapter_text)) as [st1 o1].
    cbn [fst snd] in Hstep.
    destruct (encodable (firstn 50 chapter_text)) eqn:Hc.
    2:{ injection Hstep as -> ->. injection Hrun as <- <-.
        exists []. rewrite !app_nil_r.
        split; [reflexivity|]. split; [reflexivity|].
        split; [reflexivity|]. split; [reflexivity|].
        split; [intros [|i] v H; discriminate|].
        split; [discriminate|].
        intros u _. left. exists (idx, chapter_text).
        split; [reflexivity|]. split; [exact Hc | reflexivity]. }
    set (v := Visit idx chapter_text (world st)
                (snd (round_of infer sf_write os_path_join cwd ra rt args idx
                        chapter_text (world st)))) in *.
    destruct Hstep as [Hl [Hw [Hp Hou]]].
    destruct (went_on ext_str v) eqn:Hgo.
    + subst o1.
      destruct (IH st1 st' ou Hrun)
        as [new [Hl' [Hw' [Hp' [Hm [Hv [Hnone Hsome]]]]]]].
      exists (v :: new).
      rewrite Hl', Hl, Hp', Hp, Hw', Hw, <- !app_assoc.
      split; [reflexivity|]. split; [reflexivity|].
      split; [rewrite <- written_paths_app; reflexivity|].
      split; [cbn [length firstn map]; rewrite Hm; reflexivity|].
      split; [|split].
      * intros [|i] v0 Hi; cbn [nth_error firstn] in *.
        -- injection Hi as <-. cbn [v_world v_outcome v_idx v_text].
           split; [reflexivity|]. split; [reflexivity|].
           split; [exact Hc|]. intros _. exact Hgo.
        -- destruct (Hv i v0 Hi) as [H1 [H2 [H3 H4]]].
           split; [rewrite H1, Hw; reflexivity|].
           split; [exact H2|]. split; [exact H3|].
           intros Hlt. apply H4. cbn [length] in Hlt. lia.
      * intros E. destruct (Hnone E) as [H1 H2]. cbn [length forallb].
        rewrite H1, Hgo, H2. split; reflexivity.
      * intros u E. destruct (Hsome u E)
          as [[item [H1 [H2 H3]]] | [v0 [H1 H2]]].
        -- left. exists item. cbn [length nth_error forallb].
           rewrite Hgo, H3. repeat split; assumption.
        -- right. exists v0. split; [|exact H2].
           destruct new as [|v1 new1]; [simpl in H1; discriminate|].
           cbn [length] in H1 |- *.
           replace (S (S (length new1)) - 1) with (S (S (length new1) - 1))
             by lia.
           cbn [nth_error]. exact H1.
    + destruct Hou as [u ->]. injection Hrun as <- <-.
      exists [v]. rewrite Hl, Hp, Hw.
      split; [reflexivity|]. split; [reflexivity|].
      split; [reflexivity|]. split; [reflexivity|].
      split; [|split].
      * intros [|i] v0 Hi; cbn [nth_error firstn] in *.
        -- injection Hi as <-. cbn [v_world v_outcome v_idx v_text].
           split; [reflexivity|]. split; [reflexivity|].
           split; [exact Hc|]. cbn [length]. lia.
        -- destruct i; discriminate.
      * discriminate.
      * intros u0 _. right. exists v. split; [reflexivity | exact Hgo].
Qed.

Lemma nth_error_enumerate (l : list str) i :
  nth_error (combine (seq 0 (length l)) l) i =
  option_map (fun t => (i, t)) (nth_error l i).
Proof.
  assert (G : forall (l : list str) k i,
            nth_error (combine (seq k (length l)) l) i =
            option_map (fun t => (k + i, t)) (nth_error l i)).
  { clear. induction l as [|t l IH]; intros k i; simpl.
    - destruct i; reflexivity.
    - destruct i as [|i]; simpl.
      + rewrite Nat.add_0_r. reflexivity.
      + rewrite IH. destruct (nth_error l i); simpl; [|reflexivity].
        do 2 f_equal. lia. }
  exact (G l 0 i).
Qed.

(** A run on a chapter list that is not empty, past the two prints of
    the reference audio and text. *)
Lemma batch_rounds ref_audio_input ref_text_input args chapter_list
    (w : World) :
  let run := batch_tts_synthesize ext_str infer sf_write os_path_join cwd
               ref_audio_input ref_text_input args chapter_list w in
  let visits := log (fst run) in
  encodable (format_widget ref_audio_input) && encodable ref_text_input
  = true ->
  chapter_list <> [] ->
  length visits <= length chapter_list /\
  (forall i v,
     nth_error visits i = Some v ->
     v_idx v = i /\ nth_error chapter_list i = Some (v_text v) /\
     encodable (firstn 50 (v_text v)) = true /\
     v_world v =
     world_after infer sf_write os_path_join cwd ref_audio_input
       ref_text_input args (firstn i visits) w /\
     v_outcome v =
     snd (round_of infer sf_write os_path_join cwd ref_audio_input
            ref_text_input args i (v_text v) (v_world v)) /\
     (S i < length visits -> went_on ext_str v = true) /\
     (forall file_path data rate,
        v_outcome v = Written file_path data rate ->
        file_path =
        os_path_join (os_path_join cwd (of_string "generated_audio"))
          (of_string "chapter_" ++ decimal (i + 1) ++ of_string ".wav"))) /\
  world (fst run) =
  world_after infer sf_write os_path_join cwd ref_audio_input ref_text_input
    args visits w /\
  file_paths (fst run) = written_paths visits /\
  (forall out, snd run = Ok out ->
     length visits = length chapter_list /\
     out = join [newline] (written_paths visits)) /\
  (forall u, snd run = Raise u ->
     (exists chapter_text,
        nth_error chapter_list (length visits) = Some chapter_text /\
        encodable (firstn 50 chapter_text) = false) \/
     (exists v,
        nth_error visits (length visits - 1) = Some v /\
        went_on ext_str v = false)) /\
  (Forall (fun chapter_text => encodable (firstn 50 chapter_text) = true)
     chapter_list ->
   (forall x, encodable (ext_str x) = true) ->
   length visits = length chapter_list /\
   snd run = Ok (join [newline] (written_paths visits))).
Proof.
  cbv zeta. unfold batch_tts_synthesize.
  intros Hp Hne. apply andb_true_iff in Hp as [Ha Ht].
  rewrite !print_ok by (rewrite encodable_literal_app; assumption).
  destruct chapter_list as [|c cs] eqn:El; [congruence|].
  rewrite <- El in *. clear Hne.
  set (items := combine (seq 0 (length chapter_list)) chapter_list).
  destruct (for_each
              (chapter_step ext_str infer sf_write os_path_join cwd
                 ref_audio_input ref_text_input args (length chapter_list))
              items (State [] w [])) as [st ou] eqn:Hrun.
  destruct (for_each_chapter_step ref_audio_input ref_text_input args _
              items _ _ _ Hrun)
    as [new [Hl [Hw [Hp [Hm [Hv [Hnone Hsome]]]]]]].
  cbn [log world file_paths app] in Hl, Hw, Hp, Hv.
  assert (Hst : fst (match ou with
                     | Some u => (st, @Raise encode_error str u)
                     | None => (st, Ok (join [newline] (file_paths st)))
                     end) = st) by (destruct ou; reflexivity).
  assert (Hlen : length items = length chapter_list).
  { unfold items. rewrite length_combine, length_seq. lia. }
  assert (Hle : length new <= length chapter_list).
  { rewrite <- Hlen, <- (length_map (fun v => (v_idx v, v_text v)) new), Hm.
    rewrite length_firstn. lia. }
  assert (Hnth : forall i v, nth_error new i = Some v ->
            v_idx v = i /\ nth_error chapter_list i = Some (v_text v)).
  { intros i v Hi.
    assert (E : nth_error (map (fun v => (v_idx v, v_text v)) new) i =
                Some (v_idx v, v_text v))
      by (rewrite nth_error_map, Hi; reflexivity).
    rewrite Hm, nth_error_firstn in E.
    assert (Hlt : i < length new)
      by (apply nth_error_Some; rewrite Hi; discriminate).
    destruct (Nat.ltb_spec i (length new)) as [_|]; [|lia].
    unfold items in E. rewrite nth_error_enumerate in E.
    destruct (nth_error chapter_list i) as [t|]; [|discriminate].
    simpl in E. injection E as <- <-. split; reflexivity. }
  rewrite Hst, Hl.
  split; [exact Hle|]. split; [|split; [|split; [|split; [|split]]]].
  + intros i v Hi. destruct (Hnth i v Hi) as [Hidx Htext].
    destruct (Hv i v Hi) as [H1 [H2 [H3 H4]]].
    rewrite Hidx in H2.
    split; [exact Hidx|]. split; [exact Htext|]. split; [exact H3|].
    split; [exact H1|]. split; [exact H2|]. split; [exact H4|].
    intros file_path data rate Hout. rewrite H2 in Hout.
    unfold round_of in Hout.
    destruct (infer ref_audio_input ref_text_input (v_text v) args
                (v_world v)) as [w1 [[r d]|x]]; [|discriminate].
    match type of Hout with
    | context [if ?b then _ else _] => destruct b
    end; [|discriminate].
    destruct (sf_write _ d r w1) as [w2 [u|x]]; [|discriminate].
    injection Hout as <- _ _. reflexivity.
  + exact Hw.
  + exact Hp.
  + intros out Hout. destruct ou as [u|]; [discriminate|].
    injection Hout as <-. destruct (Hnone eq_refl) as [H1 _].
    rewrite Hp. split; [rewrite H1; exact Hlen | reflexivity].
  + intros u Hu. destruct ou as [u0|]; [|discriminate].
    destruct (Hsome u0 eq_refl) as [[item [H1 [H2 _]]] | Hlast].
    * left. unfold items in H1. rewrite nth_error_enumerate in H1.
      destruct (nth_error chapter_list (length new)) as [t|];
        [|discriminate].
      simpl in H1. injection H1 as <-. exists t. split; [reflexivity|].
      exact H2.
    * right. exact Hlast.
  + intros Hall Hmsg.
    assert (Hgo : forall v : visit wave ext World, went_on ext_str v = true).
    { intros v. unfold went_on.
      destruct (v_outcome v) as [x|fp u|fp x|fp d r]; cbn [caught];
        rewrite ?error_notice_encodable; cbn [exc_str];
        [apply Hmsg | apply encode_error_str_encodable | apply Hmsg
        | reflexivity]. }
    destruct ou as [u|].
    * exfalso. destruct (Hsome u eq_refl)
        as [[item [H1 [H2 _]]] | [v [_ H2]]].
      -- unfold items in H1. rewrite nth_error_enumerate in H1.
         destruct (nth_error chapter_list (length new)) as [t|] eqn:Et;
           [|discriminate].
         simpl in H1. injection H1 as <-. simpl in H2.
         rewrite Forall_forall in Hall.
         exact (eq_true_false_abs _ (Hall t (nth_error_In _ _ Et)) H2).
      -- rewrite Hgo in H2. discriminate.
    * destruct (Hnone eq_refl) as [H1 _]. cbn [snd]. rewrite Hp.
      split; [rewrite H1; exact Hlen | reflexivity].
Qed.


End Synthesize.



End BatchFacts.

(** ** The model cache of [infer] *)

Module InferFacts.
Import Py Infer PyFacts.

Section Infer.

Variables (model ext audio_in audio wave number : Type).
Variable USING_SPACES : bool.
Variable F5TTS_ema_model : model.
Variable preprocess_ref_audio_text :
  audio_in -> widget -> result ext (audio * str).
Variable load_e2tts : unit -> result ext model.
Variable cached_path : str -> result ext str.
Variable load_model : str -> str -> result ext model.
Variable synthesize :
  audio -> str -> str -> option model -> bool -> number -> number ->
  result ext (N * wave * str).

(** The globals and the loads of a call: what follows the selection
    changes neither. *)
Lemma infer_globals ref_audio_orig ref_text gen_text sel rs cf sp
    (g : globals model) :
  fst (infer USING_SPACES F5TTS_ema_model preprocess_ref_audio_text
         load_e2tts cached_path load_model synthesize
         ref_audio_orig ref_text gen_text sel rs cf sp g) =
  match preprocess_ref_audio_text ref_audio_orig ref_text with
  | Raise _ => (g, [])
  | Ok _ =>
      fst (model_selection USING_SPACES F5TTS_ema_model load_e2tts
             cached_path load_model sel g)
  end.
Proof.
  unfold infer.
  destruct (preprocess_ref_audio_text ref_audio_orig ref_text)
    as [[a t]|x]; [|reflexivity].
  destruct (model_selection _ _ _ _ _ sel g) as [[g' loads] [[|m]|e]];
    try reflexivity.
  destruct (synthesize a t gen_text m rs cf sp) as [[[r wv] sp']|x];
    reflexivity.
Qed.

(** C9, as the code has it.  A call with the model ["Custom", p, v] that
    fails in the preprocessing, or is made where [USING_SPACES] holds,
    asks for no load and leaves the globals as they were.  Otherwise it
    asks for a custom load, once and with p and v, exactly when p differs
    from [pre_custom_path] at entry: when p is the same the globals stay
    (so [pre_custom_path] is p); when the load returns, [custom_ema_model]
    is the model loaded and [pre_custom_path] is p; when the load raises,
    the globals stay as they were.  A call with "F5-TTS" or "E2-TTS"
    changes neither [pre_custom_path] nor [custom_ema_model]. *)
Theorem infer_custom_cache ref_audio_orig ref_text gen_text p v rs cf sp
    (g : globals model) :
  let run := infer USING_SPACES F5TTS_ema_model preprocess_ref_audio_text
               load_e2tts cached_path load_model synthesize
               ref_audio_orig ref_text gen_text in
  let custom := run (Items [of_string "Custom"; p; v]) rs cf sp g in
  ((exists x, preprocess_ref_audio_text ref_audio_orig ref_text = Raise x) \/
   USING_SPACES = true ->
   fst custom = (g, [])) /\
  ((exists r, preprocess_ref_audio_text ref_audio_orig ref_text = Ok r) ->
   USING_SPACES = false ->
   (p = pre_custom_path g -> fst custom = (g, [])) /\
   (p <> pre_custom_path g ->
    snd (fst custom) = [LoadCustom p v] /\
    match load_custom cached_path load_model p v with
    | Ok m =>
        fst (fst custom) = Globals (E2TTS_ema_model g) (Some m) p
    | Raise _ => fst (fst custom) = g
    end)) /\
  (forall name,
     name = of_string "F5-TTS" \/ name = of_string "E2-TTS" ->
     pre_custom_path (fst (fst (run (Name name) rs cf sp g))) =
     pre_custom_path g /\
     custom_ema_model (fst (fst (run (Name name) rs cf sp g))) =
     custom_ema_model g).
Proof.
  cbv zeta. split; [|split].
  - intros [[x Hx]|Hs]; rewrite infer_globals.
    + rewrite Hx. reflexivity.
    + destruct (preprocess_ref_audio_text ref_audio_orig ref_text);
        [|reflexivity].
      unfold model_selection. rewrite Hs. reflexivity.
  - intros [r Hr] Hs. rewrite infer_globals, Hr.
    unfold model_selection. rewrite Hs.
    change (str_eqb (of_string "Custom") (of_string "Custom")) with true.
    cbv iota. cbn [nth_error].
    split.
    + intros ->. rewrite str_eqb_refl. reflexivity.
    + intros Hne.
      assert (E : str_eqb (pre_custom_path g) p = false)
        by (apply str_eqb_neq; congruence).
      rewrite E. cbn [negb].
      destruct (load_custom cached_path load_model p v);
        split; reflexivity.
  - intros name Hname. rewrite infer_globals.
    destruct (preprocess_ref_audio_text ref_audio_orig ref_text);
      [|split; reflexivity].
    unfold model_selection. destruct Hname as [-> | ->].
    + split; reflexivity.
    + change (str_eqb (of_string "E2-TTS") (of_string "F5-TTS")) with false.
      change (str_eqb (of_string "E2-TTS") (of_string "E2-TTS")) with true.
      cbv iota. destruct (E2TTS_ema_model g); [split; reflexivity|].
      destruct (load_e2tts tt); split; reflexivity.
Qed.

End Infer.

(** A custom checkpoint that loads: the cache takes its path. *)
Lemma infer_custom_cache_witness :
  let run :=
    infer (audio_in := unit) (number := unit) false tt
      (fun _ t => @Ok unit _ (tt, [])) (fun _ => Ok tt) (fun s => Ok s)
      (fun _ _ => Ok tt) (fun _ _ g _ _ _ _ => Ok (24000%N, g, [])) tt None
      (of_string "hi")
      (Items [of_string "Custom"; of_string "m.pt"; of_string "v.txt"])
      false tt tt (Globals None None []) in
  fst run =
  (Globals None (Some tt) (of_string "m.pt"),
   [LoadCustom (of_string "m.pt") (of_string "v.txt")]).
Proof.
  pose proof (proj2 (proj1 (proj2
    (infer_custom_cache unit unit unit unit str unit false tt
       (fun _ t => @Ok unit _ (tt, [])) (fun _ => Ok tt) (fun s => Ok s)
       (fun _ _ => Ok tt) (fun _ _ g _ _ _ _ => Ok (24000%N, g, [])) tt None
       (of_string "hi") (of_string "m.pt") (of_string "v.txt")
       false tt tt (Globals None None [])))
    (ex_intro _ (tt, []) eq_refl) eq_refl) ltac:(discriminate)) as [Hl Hg].
  cbv zeta. apply injective_projections; [exact Hg | exact Hl].
Defined.

(** C9 as the specification words it fails: a call with a custom
    checkpoint whose load raises leaves [pre_custom_path] as it was, though
    the path asked for differs from it. *)
Lemma infer_custom_cache_counterexample :
  let g := @Globals unit None None [] in
  let p := of_string "missing.pt" in
  let run :=
    infer (audio_in := unit) (number := unit) false tt
      (fun _ t => @Ok unit _ (tt, [])) (fun _ => Ok tt) (fun s => Ok s)
      (fun _ _ => Raise tt) (fun _ _ g _ _ _ _ => Ok (24000%N, g, [])) tt None
      (of_string "hi") (Items [of_string "Custom"; p; of_string "v.txt"])
      false tt tt g in
  p <> pre_custom_path g /\
  snd run = Raise (Raised tt) /\
  pre_custom_path (fst (fst run)) <> p /\
  fst (fst run) = g.
Proof.
  cbv zeta. split; [discriminate|]. split; [reflexivity|].
  split; [discriminate | reflexivity].
Qed.

End InferFacts.

(** ** Voice chat *)

Module ChatFacts.
Import Py Chat PyFacts.

(** C10: with no audio path ([None] or the empty path) and a text that
    is empty or whitespace-only, [process_audio_input] returns the history
    and the conversation state it was given, nothing appended, and the
    empty string for the text box, whatever the collaborators would do. *)
Theorem process_audio_input_no_input (ext : Type) (ext_str : ext -> str)
    (transcribe : str -> str -> result ext str)
    (generate_response : list message -> result ext str)
    audio_path text history conv_state :
  widget_truthy audio_path = false ->
  forallb isspace text = true ->
  process_audio_input ext_str transcribe generate_response audio_path text
    history conv_state = (history, conv_state, Ok []).
Proof.
  intros Ha Ht. unfold process_audio_input. rewrite Ha.
  rewrite (print_ok (of_string "User Text Input: " ++ text))
    by (rewrite encodable_literal_app; apply blank_encodable; exact Ht).
  rewrite truthy_strip, Ht. destruct (truthy text); reflexivity.
Qed.

(** No audio and three spaces of text, with collaborators that would raise. *)
Lemma process_audio_input_no_input_witness :
  let history := [(of_string "hi", Some (of_string "hello"))] in
  let conv_state :=
    [Message (of_string "system") (of_string "Stay in character.")] in
  process_audio_input Demo.message_of (fun _ _ => @Raise unit _ tt)
    (fun _ => Raise tt) None (of_string "   ") history conv_state
  = (history, conv_state, Ok []).
Proof.
  exact (process_audio_input_no_input unit Demo.message_of _ _ None
           (of_string "   ") _ _ eq_refl eq_refl).
Defined.

End ChatFacts.

(** ** The speech-type rows *)

Module SpeechTypesFacts.
Import Py Parser SpeechTypes PyFacts ParserFacts.

Lemma row_range_length : length row_range = 99.
Proof. reflexivity. Qed.

Lemma row_range_nth k d : k < 99 -> nth k row_range d = Z.of_nat (S k).
Proof.
  intros Hk. unfold row_range.
  rewrite (nth_indep _ d (Z.of_nat 0)) by (rewrite length_map, length_seq; lia).
  rewrite map_nth, seq_nth by lia. reflexivity.
Qed.

Lemma apply_updates_length us rows :
  length (apply_updates us rows) = length rows.
Proof.
  revert rows. induction us as [|u us IH]; intros [|r rows]; simpl;
    try reflexivity.
  rewrite IH. reflexivity.
Qed.

Lemma apply_updates_nth us : forall rows k d,
  length us = length rows -> k < length rows ->
  nth k (apply_updates us rows) d =
  match nth k us Keep with
  | Keep => nth k rows d
  | SetVisible v => v
  end.
Proof.
  induction us as [|u us IH]; intros [|r rows] k d Hl Hk; simpl in *;
    try lia.
  destruct k as [|k].
  - destruct u; reflexivity.
  - apply IH; lia.
Qed.

Lemma map_row_range_nth (f : Z -> update) k :
  k < 99 -> nth k (map f row_range) Keep = f (Z.of_nat (S k)).
Proof.
  intros Hk.
  rewrite (nth_indep _ Keep (f 0%Z)) by (rewrite length_map; exact Hk).
  rewrite map_nth, (row_range_nth k 0%Z Hk). reflexivity.
Qed.

(** X1: both handlers of the rows return 99 row updates and keep the count
    of speech types between 1 and 100 when it was; neither lowers it, the
    delete handler leaves it as it is, and the add handler raises it by
    one until it is 100. *)
Theorem speech_type_count_bounds (count index : Z) :
  (1 <= count <= 100)%Z ->
  let added := add_speech_type_fn count in
  let deleted := make_delete_speech_type_fn index count in
  (1 <= fst added <= 100)%Z /\
  fst added = Z.min (count + 1) 100 /\
  fst deleted = count /\
  length (snd added) = 99 /\ length (snd deleted) = 99.
Proof.
  intros Hc. cbv zeta. unfold add_speech_type_fn, make_delete_speech_type_fn,
    max_speech_types.
  destruct (count <? 100)%Z eqn:E; cbn [fst snd];
    rewrite ?length_map, ?row_range_length.
  - apply Z.ltb_lt in E. repeat split; lia.
  - apply Z.ltb_ge in E. repeat split; lia.
Qed.

Lemma speech_type_count_bounds_witness :
  fst (add_speech_type_fn 100) = 100%Z /\
  fst (make_delete_speech_type_fn 3 7) = 7%Z.
Proof.
  pose proof (speech_type_count_bounds 100 0 ltac:(lia)) as [_ [Ha _]].
  pose proof (speech_type_count_bounds 7 3 ltac:(lia)) as [_ [_ [Hd _]]].
  split; [exact Ha | exact Hd].
Defined.

(** X2: after the add handler has run on a count below 100, every row
    below that count is visible, whatever it was before (a row hidden by
    a delete handler is shown again), and the other rows are as they
    were. *)
Theorem add_shows_rows_below_count (count : Z) (rows : list bool) (k : nat) :
  (1 <= count < 100)%Z -> length rows = 99 -> k < 99 ->
  nth k (apply_updates (snd (add_speech_type_fn count)) rows) false =
  if (Z.of_nat k <? count)%Z then true else nth k rows false.
Proof.
  intros Hc Hl Hk. unfold add_speech_type_fn, max_speech_types.
  assert (E : (count <? 100)%Z = true) by (apply Z.ltb_lt; lia).
  rewrite E. cbn [snd].
  rewrite apply_updates_nth
    by (rewrite ?length_map, ?row_range_length; lia).
  rewrite map_row_range_nth by exact Hk.
  assert (E2 : (Z.of_nat (S k) <? count + 1)%Z = (Z.of_nat k <? count)%Z).
  { destruct (Z.of_nat k <? count)%Z eqn:E3.
    - apply Z.ltb_lt in E3. apply Z.ltb_lt. lia.
    - apply Z.ltb_ge in E3. apply Z.ltb_ge. lia. }
  rewrite E2. destruct (Z.of_nat k <? count)%Z; reflexivity.
Qed.

Lemma add_shows_rows_below_count_witness :
  nth 1 (apply_updates (snd (add_speech_type_fn 3)) (repeat false 99)) false
  = true.
Proof.
  exact (add_shows_rows_below_count 3 (repeat false 99) 1
           ltac:(lia) eq_refl ltac:(lia)).
Defined.

(** X3: the handler wired to the delete button of the row [j] hides the
    row before it, the row [j - 1], and no other; the button of the first
    row hides nothing. *)
Theorem delete_button_hides_previous_row (j : nat) (count : Z)
    (rows : list bool) (k : nat) :
  length rows = 99 -> k < 99 ->
  nth k (apply_updates (snd (delete_button j count)) rows) true =
  if Nat.eqb (S k) j then false else nth k rows true.
Proof.
  intros Hl Hk. unfold delete_button, make_delete_speech_type_fn.
  cbn [snd].
  rewrite apply_updates_nth
    by (rewrite ?length_map, ?row_range_length; lia).
  rewrite map_row_range_nth by exact Hk.
  destruct (Nat.eqb (S k) j) eqn:E.
  - apply Nat.eqb_eq in E. subst j. rewrite Z.eqb_refl. reflexivity.
  - apply Nat.eqb_neq in E.
    assert (E2 : (Z.of_nat (S k) =? Z.of_nat j)%Z = false)
      by (apply Z.eqb_neq; lia).
    rewrite E2. reflexivity.
Qed.

Lemma delete_button_hides_previous_row_witness :
  apply_updates (snd (delete_button 0 5)) (repeat true 99) = repeat true 99 /\
  nth 1 (apply_updates (snd (delete_button 2 5)) (repeat true 99)) true = false /\
  nth 2 (apply_updates (snd (delete_button 2 5)) (repeat true 99)) true = true.
Proof.
  split; [vm_compute; reflexivity|]. split.
  - exact (delete_button_hides_previous_row 2 5 (repeat true 99) 1
             eq_refl ltac:(lia)).
  - exact (delete_button_hides_previous_row 2 5 (repeat true 99) 2
             eq_refl ltac:(lia)).
Defined.

Lemma render_snoc rest : forall t0 l t,
  render t0 (rest ++ [(l, t)]) = render t0 rest ++ marker l ++ t.
Proof.
  induction rest as [|[l' t'] rest IH]; intros t0 l t; cbn [app render].
  - reflexivity.
  - rewrite IH, <- !app_assoc. reflexivity.
Qed.

Lemma layout_segments_snoc rest : forall cur t0 l t,
  layout_segments cur t0 (rest ++ [(l, t)]) =
  layout_segments cur t0 rest ++ emit (strip l) t.
Proof.
  induction rest as [|[l' t'] rest IH]; intros cur t0 l t;
    cbn [app layout_segments].
  - rewrite !app_nil_r. reflexivity.
  - rewrite IH, app_assoc. reflexivity.
Qed.

Lemma blocked_not_closes r : blocked r = true -> closes r = false.
Proof.
  induction r as [|c r IH]; simpl; [discriminate|].
  destruct (c =? rbrace)%N; [discriminate|].
  destruct (c =? newline)%N; [reflexivity | exact IH].
Qed.

Lemma inner_span_last_span t : inner_span_ok t = true -> last_span_ok t = true.
Proof.
  induction t as [|c t IH]; simpl; [reflexivity|].
  intros H. apply andb_prop in H as [H1 H2]. rewrite (IH H2), andb_true_r.
  destruct (c =? lbrace)%N; [|reflexivity].
  rewrite (blocked_not_closes _ H1). reflexivity.
Qed.

Lemma layout_ok_snoc rest : forall t0 l t,
  layout_ok t0 (rest ++ [(l, t)]) = true -> layout_ok t0 rest = true.
Proof.
  induction rest as [|[l' t'] rest IH]; intros t0 l t H; simpl in *.
  - apply andb_prop in H as [H _]. apply andb_prop in H as [H _].
    apply inner_span_last_span. exact H.
  - apply andb_prop in H as [H1 H2]. rewrite H1. simpl. exact (IH _ _ _ H2).
Qed.

(** The label [insert_speech_type_fn] writes for a name. *)
Lemma insert_speech_type_fn_eq current_text speech_type_name :
  insert_speech_type_fn current_text speech_type_name =
  match current_text with Some s => s | None => [] end ++
  marker (match speech_type_name with
          | Some (c :: n) => c :: n
          | _ => of_string "None"
          end) ++ of_string " ".
Proof.
  unfold insert_speech_type_fn, marker.
  destruct current_text as [[|a s]|], speech_type_name as [[|c n]|];
    simpl; rewrite <- ?app_assoc; reflexivity.
Qed.

(** X4: inserting a label and typing a text after it.  Take a text box
    content in whose reading no text span would let a marker start if one
    followed, a name with no closing brace and no line feed, and a typed
    text with no marker in it: the parser gives the segments of the old
    content, then the segment of the typed text under the trimmed name
    (no segment when the typed text is blank).  An empty or missing name
    inserts the label "None". *)
Theorem insert_then_parse (t0 : str) (rest : list (str * str))
    (speech_type_name : widget) (typed : str) :
  let label := match speech_type_name with
               | Some (c :: n) => c :: n
               | _ => of_string "None"
               end in
  layout_ok t0 (rest ++ [(label, of_string " " ++ typed)]) = true ->
  parse_speechtypes_text
    (insert_speech_type_fn (Some (render t0 rest)) speech_type_name ++ typed) =
  parse_speechtypes_text (render t0 rest) ++ emit (strip label) typed.
Proof.
  intros label Hok. rewrite insert_speech_type_fn_eq. fold label.
  cbv beta iota. rewrite <- !app_assoc, <- render_snoc.
  etransitivity; [exact (parse_render _ _ Hok)|].
  rewrite layout_segments_snoc.
  rewrite (parse_render _ _ (layout_ok_snoc _ _ _ _ Hok)).
  reflexivity.
Qed.

Lemma insert_then_parse_witness :
  parse_speechtypes_text
    (insert_speech_type_fn (Some (of_string "{Regular} Hello. "))
       (Some (of_string "Sad")) ++ of_string "Oh no.") =
  [Segment (of_string "Regular") (of_string "Hello.");
   Segment (of_string "Sad") (of_string "Oh no.")].
Proof.
  exact (insert_then_parse [] [(of_string "Regular", of_string " Hello. ")]
           (Some (of_string "Sad")) (of_string "Oh no.") eq_refl).
Defined.

Lemma set_mem_In x s : set_mem x s = true <-> In x s.
Proof.
  unfold set_mem. rewrite existsb_exists. split.
  - intros [y [Hy E]]. apply str_eqb_eq in E. subst y. exact Hy.
  - intros H. exists x. split; [exact H | apply str_eqb_refl].
Qed.

Lemma truthy_name_In (name : str) (names : list widget) :
  In name (flat_map (fun name_input : widget =>
                       match name_input with
                       | Some n => if truthy n then [n] else []
                       | None => []
                       end) names) <->
  In (Some name) names /\ name <> [].
Proof.
  rewrite in_flat_map. split.
  - intros [[n|] [Hin H]]; [|destruct H].
    destruct n as [|c n]; simpl in H; [destruct H|].
    destruct H as [<-|[]]. split; [exact Hin | discriminate].
  - intros [Hin Hne]. exists (Some name). split; [exact Hin|].
    destruct name; [congruence | left; reflexivity].
Qed.

Lemma no_missing_forallb {A : Type} (p : A -> bool) (l : list A) :
  match filter (fun x => negb (p x)) l with
  | _ :: _ => false
  | [] => true
  end = forallb p l.
Proof.
  induction l as [|x l IH]; simpl; [reflexivity|].
  destruct (p x); simpl; [exact IH | reflexivity].
Qed.

Lemma validate_forallb gen_text regular_name (args : list widget) :
  validate_speech_types gen_text regular_name args =
  forallb (fun s =>
             set_mem s
               (flat_map (fun name_input : widget =>
                            match name_input with
                            | Some n => if truthy n then [n] else []
                            | None => []
                            end) (regular_name :: firstn 100 args)))
    (map style (parse_speechtypes_text gen_text)).
Proof.
  unfold validate_speech_types. cbv zeta.
  change (Z.to_nat max_speech_types) with 100.
  rewrite no_missing_forallb. reflexivity.
Qed.

(** The styles of a text that passes the validation are non-empty names
    among the regular name and the names passed. *)
Lemma validated_styles gen_text regular_name (args : list widget) :
  validate_speech_types gen_text regular_name args = true ->
  forall sg, In sg (parse_speechtypes_text gen_text) ->
    In (Some (style sg)) (regular_name :: args) /\ style sg <> [].
Proof.
  rewrite validate_forallb, forallb_forall. intros H sg Hsg.
  destruct (proj1 (truthy_name_In (style sg) (regular_name :: firstn 100 args)))
    as [Hin Hne].
  { apply set_mem_In. apply H. apply in_map. exact Hsg. }
  split; [|exact Hne].
  destruct Hin as [E|Hin]; [left; exact E | right].
  rewrite <- (firstn_skipn 100 args). apply in_or_app. left. exact Hin.
Qed.

(** X5: [validate_speech_types] enables the generate button exactly when
    every style of a parsed segment is a non-empty name among the regular
    name and the first 100 of the names passed after it. *)
Theorem validate_speech_types_enabled gen_text regular_name
    (args : list widget) :
  validate_speech_types gen_text regular_name args = true <->
  (forall sg, In sg (parse_speechtypes_text gen_text) ->
     In (Some (style sg)) (regular_name :: firstn 100 args) /\
     style sg <> []).
Proof.
  rewrite validate_forallb, forallb_forall. split.
  - intros H sg Hsg.
    apply (truthy_name_In (style sg) (regular_name :: firstn 100 args)).
    apply set_mem_In. apply H. apply in_map. exact Hsg.
  - intros H x Hx. apply in_map_iff in Hx as [sg [<- Hsg]].
    apply set_mem_In.
    exact (proj2 (truthy_name_In (style sg) (regular_name :: firstn 100 args))
             (H sg Hsg)).
Qed.

Lemma validate_speech_types_enabled_witness :
  validate_speech_types (of_string "{Sad} hi") (Some (of_string "Regular"))
    [Some (of_string "Regular"); Some (of_string "Sad"); None] = true.
Proof.
  apply (proj2 (validate_speech_types_enabled (of_string "{Sad} hi")
                  (Some (of_string "Regular"))
                  [Some (of_string "Regular"); Some (of_string "Sad"); None])).
  intros sg [<-|[]]. split; [right; right; left; reflexivity | discriminate].
Defined.

End SpeechTypesFacts.

(** ** The speech types collected and the values returned *)

Module GenerateFacts.
Import Py Parser Multistyle SpeechTypes PyFacts ParserFacts MultistyleFacts
  SpeechTypesFacts.

Lemma od_set_keys k e d :
  map fst (od_set k e d) =
  if od_mem k d then map fst d else map fst d ++ [k].
Proof.
  unfold od_mem. induction d as [|[k' e'] d IH]; simpl; [reflexivity|].
  destruct (str_eqb k' k) eqn:E; simpl.
  - apply str_eqb_eq in E. subst k'. reflexivity.
  - rewrite IH. destruct (od_get k d); reflexivity.
Qed.

Lemma od_mem_In k d : od_mem k d = true <-> In k (map fst d).
Proof.
  unfold od_mem. induction d as [|[k' e'] d IH]; simpl.
  - split; [discriminate | intros []].
  - destruct (str_eqb k' k) eqn:E.
    + apply str_eqb_eq in E. split; auto.
    + apply str_eqb_neq in E. rewrite IH. split; [auto|].
      intros [H|H]; [congruence | exact H].
Qed.

Lemma od_set_NoDup k e d : NoDup (map fst d) -> NoDup (map fst (od_set k e d)).
Proof.
  intros H. rewrite od_set_keys. destruct (od_mem k d) eqn:E; [exact H|].
  apply NoDup_app; [exact H | repeat constructor; intros [] |].
  intros x Hx [<-|[]]. apply od_mem_In in Hx. congruence.
Qed.

Lemma od_set_In k e d x :
  In x (map fst (od_set k e d)) <-> x = k \/ In x (map fst d).
Proof.
  rewrite od_set_keys. destruct (od_mem k d) eqn:E.
  - apply od_mem_In in E. split; [auto|]. intros [->|H]; assumption.
  - rewrite in_app_iff. simpl. split.
    + intros [H|[<-|[]]]; auto.
    + intros [->|H]; auto.
Qed.

Lemma collect_step_key d n row :
  exists e, collect_step (d, n) row = (od_set (row_key n row) e d, S n).
Proof.
  destruct row as [name [aud rt]]. unfold collect_step, row_key. simpl.
  destruct name as [name|]; [|eexists; reflexivity].
  destruct (truthy name && widget_truthy aud); eexists; reflexivity.
Qed.

Lemma collect_keys rows : forall (d : odict) n,
  NoDup (map fst d) ->
  NoDup (map fst (fst (fold_left collect_step rows (d, n)))) /\
  (forall k, In k (map fst (fst (fold_left collect_step rows (d, n)))) <->
             In k (map fst d) \/ In k (row_keys n rows)).
Proof.
  induction rows as [|row rows IH]; intros d n Hd;
    cbn [fold_left row_keys].
  - split; [exact Hd|]. intros k. simpl. tauto.
  - destruct (collect_step_key d n row) as [e ->].
    destruct (IH _ (S n) (od_set_NoDup (row_key n row) e d Hd)) as [H1 H2].
    split; [exact H1|]. intros k. rewrite H2, od_set_In. simpl. split.
    + intros [[->|H]|H]; auto.
    + intros [H|[<-|H]]; auto.
Qed.

Lemma row_keys_length n rows : length (row_keys n rows) = length rows.
Proof.
  revert n. induction rows as [|row rows IH]; intros n; simpl;
    [reflexivity | rewrite IH; reflexivity].
Qed.

Lemma collect_speech_types_NoDup (names audios ref_texts : list widget) :
  NoDup (map fst (collect_speech_types names audios ref_texts)).
Proof.
  exact (proj1 (collect_keys (combine names (combine audios ref_texts)) [] 0
                  (NoDup_nil _))).
Qed.

(** X6: the speech types collected from the rows have pairwise different
    keys, the keys of the rows; so there are at most as many entries as
    rows, and exactly as many only when no two rows have the same key
    (two rows with a name in common, or a name that is the placeholder of
    an incomplete row, give fewer). *)
Theorem collect_speech_types_keys (names audios ref_texts : list widget) :
  let rows := combine names (combine audios ref_texts) in
  let d0 := collect_speech_types names audios ref_texts in
  NoDup (map fst d0) /\
  (forall k, In k (map fst d0) <-> In k (row_keys 0 rows)) /\
  length d0 <= length rows /\
  (length d0 = length rows <-> NoDup (row_keys 0 rows)).
Proof.
  intros rows d0.
  assert (Hnd : NoDup (map fst d0))
    by exact (proj1 (collect_keys rows [] 0 (NoDup_nil _))).
  assert (Hin' : forall k, In k (map fst d0) <-> In k (row_keys 0 rows)).
  { intros k.
    destruct (proj2 (collect_keys rows [] 0 (NoDup_nil _)) k) as [Ha Hb].
    split; intros Hk.
    - destruct (Ha Hk) as [[]|H]. exact H.
    - apply Hb. right. exact Hk. }
  assert (Hle : length d0 <= length rows).
  { rewrite <- (length_map fst d0), <- (row_keys_length 0 rows).
    apply NoDup_incl_length; [exact Hnd|]. intros k. apply Hin'. }
  split; [exact Hnd|]. split; [exact Hin'|]. split; [exact Hle|].
  rewrite <- (length_map fst d0), <- (row_keys_length 0 rows). split.
  - intros E. apply NoDup_incl_NoDup with (l := map fst d0);
      [exact Hnd | lia|].
    intros k. apply Hin'.
  - intros H. apply Nat.le_antisymm.
    + apply NoDup_incl_length; [exact Hnd|]. intros k. apply Hin'.
    + apply NoDup_incl_length; [exact H|]. intros k. apply Hin'.
Qed.

(** Two named rows, and two rows that share a name. *)
Lemma collect_speech_types_keys_witness :
  NoDup (row_keys 0
           (combine [Some (of_string "Regular"); Some (of_string "Sad")]
              (combine [Some (of_string "r.wav"); Some (of_string "s.wav")]
                 [None; None]))) /\
  length (collect_speech_types
            [Some (of_string "Sad"); Some (of_string "Sad")]
            [Some (of_string "a.wav"); Some (of_string "b.wav")]
            [None; None]) = 1.
Proof.
  split; [|reflexivity].
  exact (proj1 (proj2 (proj2 (proj2 (collect_speech_types_keys
           [Some (of_string "Regular"); Some (of_string "Sad")]
           [Some (of_string "r.wav"); Some (of_string "s.wav")]
           [None; None])))) eq_refl).
Defined.

Lemma od_get_In k e d : NoDup (map fst d) -> In (k, e) d -> od_get k d = Some e.
Proof.
  induction d as [|[k' e'] d IH]; simpl; intros Hnd Hin; [destruct Hin|].
  inversion Hnd as [|? ? Hnot Hnd']; subst.
  destruct Hin as [E|Hin].
  - injection E as -> ->. rewrite str_eqb_refl. reflexivity.
  - destruct (str_eqb k' k) eqn:E.
    + apply str_eqb_eq in E. subst k'. exfalso. apply Hnot.
      apply in_map_iff. exists (k, e). split; [reflexivity | exact Hin].
    + exact (IH Hnd' Hin).
Qed.

(** Entries read off by key from two dictionaries with the same keys. *)
Lemma map_by_key (f : str -> entry -> widget) (d d' : odict) :
  NoDup (map fst d) -> map fst d' = map fst d ->
  (forall k e, od_get k d = Some e ->
     exists e', od_get k d' = Some e' /\ ref_text e' = f k e) ->
  map (fun kv => ref_text (snd kv)) d' = map (fun kv => f (fst kv) (snd kv)) d.
Proof.
  revert d'. induction d as [|[k e] d IH]; intros [|[k' e'] d'] Hnd Hk H;
    simpl in *; try discriminate; [reflexivity|].
  injection Hk as -> Hk. inversion Hnd as [|? ? Hnot Hnd']; subst.
  f_equal.
  - destruct (H k e) as [e2 [E2 Hr]]; [rewrite str_eqb_refl; reflexivity|].
    rewrite str_eqb_refl in E2. injection E2 as <-. exact Hr.
  - apply IH; [exact Hnd' | exact Hk|].
    intros k0 e0 H0.
    assert (Hne : str_eqb k k0 = false).
    { apply str_eqb_neq. intros ->. apply Hnot.
      apply od_mem_In. unfold od_mem. rewrite H0. reflexivity. }
    specialize (H k0 e0). rewrite Hne in H. exact (H H0).
Qed.

Section Generate.

Variables (wave ext World : Type).
Variable infer :
  widget -> widget -> str -> bool -> World ->
  World * result ext (N * wave * str).
Variable concatenate : list wave -> wave.

Lemma segment_step_keys rs (st : state wave World) sg :
  map fst (speech_types (fst (segment_step infer rs st sg))) =
  map fst (speech_types st).
Proof.
  unfold segment_step.
  destruct (od_get (route (speech_types st) (style sg)) (speech_types st))
    as [e|] eqn:E; [|reflexivity].
  destruct (infer (audio e) (ref_text e) (text sg) rs (world st))
    as [w [[[r d] out]|x]]; [|reflexivity].
  cbn [fst speech_types]. rewrite od_set_keys.
  unfold od_mem. rewrite E. reflexivity.
Qed.

Lemma for_each_keys rs segs : forall (st : state wave World),
  map fst (speech_types (fst (for_each (segment_step infer rs) segs st))) =
  map fst (speech_types st).
Proof.
  induction segs as [|sg segs IH]; intros st; simpl; [reflexivity|].
  pose proof (segment_step_keys rs st sg) as Hk.
  destruct (segment_step infer rs st sg) as [st1 [e|]]; simpl in *.
  - exact Hk.
  - rewrite IH. exact Hk.
Qed.

Lemma for_each_tracks d0 rs segs : forall (st : state wave World),
  tracks d0 st ->
  tracks d0 (fst (for_each (segment_step infer rs) segs st)).
Proof.
  induction segs as [|sg segs IH]; intros st Htr; simpl; [exact Htr|].
  destruct (segment_step_spec _ _ _ infer d0 rs st sg Htr)
    as [[Hstep _] | [st1 [oe1 [c [Hstep [_ [_ [Htr1 _]]]]]]]];
    rewrite Hstep.
  - exact Htr.
  - destruct oe1; [exact Htr1 | exact (IH _ Htr1)].
Qed.

(** X7: the reference texts [generate_multistyle_speech] returns for the
    text boxes, when it returns, are one for each collected entry in
    order: for an entry under which no call returned, the text collected
    from its row, and otherwise the text given back by the last call made
    under the entry. *)
Theorem generate_returns_reference_texts gen_text names audios ref_texts rs
    (w : World) out :
  let d0 := collect_speech_types names audios ref_texts in
  let run :=
    generate_multistyle_speech infer concatenate gen_text names audios
      ref_texts rs w in
  snd run = Ok out ->
  snd out =
  map (fun kv => ref_text_after (ref_text (snd kv)) (fst kv) (calls (fst run)))
    d0.
Proof.
  intros d0 run. subst run. unfold generate_multistyle_speech.
  fold d0. unfold synthesize_segments.
  pose proof (for_each_keys rs (parse_speechtypes_text gen_text)
                (State d0 [] None w [])) as Hk.
  pose proof (for_each_tracks d0 rs (parse_speechtypes_text gen_text)
                _ (tracks_initial _ _ d0 w)) as Htr.
  destruct (for_each (segment_step infer rs) (parse_speechtypes_text gen_text)
              (State d0 [] None w [])) as [st [e|]]; [discriminate|].
  cbn [fst snd] in *. intros E. injection E as <-.
  unfold outputs. cbn [snd].
  apply (map_by_key
           (fun k e0 => ref_text_after (ref_text e0) k (calls st)) d0).
  - exact (collect_speech_types_NoDup names audios ref_texts).
  - exact Hk.
  - intros k e0 H0. specialize (Htr k). rewrite H0 in Htr.
    destruct Htr as [e' [E1 [_ E2]]]. exists e'. split; assumption.
Qed.

End Generate.

(** A text that uses the second of two speech types, with an [infer] that
    gives back the reference text "heard". *)
Lemma generate_returns_reference_texts_witness :
  let infer := fun (_ t : widget) (g : str) (_ : bool) (w : unit) =>
                 (w, @Ok unit _ (24000%N, g, of_string "heard")) in
  let run :=
    generate_multistyle_speech infer (@concat char)
      (of_string "{Sad} a")
      [Some (of_string "Regular"); Some (of_string "Sad")]
      [Some (of_string "r.wav"); Some (of_string "s.wav")]
      [Some (of_string "typed"); None] true tt in
  snd run = Ok (Some (24000%N, of_string "a"),
                [Some (of_string "typed"); Some (of_string "heard")]) /\
  [Some (of_string "typed"); Some (of_string "heard")] =
  map (fun kv => ref_text_after (ref_text (snd kv)) (fst kv) (calls (fst run)))
    (collect_speech_types
       [Some (of_string "Regular"); Some (of_string "Sad")]
       [Some (of_string "r.wav"); Some (of_string "s.wav")]
       [Some (of_string "typed"); None]).
Proof.
  cbv zeta. split; [reflexivity|].
  exact (generate_returns_reference_texts (list char) unit unit
           (fun (_ t : widget) (g : str) (_ : bool) (w : unit) =>
              (w, @Ok unit _ (24000%N, g, of_string "heard")))
           (@concat char) (of_string "{Sad} a")
           [Some (of_string "Regular"); Some (of_string "Sad")]
           [Some (of_string "r.wav"); Some (of_string "s.wav")]
           [Some (of_string "typed"); None] true tt
           (Some (24000%N, of_string "a"),
            [Some (of_string "typed"); Some (of_string "heard")])
           eq_refl).
Defined.

Lemma nth_error_combine {A B : Type} (l1 : list A) (l2 : list B) i a b :
  nth_error l1 i = Some a -> nth_error l2 i = Some b ->
  nth_error (combine l1 l2) i = Some (a, b).
Proof.
  revert l2 i. induction l1 as [|x l1 IH]; intros [|y l2] [|i] H1 H2;
    simpl in *; try discriminate.
  - injection H1 as ->. injection H2 as ->. reflexivity.
  - exact (IH _ _ H1 H2).
Qed.

Lemma nth_error_exists {A : Type} (l : list A) i :
  i < length l -> exists x, nth_error l i = Some x.
Proof.
  intros H. destruct (nth_error l i) as [x|] eqn:E; [exists x; reflexivity|].
  apply nth_error_None in E. lia.
Qed.

Lemma blank_last_span_ok s : blank s = true -> last_span_ok s = true.
Proof.
  unfold blank. induction s as [|c s IH]; simpl; [reflexivity|].
  intros H. apply andb_prop in H as [Hc Hs]. rewrite (IH Hs), andb_true_r.
  destruct (c =? lbrace)%N eqn:E; [|reflexivity].
  apply N.eqb_eq in E. subst c. discriminate Hc.
Qed.

Lemma parse_blank s : blank s = true -> parse_speechtypes_text s = [].
Proof.
  intros H. change s with (render s []) at 1.
  rewrite (parse_render s [] (blank_last_span_ok s H)). simpl.
  rewrite (emit_blank _ _ H). reflexivity.
Qed.

Section Validated.

Variables (wave ext World : Type).
Variable infer :
  widget -> widget -> str -> bool -> World ->
  World * result ext (N * wave * str).
Variable concatenate : list wave -> wave.

Lemma for_each_no_key_error d0 rs segs : forall (st : state wave World),
  tracks d0 st ->
  Forall (fun sg => od_mem (style sg) d0 = true) segs ->
  forall k, snd (for_each (segment_step infer rs) segs st)
            <> Some (KeyError k).
Proof.
  induction segs as [|sg segs IH]; intros st Htr Hall k; simpl;
    [discriminate|].
  inversion Hall as [|? ? Hsg Hall']; subst.
  destruct (segment_step_spec _ _ _ infer d0 rs st sg Htr)
    as [[_ [Hno _]] | [st1 [oe1 [c [Hstep [_ [_ [Htr1 Hke]]]]]]]].
  - congruence.
  - rewrite Hstep. destruct oe1 as [e|]; simpl.
    + apply Hke.
    + exact (IH _ Htr1 Hall' k).
Qed.

(** X8: when [validate_speech_types] enables the button for a text, the
    regular name is the name of a row, and every row with a name has an
    audio, [generate_multistyle_speech] on that text never falls back:
    each call it makes is under the style of its segment, and no lookup
    raises. *)
Theorem validated_text_uses_own_styles gen_text regular_name
    (names audios ref_texts : list widget) rs (w : World) :
  let run :=
    generate_multistyle_speech infer concatenate gen_text names audios
      ref_texts rs w in
  validate_speech_types gen_text regular_name names = true ->
  In regular_name names ->
  length audios = length names -> length ref_texts = length names ->
  (forall i n a,
     nth_error names i = Some (Some n) -> n <> [] ->
     nth_error audios i = Some a -> widget_truthy a = true) ->
  (forall k, snd run <> Raise (KeyError k)) /\
  (forall i sg c,
     nth_error (parse_speechtypes_text gen_text) i = Some sg ->
     nth_error (calls (fst run)) i = Some c ->
     c_style c = style sg).
Proof.
  intros run Hval Hreg Hla Hlr Haud. subst run.
  set (d0 := collect_speech_types names audios ref_texts).
  assert (Hkeys : Forall (fun sg => od_mem (style sg) d0 = true)
                    (parse_speechtypes_text gen_text)).
  { apply Forall_forall. intros sg Hsg.
    destruct (validated_styles _ _ _ Hval sg Hsg) as [Hin Hne].
    assert (Hin' : In (Some (style sg)) names).
    { destruct Hin as [<-|H]; [exact Hreg | exact H]. }
    apply In_nth_error in Hin' as [i Hi].
    assert (Hlt : i < length names)
      by (apply nth_error_Some; intros E;
          discriminate (eq_trans (eq_sym Hi) E)).
    destruct (nth_error_exists audios i ltac:(lia)) as [a Ha].
    destruct (nth_error_exists ref_texts i ltac:(lia)) as [rt Hrt].
    apply (configured_row_is_key names audios ref_texts i (style sg) a rt).
    - apply nth_error_combine; [exact Hi|].
      apply nth_error_combine; assumption.
    - destruct (style sg); [congruence | reflexivity].
    - exact (Haud i (style sg) a Hi Hne Ha). }
  unfold generate_multistyle_speech. fold d0. unfold synthesize_segments.
  pose proof (for_each_no_key_error d0 rs _ _ (tracks_initial _ _ d0 w) Hkeys)
    as Hnk.
  destruct (for_each (segment_step infer rs) (parse_speechtypes_text gen_text)
              (State d0 [] None w [])) as [st oe] eqn:Hrun.
  destruct (for_each_segments _ _ _ infer d0 rs _ _ _ _
              (tracks_initial _ _ d0 w) Hrun)
    as [new [Hcalls [_ [_ [_ Hr]]]]].
  simpl in Hcalls. subst new. split.
  - intros k. destruct oe as [e|]; simpl in *; [|discriminate].
    intros E. injection E as ->. exact (Hnk k eq_refl).
  - intros i sg c Hs Hc.
    assert (Hc' : nth_error (calls st) i = Some c)
      by (destruct oe; exact Hc).
    destruct (Hr i sg c Hs Hc') as [_ [Hown _]].
    apply Hown. rewrite Forall_forall in Hkeys. apply Hkeys.
    exact (nth_error_In _ _ Hs).
Qed.

(** X9: on an empty or whitespace-only text [generate_multistyle_speech]
    calls nothing and returns no audio, with the reference texts collected
    from the rows. *)
Theorem generate_blank_text gen_text names audios ref_texts rs (w : World) :
  forallb isspace gen_text = true ->
  let d0 := collect_speech_types names audios ref_texts in
  generate_multistyle_speech infer concatenate gen_text names audios
    ref_texts rs w =
  (State d0 [] None w [], Ok (None, map (fun kv => ref_text (snd kv)) d0)).
Proof.
  intros Hb d0. unfold generate_multistyle_speech, synthesize_segments.
  rewrite (parse_blank gen_text Hb). reflexivity.
Qed.

End Validated.

Lemma validated_text_uses_own_styles_witness :
  c_style (Call (of_string "Sad") (Some (of_string "s.wav")) None
             (of_string "a") (Some (of_string "heard")))
  = style (Segment (of_string "Sad") (of_string "a")).
Proof.
  refine (proj2 (validated_text_uses_own_styles (list char) unit unit
           (fun (_ t : widget) (g : str) (_ : bool) (w : unit) =>
              (w, @Ok unit _ (24000%N, g, of_string "heard")))
           (@concat char) (of_string "{Sad} a") (Some (of_string "Regular"))
           [Some (of_string "Regular"); Some (of_string "Sad")]
           [Some (of_string "r.wav"); Some (of_string "s.wav")]
           [None; None] true tt eq_refl (or_introl eq_refl) eq_refl eq_refl _)
           0 (Segment (of_string "Sad") (of_string "a"))
           (Call (of_string "Sad") (Some (of_string "s.wav")) None
              (of_string "a") (Some (of_string "heard")))
           eq_refl eq_refl).
  intros [|[|[|i]]] n a Hn _ Ha; simpl in *;
    try discriminate; injection Ha as <-; reflexivity.
Defined.

Lemma generate_blank_text_witness :
  calls (fst (generate_multistyle_speech
                (fun (_ t : widget) (g : str) (_ : bool) (w : unit) =>
                   (w, @Ok unit _ (24000%N, g, of_string "heard")))
                (@concat char) (of_string "  ")
                [Some (of_string "Regular")] [Some (of_string "r.wav")]
                [None] true tt)) = [].
Proof.
  exact (f_equal (fun r => calls (fst r))
           (generate_blank_text (list char) unit unit
              (fun (_ t : widget) (g : str) (_ : bool) (w : unit) =>
                 (w, @Ok unit _ (24000%N, g, of_string "heard")))
              (@concat char) (of_string "  ")
              [Some (of_string "Regular")] [Some (of_string "r.wav")]
              [None] true tt eq_refl)).
Defined.

End GenerateFacts.

(** ** More on the parser *)

Module ParserMore.
Import Py Parser PyFacts ParserFacts.

Lemma lstrip_nonspace c r : isspace c = false -> lstrip (c :: r) = c :: r.
Proof. intros H. simpl. rewrite H. reflexivity. Qed.

Lemma strip_idempotent s : strip (strip s) = strip s.
Proof.
  destruct (strip s) as [|c r] eqn:E; [reflexivity|].
  destruct (@exists_last _ (c :: r) ltac:(discriminate)) as [r' [z Ez]].
  pose proof (strip_first s c r E) as Hc.
  assert (Hz : isspace z = false)
    by (apply (strip_last s r' z); rewrite E; exact Ez).
  unfold strip, rstrip. rewrite (lstrip_nonspace c r Hc), Ez.
  rewrite rev_app_distr. simpl. rewrite Hz. simpl.
  rewrite rev_involutive. reflexivity.
Qed.

Lemma label_ok_strip l : label_ok l = true -> label_ok (strip l) = true.
Proof.
  intros H. destruct (strip_split l) as [ws1 [ws2 [E _]]].
  unfold label_ok in *. rewrite E, !forallb_app in H.
  apply andb_prop in H as [_ H]. apply andb_prop in H as [H _]. exact H.
Qed.

Lemma layout_segments_styles rest : forall cur t0 sg,
  layout_ok t0 rest = true ->
  In sg (layout_segments cur t0 rest) ->
  style sg = cur \/ exists l, In l (map fst rest) /\ style sg = strip l.
Proof.
  induction rest as [|[l t] rest IH]; intros cur t0 sg Hok Hin;
    cbn [layout_segments] in Hin; apply in_app_iff in Hin.
  - destruct Hin as [Hin|[]]. unfold emit in Hin.
    destruct (truthy (strip t0)); [|destruct Hin].
    destruct Hin as [<-|[]]. left. reflexivity.
  - simpl in Hok. apply andb_prop in Hok as [_ Hok].
    destruct Hin as [Hin|Hin].
    + unfold emit in Hin. destruct (truthy (strip t0)); [|destruct Hin].
      destruct Hin as [<-|[]]. left. reflexivity.
    + right. destruct (IH _ _ _ Hok Hin) as [E|[l' [Hl' E]]].
      * exists l. split; [left; reflexivity | exact E].
      * exists l'. split; [right; exact Hl' | exact E].
Qed.

Lemma layout_labels_ok rest : forall t0 l,
  layout_ok t0 rest = true -> In l (map fst rest) -> label_ok l = true.
Proof.
  induction rest as [|[l' t] rest IH]; intros t0 l Hok Hin; simpl in *;
    [destruct Hin|].
  apply andb_prop in Hok as [H1 Hok]. apply andb_prop in H1 as [_ Hl].
  destruct Hin as [<-|Hin]; [exact Hl | exact (IH _ _ Hok Hin)].
Qed.

(** X10: the style of every segment the parser returns has no closing
    brace and no line feed in it and no whitespace at either end (it is
    "Regular" or a trimmed label). *)
Theorem parse_styles_trimmed (s : str) (sg : segment) :
  In sg (parse_speechtypes_text s) ->
  label_ok (style sg) = true /\ strip (style sg) = style sg.
Proof.
  destruct (layout_exists s) as [t0 [rest [-> Hok]]].
  rewrite (parse_render _ _ Hok). intros Hin.
  destruct (layout_segments_styles rest Regular t0 sg Hok Hin)
    as [->|[l [Hl ->]]].
  - split; reflexivity.
  - split; [|apply strip_idempotent].
    apply label_ok_strip. exact (layout_labels_ok rest t0 l Hok Hl).
Qed.

Lemma parse_styles_trimmed_witness :
  label_ok (of_string "Sad") = true /\
  strip (of_string "Sad") = of_string "Sad".
Proof.
  exact (parse_styles_trimmed (of_string "{ Sad } x")
           (Segment (of_string "Sad") (of_string "x"))
           (or_introl eq_refl)).
Defined.

Lemma lstrip_app_blank_l ws t :
  forallb isspace ws = true -> lstrip (ws ++ t) = lstrip t.
Proof.
  induction ws as [|c ws IH]; simpl; [reflexivity|].
  intros H. apply andb_prop in H as [Hc Hws]. rewrite Hc. exact (IH Hws).
Qed.

Lemma lstrip_app_blank_r t ws :
  forallb isspace ws = true ->
  lstrip (t ++ ws) = if forallb isspace t then [] else lstrip t ++ ws.
Proof.
  intros Hws. induction t as [|c t IH]; simpl.
  - apply lstrip_blank. exact Hws.
  - destruct (isspace c); simpl; [exact IH | reflexivity].
Qed.

Lemma rstrip_app_blank t ws :
  forallb isspace ws = true -> rstrip (t ++ ws) = rstrip t.
Proof.
  intros H. unfold rstrip. rewrite rev_app_distr, lstrip_app_blank_l;
    [reflexivity|].
  rewrite forallb_forall in *. intros x Hx. apply H, in_rev. exact Hx.
Qed.

Lemma strip_app_blank_l ws t :
  forallb isspace ws = true -> strip (ws ++ t) = strip t.
Proof.
  intros H. unfold strip. rewrite (lstrip_app_blank_l ws t H). reflexivity.
Qed.

Lemma strip_app_blank_r t ws :
  forallb isspace ws = true -> strip (t ++ ws) = strip t.
Proof.
  intros H. unfold strip. rewrite (lstrip_app_blank_r t ws H).
  destruct (forallb isspace t) eqn:E.
  - apply lstrip_blank in E. rewrite E. reflexivity.
  - apply rstrip_app_blank. exact H.
Qed.

Lemma emit_app_blank_l sty ws t :
  forallb isspace ws = true -> emit sty (ws ++ t) = emit sty t.
Proof. intros H. unfold emit. rewrite (strip_app_blank_l ws t H). reflexivity. Qed.

Lemma emit_app_blank_r sty t ws :
  forallb isspace ws = true -> emit sty (t ++ ws) = emit sty t.
Proof. intros H. unfold emit. rewrite (strip_app_blank_r t ws H). reflexivity. Qed.

Lemma span_ok_app_blank_l ws t :
  forallb isspace ws = true ->
  inner_span_ok (ws ++ t) = inner_span_ok t /\
  last_span_ok (ws ++ t) = last_span_ok t.
Proof.
  induction ws as [|c ws IH]; simpl; [split; reflexivity|].
  intros H. apply andb_prop in H as [Hc Hws].
  assert (E : (c =? lbrace)%N = false).
  { destruct (c =? lbrace)%N eqn:E; [|reflexivity].
    apply N.eqb_eq in E. subst c. discriminate Hc. }
  rewrite E. simpl. exact (IH Hws).
Qed.

Lemma closes_blank ws : forallb isspace ws = true -> closes ws = false.
Proof.
  induction ws as [|c ws IH]; simpl; [reflexivity|].
  intros H. apply andb_prop in H as [Hc Hws].
  destruct (c =? rbrace)%N eqn:E.
  - apply N.eqb_eq in E. subst c. discriminate Hc.
  - destruct (c =? newline)%N; [reflexivity | exact (IH Hws)].
Qed.

Lemma closes_app_blank r ws :
  forallb isspace ws = true -> closes (r ++ ws) = closes r.
Proof.
  intros H. induction r as [|c r IH]; simpl.
  - apply closes_blank. exact H.
  - destruct (c =? rbrace)%N; [reflexivity|].
    destruct (c =? newline)%N; [reflexivity | exact IH].
Qed.

Lemma last_span_ok_app_blank t ws :
  forallb isspace ws = true ->
  last_span_ok t = true -> last_span_ok (t ++ ws) = true.
Proof.
  intros Hws. induction t as [|c t IH]; simpl.
  - intros _. apply GenerateFacts.blank_last_span_ok. exact Hws.
  - intros H. apply andb_prop in H as [H1 H2]. rewrite (IH H2), andb_true_r.
    destruct (c =? lbrace)%N; [|reflexivity].
    rewrite (closes_app_blank t ws Hws). exact H1.
Qed.

Lemma layout_app_blank ws rest : forall t0,
  forallb isspace ws = true -> layout_ok t0 rest = true ->
  exists t0' rest',
    render t0 rest ++ ws = render t0' rest' /\
    layout_ok t0' rest' = true /\
    forall cur, layout_segments cur t0' rest' = layout_segments cur t0 rest.
Proof.
  intros t0 Hws. revert t0.
  induction rest as [|[l t] rest IH]; intros t0 Hok.
  - exists (t0 ++ ws), []. split; [reflexivity|]. split.
    + simpl in *. apply last_span_ok_app_blank; assumption.
    + intros cur. simpl. rewrite (emit_app_blank_r cur t0 ws Hws).
      reflexivity.
  - cbn [layout_ok] in Hok. apply andb_prop in Hok as [H1 H2].
    destruct (IH t H2) as [t' [rest' [E [Hok' Hseg]]]].
    exists t0, ((l, t') :: rest'). split; [|split].
    + cbn [render]. rewrite <- !app_assoc, E. reflexivity.
    + cbn [layout_ok]. rewrite H1, Hok'. reflexivity.
    + intros cur. cbn [layout_segments]. rewrite Hseg. reflexivity.
Qed.

(** X11: whitespace (blank lines included) before and after the whole text
    changes nothing in what the parser returns. *)
Theorem parse_ignores_outer_whitespace (ws1 s ws2 : str) :
  forallb isspace ws1 = true -> forallb isspace ws2 = true ->
  parse_speechtypes_text (ws1 ++ s ++ ws2) = parse_speechtypes_text s.
Proof.
  intros H1 H2. destruct (layout_exists s) as [t0 [rest [-> Hok]]].
  destruct (layout_app_blank ws2 rest t0 H2 Hok) as [t' [rest' [E [Hok' Hseg]]]].
  rewrite E, (parse_render _ _ Hok), <- Hseg.
  assert (Hpre : ws1 ++ render t' rest' = render (ws1 ++ t') rest')
    by (destruct rest' as [|[l t] rest']; simpl;
        rewrite <- ?app_assoc; reflexivity).
  rewrite Hpre.
  assert (Hok'' : layout_ok (ws1 ++ t') rest' = true).
  { destruct (span_ok_app_blank_l ws1 t' H1) as [Ei El].
    destruct rest' as [|[l t] rest']; cbn [layout_ok] in *.
    - rewrite El. exact Hok'.
    - rewrite Ei. exact Hok'. }
  rewrite (parse_render _ _ Hok'').
  destruct rest' as [|[l t] rest']; cbn [layout_segments];
    rewrite (emit_app_blank_l Regular ws1 t' H1); reflexivity.
Qed.

Lemma parse_ignores_outer_whitespace_witness :
  parse_speechtypes_text
    ([10; 32]%N ++ of_string "{Sad} hi" ++ [10; 10]%N)
  = parse_speechtypes_text (of_string "{Sad} hi").
Proof.
  exact (parse_ignores_outer_whitespace [10; 32]%N (of_string "{Sad} hi")
           [10; 10]%N eq_refl eq_refl).
Defined.

End ParserMore.

(** ** More on [infer] and its cache *)

Module InferMore.
Import Py Infer Cache PyFacts.

Section Infer.

Variables (model ext audio_in audio wave number : Type).
Variable USING_SPACES : bool.
Variable F5TTS_ema_model : model.
Variable preprocess_ref_audio_text :
  audio_in -> widget -> result ext (audio * str).
Variable load_e2tts : unit -> result ext model.
Variable cached_path : str -> result ext str.
Variable load_model : str -> str -> result ext model.
Variable synthesize :
  audio -> str -> str -> option model -> bool -> number -> number ->
  result ext (N * wave * str).

(** X12: once the selection of a model has succeeded, selecting the same
    model again loads nothing, changes no global and gives the same
    model. *)
Theorem model_selection_repeat sel (g g1 : globals model) loads m :
  model_selection USING_SPACES F5TTS_ema_model load_e2tts cached_path
    load_model sel g = (g1, loads, Ok (Bound m)) ->
  model_selection USING_SPACES F5TTS_ema_model load_e2tts cached_path
    load_model sel g1 = (g1, [], Ok (Bound m)).
Proof.
  unfold model_selection. destruct sel as [s|l].
  - destruct (str_eqb s (of_string "F5-TTS")).
    + intros H. injection H as <- _ <-. reflexivity.
    + destruct (str_eqb s (of_string "E2-TTS")); [|discriminate].
      destruct (E2TTS_ema_model g) as [m'|] eqn:E.
      * intros H. injection H as <- _ <-. rewrite E. reflexivity.
      * destruct (load_e2tts tt) as [m'|x]; [|discriminate].
        intros H. injection H as <- _ <-. reflexivity.
  - destruct l as [|head tl]; [discriminate|].
    destruct (str_eqb head (of_string "Custom")); [|discriminate].
    destruct USING_SPACES; [discriminate|].
    destruct (nth_error (head :: tl) 1) as [path|]; [|discriminate].
    destruct (str_eqb (pre_custom_path g) path) eqn:E; cbn [negb].
    + intros H. injection H as <- _ <-. rewrite E. reflexivity.
    + destruct (nth_error (head :: tl) 2) as [vocab|]; [|discriminate].
      destruct (load_custom cached_path load_model path vocab) as [m'|x];
        [|discriminate].
      intros H. injection H as <- _ <-. cbn [pre_custom_path].
      rewrite str_eqb_refl. reflexivity.
Qed.

(** X13: the cache of the custom model goes by the checkpoint path alone:
    after a call's selection of ["Custom", p, v] has succeeded, a
    selection of ["Custom", p, v'] with any other vocabulary loads nothing
    and gives the model held, the one loaded before. *)
Theorem custom_cache_ignores_vocab p v v' (g g1 : globals model) loads m :
  model_selection USING_SPACES F5TTS_ema_model load_e2tts cached_path
    load_model (Items [of_string "Custom"; p; v]) g
  = (g1, loads, Ok (Bound m)) ->
  model_selection USING_SPACES F5TTS_ema_model load_e2tts cached_path
    load_model (Items [of_string "Custom"; p; v']) g1
  = (g1, [], Ok (Bound m)).
Proof.
  unfold model_selection.
  change (str_eqb (of_string "Custom") (of_string "Custom")) with true.
  cbv iota. destruct USING_SPACES; [discriminate|]. cbn [nth_error].
  destruct (str_eqb (pre_custom_path g) p) eqn:E; cbn [negb].
  - intros H. injection H as <- _ <-. rewrite E. reflexivity.
  - destruct (load_custom cached_path load_model p v) as [m'|x];
      [|discriminate].
    intros H. injection H as <- _ <-. cbn [pre_custom_path].
    rewrite str_eqb_refl. reflexivity.
Qed.

(** X14: a model argument that is no known name and no list headed by
    "Custom" leaves [ema_model] unassigned: once the preprocessing has
    passed, [infer] raises [UnboundLocalError], with no load and no global
    changed; an empty list, and a list ["Custom"] with nothing after it
    outside Spaces, raise [IndexError]. *)
Theorem infer_unknown_model ref_audio_orig ref_text gen_text rs cf sp
    (g : globals model) r :
  preprocess_ref_audio_text ref_audio_orig ref_text = Ok r ->
  let run := infer USING_SPACES F5TTS_ema_model preprocess_ref_audio_text
               load_e2tts cached_path load_model synthesize
               ref_audio_orig ref_text gen_text in
  (forall name,
     name <> of_string "F5-TTS" -> name <> of_string "E2-TTS" ->
     run (Name name) rs cf sp g = (g, [], Raise UnboundLocalError)) /\
  (forall head tl,
     head <> of_string "Custom" ->
     run (Items (head :: tl)) rs cf sp g = (g, [], Raise UnboundLocalError)) /\
  run (Items []) rs cf sp g = (g, [], Raise IndexError) /\
  (USING_SPACES = false ->
   run (Items [of_string "Custom"]) rs cf sp g = (g, [], Raise IndexError)).
Proof.
  intros Hr. cbv zeta. unfold infer. rewrite Hr. destruct r as [a t].
  split; [|split; [|split]].
  - intros name H1 H2. unfold model_selection.
    apply str_eqb_neq in H1, H2. rewrite H1, H2. reflexivity.
  - intros head tl H. unfold model_selection.
    apply str_eqb_neq in H. rewrite H. reflexivity.
  - reflexivity.
  - intros ->. reflexivity.
Qed.

(** X15: a custom path equal to the path held while no custom model is
    held (as the empty path on a fresh module) loads nothing: the
    synthesis is asked with no model. *)
Theorem custom_path_held_without_model ref_audio_orig ref_text gen_text p v
    rs cf sp (g : globals model) a t :
  USING_SPACES = false ->
  preprocess_ref_audio_text ref_audio_orig ref_text = Ok (a, t) ->
  pre_custom_path g = p -> custom_ema_model g = None ->
  infer USING_SPACES F5TTS_ema_model preprocess_ref_audio_text
    load_e2tts cached_path load_model synthesize
    ref_audio_orig ref_text gen_text (Items [of_string "Custom"; p; v])
    rs cf sp g =
  (g, [],
   match synthesize a t gen_text None rs cf sp with
   | Raise x => Raise (Raised x)
   | Ok (rate, final_wave, spectrogram_path) =>
       Ok (rate, final_wave, spectrogram_path, t)
   end).
Proof.
  intros Hs Hr Hp Hm. unfold infer, model_selection. rewrite Hr, Hs.
  change (str_eqb (of_string "Custom") (of_string "Custom")) with true.
  cbv iota. cbn [nth_error]. rewrite Hp, str_eqb_refl. cbn [negb].
  rewrite Hm. destruct (synthesize a t gen_text None rs cf sp)
    as [[[rate wv] spath]|x]; reflexivity.
Qed.

(** X16: [load_custom] strips its two paths, so a path with spaces around
    loads what the bare path loads; the cache compares the path as given,
    so the padded path misses the cache of the bare one and loads
    again. *)
Theorem load_custom_padded_path p v (g : globals model) :
  load_custom cached_path load_model p v =
  load_custom cached_path load_model (strip p) (strip v) /\
  (USING_SPACES = false -> pre_custom_path g = p ->
   snd (fst (model_selection USING_SPACES F5TTS_ema_model load_e2tts
               cached_path load_model
               (Items [of_string "Custom"; p ++ of_string " "; v]) g))
   = [LoadCustom (p ++ of_string " ") v] /\
   load_custom cached_path load_model (p ++ of_string " ") v =
   load_custom cached_path load_model p v).
Proof.
  split.
  - unfold load_custom. rewrite !ParserMore.strip_idempotent. reflexivity.
  - intros Hs Hp. split.
    + unfold model_selection. rewrite Hs.
      change (str_eqb (of_string "Custom") (of_string "Custom")) with true.
      cbv iota. cbn [nth_error].
      assert (E : str_eqb (pre_custom_path g) (p ++ of_string " ") = false).
      { apply str_eqb_neq. rewrite Hp. intros E.
        apply (f_equal (@length char)) in E. rewrite length_app in E.
        simpl in E. lia. }
      rewrite E. cbn [negb].
      destruct (load_custom cached_path load_model (p ++ of_string " ") v);
        reflexivity.
    + unfold load_custom.
      rewrite (ParserMore.strip_app_blank_r p (of_string " ") eq_refl).
      reflexivity.
Qed.

(** X17: every call of [infer] keeps the cache coherent: the custom model
    held, if any, is one that [load_custom] gave for the path held. *)
Theorem infer_keeps_cache_coherent ref_audio_orig ref_text gen_text sel
    rs cf sp (g : globals model) :
  coherent cached_path load_model g ->
  coherent cached_path load_model
    (fst (fst (infer USING_SPACES F5TTS_ema_model preprocess_ref_audio_text
                 load_e2tts cached_path load_model synthesize
                 ref_audio_orig ref_text gen_text sel rs cf sp g))).
Proof.
  intros H. rewrite InferFacts.infer_globals.
  destruct (preprocess_ref_audio_text ref_audio_orig ref_text);
    [|exact H].
  unfold model_selection. destruct sel as [s|l].
  - destruct (str_eqb s (of_string "F5-TTS")); [exact H|].
    destruct (str_eqb s (of_string "E2-TTS")); [|exact H].
    destruct (E2TTS_ema_model g); [exact H|].
    destruct (load_e2tts tt); exact H.
  - destruct l as [|head tl]; [exact H|].
    destruct (str_eqb head (of_string "Custom")); [|exact H].
    destruct USING_SPACES; [exact H|].
    destruct (nth_error (head :: tl) 1) as [path|]; [|exact H].
    destruct (negb (str_eqb (pre_custom_path g) path)); [|exact H].
    destruct (nth_error (head :: tl) 2) as [vocab|]; [|exact H].
    destruct (load_custom cached_path load_model path vocab) as [m|x] eqn:E;
      [|exact H].
    cbn [fst]. unfold coherent. cbn [custom_ema_model pre_custom_path].
    exists vocab. exact E.
Qed.

End Infer.

Lemma model_selection_repeat_witness :
  model_selection false 1 Demo.load_e2tts Demo.cached_path Demo.load_model
    (Name (of_string "E2-TTS")) (Globals (Some 2) None [])
  = (Globals (Some 2) None [], [], Ok (Bound (Some 2))).
Proof.
  exact (model_selection_repeat nat unit false 1 Demo.load_e2tts
           Demo.cached_path Demo.load_model (Name (of_string "E2-TTS"))
           (Globals None None []) (Globals (Some 2) None []) [LoadE2]
           (Some 2) eq_refl).
Defined.

Lemma custom_cache_ignores_vocab_witness :
  model_selection false 1 Demo.load_e2tts Demo.cached_path Demo.load_model
    (Items [of_string "Custom"; of_string "m.pt"; of_string "other.txt"])
    (Globals None (Some 4) (of_string "m.pt"))
  = (Globals None (Some 4) (of_string "m.pt"), [], Ok (Bound (Some 4))).
Proof.
  exact (custom_cache_ignores_vocab nat unit false 1 Demo.load_e2tts
           Demo.cached_path Demo.load_model (of_string "m.pt")
           (of_string "v.txt") (of_string "other.txt")
           (Globals None None []) (Globals None (Some 4) (of_string "m.pt"))
           [LoadCustom (of_string "m.pt") (of_string "v.txt")] (Some 4)
           eq_refl).
Defined.

Lemma infer_unknown_model_witness :
  infer false 1 Demo.preprocess Demo.load_e2tts Demo.cached_path
    Demo.load_model Demo.synthesize tt None (of_string "hi")
    (Name (of_string "Custom")) false tt tt (Globals None None [])
  = (Globals None None [], [], Raise UnboundLocalError).
Proof.
  exact (proj1 (infer_unknown_model nat unit unit unit str unit false 1
                  Demo.preprocess Demo.load_e2tts Demo.cached_path
                  Demo.load_model Demo.synthesize tt None (of_string "hi")
                  false tt tt (Globals None None []) (tt, []) eq_refl)
           (of_string "Custom") ltac:(discriminate) ltac:(discriminate)).
Defined.

Lemma custom_path_held_without_model_witness :
  infer false 1 Demo.preprocess Demo.load_e2tts Demo.cached_path
    Demo.load_model Demo.synthesize tt None (of_string "hi")
    (Items [of_string "Custom"; []; of_string "v.txt"]) false tt tt
    (Globals None None [])
  = (Globals None None [], [], Raise (Raised tt)).
Proof.
  exact (custom_path_held_without_model nat unit unit unit str unit false 1
           Demo.preprocess Demo.load_e2tts Demo.cached_path Demo.load_model
           Demo.synthesize tt None (of_string "hi") [] (of_string "v.txt")
           false tt tt (Globals None None []) tt [] eq_refl eq_refl eq_refl
           eq_refl).
Defined.

Lemma load_custom_padded_path_witness :
  snd (fst (model_selection false 1 Demo.load_e2tts Demo.cached_path
              Demo.load_model
              (Items [of_string "Custom"; of_string "m.pt "; of_string "v"])
              (Globals None (Some 4) (of_string "m.pt"))))
  = [LoadCustom (of_string "m.pt ") (of_string "v")].
Proof.
  exact (proj1 (proj2 (load_custom_padded_path nat unit false 1
                         Demo.load_e2tts Demo.cached_path Demo.load_model
                         (of_string "m.pt") (of_string "v")
                         (Globals None (Some 4) (of_string "m.pt")))
                 eq_refl eq_refl)).
Defined.

Lemma infer_keeps_cache_coherent_witness :
  coherent Demo.cached_path Demo.load_model
    (fst (fst (infer false 1 Demo.preprocess Demo.load_e2tts
                 Demo.cached_path Demo.load_model Demo.synthesize tt None
                 (of_string "hi")
                 (Items [of_string "Custom"; of_string "m.pt"; of_string "v"])
                 false tt tt (Globals None None [])))).
Proof.
  exact (infer_keeps_cache_coherent nat unit unit unit str unit false 1
           Demo.preprocess Demo.load_e2tts Demo.cached_path Demo.load_model
           Demo.synthesize tt None (of_string "hi")
           (Items [of_string "Custom"; of_string "m.pt"; of_string "v"])
           false tt tt (Globals None None []) eq_refl).
Defined.

End InferMore.

(** ** More on the batch synthesis *)

Module BatchMore.
Import Py Batch PyFacts BatchFacts.

Lemma of_string_inj (a b : string) : of_string a = of_string b -> a = b.
Proof.
  unfold of_string. intros H.
  assert (E : list_ascii_of_string a = list_ascii_of_string b).
  { revert H. generalize (list_ascii_of_string a) (list_ascii_of_string b).
    intros l1. induction l1 as [|x l1 IH]; intros [|y l2] H; simpl in H;
      try discriminate; [reflexivity|].
    injection H as Hxy Hl. f_equal; [|exact (IH _ Hl)].
    rewrite <- (ascii_N_embedding x), <- (ascii_N_embedding y), Hxy.
    reflexivity. }
  rewrite <- (string_of_list_ascii_of_string a),
    <- (string_of_list_ascii_of_string b), E. reflexivity.
Qed.

Lemma decimal_inj n m : decimal n = decimal m -> n = m.
Proof.
  unfold decimal. intros H. apply of_string_inj in H.
  assert (E : Nat.to_uint n = Nat.to_uint m).
  { pose proof (NilEmpty.usu (Nat.to_uint n)) as Hn.
    pose proof (NilEmpty.usu (Nat.to_uint m)) as Hm.
    rewrite H in Hn. rewrite Hn in Hm. injection Hm as ->. reflexivity. }
  rewrite <- (DecimalNat.Unsigned.of_to n), <- (DecimalNat.Unsigned.of_to m), E.
  reflexivity.
Qed.

(** X18: within one run, two different chapters never get the same file
    name. *)
Theorem file_name_injective (i j : nat) : file_name i = file_name j -> i = j.
Proof.
  unfold file_name. intros H.
  apply app_inv_head, app_inv_tail, decimal_inj in H. lia.
Qed.

Lemma file_name_injective_witness : 8 = 8.
Proof.
  exact (file_name_injective 8 8 eq_refl).
Defined.

Lemma map_fst_combine_same {A B : Type} (l1 : list A) (l2 : list B) :
  length l1 = length l2 -> map fst (combine l1 l2) = l1.
Proof.
  revert l2. induction l1 as [|x l1 IH]; intros [|y l2] H; simpl in *;
    try discriminate; [reflexivity|].
  rewrite IH by lia. reflexivity.
Qed.

(** A surrogate among the first characters of a text is among the first
    characters of any longer start of the text with more after it. *)
Lemma encodable_firstn_app (s r : str) : forall n m,
  n <= m -> encodable (firstn n s) = false ->
  encodable (firstn m (s ++ r)) = false.
Proof.
  induction s as [|c s IH]; intros n m Hle H.
  - rewrite firstn_nil in H. discriminate.
  - destruct n as [|n]; [discriminate|].
    destruct m as [|m]; [lia|].
    cbn [firstn app] in *. rewrite encodable_cons in *.
    destruct (is_surrogate c); [reflexivity|]. cbn [negb andb] in *.
    apply (IH n m); [lia | exact H].
Qed.

Section Batch.

Variables (pyfloat ext ext' wave World inputs : Type).
Variable float_truthy : pyfloat -> bool.
Variable ext_str : ext -> str.
Variable str_other : json pyfloat -> str.
Variable json_load : str -> result ext (json pyfloat).
Variable ext_str' : ext' -> str.
Variable infer :
  widget -> str -> str -> inputs -> World -> World * result ext' (N * wave).
Variable sf_write : str -> wave -> N -> World -> World * result ext' unit.
Variable os_path_join : str -> str -> str.
Variable cwd : str.

(** What an upload leaves: all the chapters with their text returned, or
    no chapter, or the chapters up to one whose paragraph begins with
    what cannot be printed, with an error text returned. *)
Lemma process_json_file_cases (json_file : widget) (chapter_list : list str) :
  let loaded := process_json_file float_truthy ext_str str_other json_load
                  json_file chapter_list in
  (fst loaded <> [] /\ snd loaded = Ok (join [newline] (fst loaded))) \/
  (fst loaded = [] /\
   forall out, snd loaded = Ok out ->
               startswith (of_string "Error: ") out = true) \/
  (exists good bad out,
     fst loaded = good ++ [bad] /\ encodable (firstn 50 bad) = false /\
     snd loaded = Ok out /\ startswith (of_string "Error: ") out = true).
Proof.
  cbv zeta.
  assert (Hnone : forall e,
            process_json_body float_truthy str_other json_load json_file []
            = ([], Raise e) ->
            fst (process_json_file float_truthy ext_str str_other json_load
                   json_file chapter_list) = [] /\
            forall out,
              snd (process_json_file float_truthy ext_str str_other json_load
                     json_file chapter_list) = Ok out ->
              startswith (of_string "Error: ") out = true).
  { intros e Hb.
    rewrite (process_json_file_caught _ _ _ _ _ _ _ _ _ _ Hb).
    split; [reflexivity|]. cbn [snd]. intros out.
    destruct (encodable (exc_str ext_str e)); [|discriminate].
    intros E. injection E as <-.
    exact (startswith_app (of_string "Error: ") (exc_str ext_str e)). }
  destruct json_file as [name|]; [|right; left; exact (Hnone _ eq_refl)].
  destruct (encodable name) eqn:Hn.
  2:{ right. left. apply (Hnone (UnicodeEncodeError
                                  (encode_error_of
                                     (of_string "Processing JSON file: "
                                      ++ name)))).
      unfold process_json_body.
      rewrite print_raise by (rewrite encodable_literal_app; exact Hn).
      reflexivity. }
  destruct (json_load name) as [data|x] eqn:Hload.
  2:{ right. left. apply (Hnone (Raised x)). unfold process_json_body.
      rewrite print_ok by (rewrite encodable_literal_app; exact Hn).
      rewrite Hload. reflexivity. }
  destruct (get_chapters (ext := ext) data) as [chapters|e] eqn:Hg.
  2:{ right. left. apply (Hnone e). unfold process_json_body.
      rewrite print_ok by (rewrite encodable_literal_app; exact Hn).
      rewrite Hload, Hg. reflexivity. }
  pose proof (process_json_body_chapters _ _ float_truthy str_other json_load
                name data chapters [] Hn Hload Hg) as Hb.
  destruct (json_truthy float_truthy chapters) eqn:Ht; cbn [negb] in Hb;
    cbv iota in Hb.
  2:{ right. left.
      rewrite (process_json_file_returned _ _ _ ext_str _ _ _ chapter_list
                 _ _ Hb).
      split; [reflexivity|]. cbn [snd]. intros out E. injection E as <-.
      reflexivity. }
  destruct (dict_items (ext := ext) chapters) as [items|e] eqn:Hi.
  2:{ right. left. exact (Hnone e Hb). }
  destruct (for_each_load_step _ ext str_other items [])
    as [[_ E] | [good [bad [rest [_ [_ [Hbad E]]]]]]]; rewrite E in Hb.
  - left.
    rewrite (process_json_file_returned _ _ _ ext_str _ _ _ chapter_list
               _ _ Hb).
    cbn [fst snd app]. split; [|reflexivity].
    destruct chapters; simpl in Hi; try discriminate. injection Hi as ->.
    destruct items; [discriminate | discriminate].
  - right. right.
    rewrite (process_json_file_caught _ _ _ _ _ _ _ _ _ _ Hb).
    cbn [exc_str]. rewrite encode_error_str_encodable. cbn [fst snd app].
    exists (map (paragraph str_other) good), (paragraph str_other bad).
    eexists. rewrite map_app. split; [reflexivity|].
    split; [|split; [reflexivity | apply startswith_app]].
    unfold paragraph. apply (encodable_firstn_app _ _ 20 50); [lia|].
    exact Hbad.
Qed.

Lemma written_paths_none (visits : list (visit wave ext' World)) :
  (forall v, In v visits -> exists x, v_outcome v = InferRaised x) ->
  written_paths visits = [].
Proof.
  induction visits as [|v visits IH]; intros H; [reflexivity|].
  unfold written_paths in *. cbn [flat_map].
  destruct (H v (or_introl eq_refl)) as [x ->].
  rewrite IH; [reflexivity|]. intros v' Hin. apply H. right. exact Hin.
Qed.

Lemma written_paths_all (path : nat -> str)
    (visits : list (visit wave ext' World)) :
  (forall i v, nth_error visits i = Some v ->
     exists data rate, v_outcome v = Written (path i) data rate) ->
  written_paths visits = map path (seq 0 (length visits)).
Proof.
  induction visits as [|v visits IH] using rev_ind; intros H; [reflexivity|].
  rewrite written_paths_app, length_app, Nat.add_comm. cbn [length Nat.add].
  rewrite seq_S, map_app. cbn [Nat.add map]. f_equal.
  - apply IH. intros i v' Hi. apply H.
    rewrite nth_error_app1; [exact Hi|].
    apply nth_error_Some. rewrite Hi. discriminate.
  - destruct (H (length visits) v) as [data [rate E]].
    + rewrite nth_error_app2, Nat.sub_diag; [reflexivity | lia].
    + unfold written_paths. cbn [flat_map]. rewrite E. reflexivity.
Qed.


(** X20: when the reference audio and text, the first 50 characters
    of every chapter and the text of everything [infer] raises can be
    printed, and [infer] raises for every chapter, [batch_tts_synthesize]
    on a non-empty chapter list still goes through all the chapters,
    writes no file and returns the empty string. *)
Theorem batch_all_chapters_fail ref_audio_input ref_text_input args
    chapter_list (w : World) :
  encodable (format_widget ref_audio_input) && encodable ref_text_input
  = true ->
  Forall (fun chapter_text => encodable (firstn 50 chapter_text) = true)
    chapter_list ->
  (forall x, encodable (ext_str' x) = true) ->
  (forall chapter_text w0, exists w1 x,
     infer ref_audio_input ref_text_input chapter_text args w0
     = (w1, Raise x)) ->
  chapter_list <> [] ->
  let run := batch_tts_synthesize ext_str' infer sf_write os_path_join cwd
               ref_audio_input ref_text_input args chapter_list w in
  snd run = Ok [] /\ file_paths (fst run) = [] /\
  length (log (fst run)) = length chapter_list.
Proof.
  intros Hp Hall Hmsg Hfail Hne. cbv zeta.
  pose proof (batch_rounds _ _ _ _ ext_str' infer sf_write os_path_join cwd
                ref_audio_input ref_text_input args chapter_list w Hp Hne)
    as Hrun.
  cbv zeta in Hrun. destruct Hrun as [_ [Hv [_ [Hpaths [_ [_ Hend]]]]]].
  destruct (Hend Hall Hmsg) as [Hlen Hout].
  assert (Hw : written_paths
                 (log (fst (batch_tts_synthesize ext_str' infer sf_write
                              os_path_join cwd ref_audio_input ref_text_input
                              args chapter_list w))) = []).
  { apply written_paths_none. intros v Hin.
    apply In_nth_error in Hin as [i Hi].
    destruct (Hv i v Hi) as [_ [_ [_ [_ [Ho _]]]]]. rewrite Ho.
    unfold round_of.
    destruct (Hfail (v_text v) (v_world v)) as [w1 [x ->]].
    exists x. reflexivity. }
  rewrite Hout, Hpaths, Hw. repeat split. exact Hlen.
Qed.

(** X21: when the reference audio and text, the first 50 characters
    of every chapter and the paths of the files can be printed, and
    neither [infer] nor [sf.write] ever raises, [batch_tts_synthesize]
    writes one file for each chapter and returns their paths in the order
    of the chapters, joined by line feeds: chapter_1.wav, chapter_2.wav
    and so on, each joined to the output directory. *)
Theorem batch_all_chapters_written ref_audio_input ref_text_input args
    chapter_list (w : World) :
  encodable (format_widget ref_audio_input) && encodable ref_text_input
  = true ->
  Forall (fun chapter_text => encodable (firstn 50 chapter_text) = true)
    chapter_list ->
  (forall idx,
     encodable (os_path_join (output_dir os_path_join cwd) (file_name idx))
     = true) ->
  (forall chapter_text w0, exists w1 out,
     infer ref_audio_input ref_text_input chapter_text args w0
     = (w1, Ok out)) ->
  (forall file_path data rate w0, exists w1 u,
     sf_write file_path data rate w0 = (w1, Ok u)) ->
  chapter_list <> [] ->
  let run := batch_tts_synthesize ext_str' infer sf_write os_path_join cwd
               ref_audio_input ref_text_input args chapter_list w in
  file_paths (fst run) =
  map (fun idx => os_path_join (output_dir os_path_join cwd) (file_name idx))
    (seq 0 (length chapter_list)) /\
  snd run = Ok (join [newline] (file_paths (fst run))).
Proof.
  intros Hp Hall Hpath Hinf Hwr Hne. cbv zeta.
  pose proof (batch_rounds _ _ _ _ ext_str' infer sf_write os_path_join cwd
                ref_audio_input ref_text_input args chapter_list w Hp Hne)
    as Hrun.
  cbv zeta in Hrun. destruct Hrun as [_ [Hv [_ [Hpaths [Hok [Hraise _]]]]]].
  set (run := batch_tts_synthesize ext_str' infer sf_write os_path_join cwd
                ref_audio_input ref_text_input args chapter_list w) in *.
  assert (Hwritten : forall i v, nth_error (log (fst run)) i = Some v ->
            exists data rate,
              v_outcome v =
              Written (os_path_join (output_dir os_path_join cwd)
                         (file_name i)) data rate).
  { intros i v Hi. destruct (Hv i v Hi) as [_ [_ [_ [_ [Ho _]]]]].
    rewrite Ho. unfold round_of.
    destruct (Hinf (v_text v) (v_world v)) as [w1 [[rate data] ->]].
    rewrite Hpath.
    destruct (Hwr (os_path_join (output_dir os_path_join cwd) (file_name i))
                data rate w1) as [w2 [u ->]].
    exists data, rate. reflexivity. }
  assert (Hgo : forall i v, nth_error (log (fst run)) i = Some v ->
            went_on ext_str' v = true).
  { intros i v Hi. destruct (Hwritten i v Hi) as [data [rate E]].
    unfold went_on. rewrite E. reflexivity. }
  destruct (snd run) as [out|u] eqn:Er.
  - destruct (Hok out eq_refl) as [Hlen ->].
    rewrite Hpaths.
    rewrite (written_paths_all
               (fun idx => os_path_join (output_dir os_path_join cwd)
                             (file_name idx)) _ Hwritten), Hlen.
    split; reflexivity.
  - exfalso. destruct (Hraise u eq_refl) as [[t [Ht Hc]] | [v [Hi Hf]]].
    + rewrite Forall_forall in Hall.
      exact (eq_true_false_abs _ (Hall t (nth_error_In _ _ Ht)) Hc).
    + rewrite (Hgo _ _ Hi) in Hf. discriminate.
Qed.

End Batch.


Lemma batch_all_chapters_fail_witness :
  snd (batch_tts_synthesize Demo.message_of Demo.infer_raises Demo.sf_write
         Demo.path_join (of_string "/w") (Some (of_string "ref.wav"))
         (of_string "hello") tt [of_string "one"; of_string "two"] tt)
  = Ok [].
Proof.
  exact (proj1 (batch_all_chapters_fail unit str unit unit Demo.message_of
                  Demo.infer_raises Demo.sf_write Demo.path_join
                  (of_string "/w") (Some (of_string "ref.wav"))
                  (of_string "hello") tt [of_string "one"; of_string "two"] tt
                  eq_refl ltac:(repeat constructor) (fun _ => eq_refl)
                  (fun _ w0 => ex_intro _ w0 (ex_intro _ tt eq_refl))
                  ltac:(discriminate))).
Defined.

Lemma path_join_encodable (a b : str) :
  encodable a = true -> encodable b = true ->
  encodable (Demo.path_join a b) = true.
Proof.
  intros Ha Hb. unfold Demo.path_join.
  rewrite !encodable_app, Ha, Hb, encodable_of_string. reflexivity.
Qed.

Lemma file_name_encodable idx : encodable (file_name idx) = true.
Proof.
  unfold file_name.
  rewrite !encodable_app, !encodable_of_string, encodable_decimal.
  reflexivity.
Qed.

Lemma batch_all_chapters_written_witness :
  file_paths (fst (batch_tts_synthesize Demo.message_of Demo.infer_echo
                     Demo.sf_write Demo.path_join (of_string "/w")
                     (Some (of_string "ref.wav")) (of_string "hello") tt
                     [of_string "one"; of_string "two"] tt))
  = [of_string "/w/generated_audio/chapter_1.wav";
     of_string "/w/generated_audio/chapter_2.wav"].
Proof.
  exact (proj1 (batch_all_chapters_written unit str unit unit Demo.message_of
           Demo.infer_echo Demo.sf_write Demo.path_join (of_string "/w")
           (Some (of_string "ref.wav")) (of_string "hello") tt
           [of_string "one"; of_string "two"] tt
           eq_refl ltac:(repeat constructor)
           (fun idx =>
              path_join_encodable
                (output_dir Demo.path_join (of_string "/w")) (file_name idx)
                eq_refl (file_name_encodable idx))
           (fun t w0 => ex_intro _ w0 (ex_intro _ (24000%N, t) eq_refl))
           (fun _ _ _ w0 => ex_intro _ w0 (ex_intro _ tt eq_refl))
           ltac:(discriminate))).
Defined.

End BatchMore.

(** ** More on the voice chat *)

Module ChatMore.
Import Py Chat ChatSession PyFacts.

Lemma set_last_snoc {A : Type} (l : list A) (x y : A) :
  set_last (l ++ [x]) y = l ++ [y].
Proof. unfold set_last. rewrite removelast_last. reflexivity. Qed.

Section Chat.

Variables (ext audio World : Type).
Variable ext_str : ext -> str.
Variable transcribe : str -> str -> result ext str.
Variable generate_response : list message -> result ext str.
Variable infer :
  str -> widget -> str -> bool -> World -> World * result ext (audio * str).

(** The body of the [try] only adds at the end, and tells by what it
    raised how far it got. *)
Lemma respond_cases audio_path text history conv_state :
  exists hs cs oe,
    respond transcribe generate_response audio_path text history conv_state
    = (history ++ hs, conv_state ++ cs, oe) /\
    ((hs = [] /\ cs = [] /\ exists e, oe = Some e) \/
     (exists t x,
        hs = [(t, None)] /\ cs = [Message (of_string "user") t] /\
        generate_response (conv_state ++ [Message (of_string "user") t])
        = Raise x /\
        oe = Some (Raised x)) \/
     (exists t u,
        hs = [(t, None)] /\ cs = [Message (of_string "user") t] /\
        oe = Some (UnicodeEncodeError u)) \/
     (exists t r,
        hs = [(t, Some r)] /\
        cs = [Message (of_string "user") t;
              Message (of_string "assistant") r] /\
        encodable r = true /\ oe = None)).
Proof.
  unfold respond.
  destruct (match audio_path with
            | Some path =>
                if truthy path then
                  match transcribe path text with
                  | Raise x => Raise (Raised x)
                  | Ok text0 =>
                      match print (of_string "Transcribed Text: " ++ text0)
                      with
                      | Raise u => Raise (UnicodeEncodeError u)
                      | Ok _ => Ok text0
                      end
                  end
                else Ok text
            | None => Ok text
            end) as [t|e].
  2:{ exists [], [], (Some e). rewrite !app_nil_r. split; [reflexivity|].
      left. split; [reflexivity|]. split; [reflexivity|].
      exists e. reflexivity. }
  destruct (generate_response (conv_state ++ [Message (of_string "user") t]))
    as [r|x] eqn:Hg.
  - destruct (print_cases (of_string "AI Response: " ++ r))
      as [[He ->]|[He ->]].
    + exists [(t, Some r)],
        [Message (of_string "user") t; Message (of_string "assistant") r],
        None.
      rewrite set_last_snoc, <- app_assoc. split; [reflexivity|].
      right. right. right. exists t, r.
      rewrite encodable_literal_app in He. repeat split. exact He.
    + exists [(t, None)], [Message (of_string "user") t],
        (Some (UnicodeEncodeError
                 (encode_error_of (of_string "AI Response: " ++ r)))).
      split; [reflexivity|]. right. right. left. eexists t, _.
      repeat split.
  - exists [(t, None)], [Message (of_string "user") t], (Some (Raised x)).
    split; [reflexivity|]. right. left. exists t, x. repeat split. exact Hg.
Qed.

(** [process_audio_input] only adds at the end: the user's message with
    no reply, or the user's message and the reply.  It raises with
    nothing added, or after the user's message when the text of what
    [generate_response] raised cannot be printed. *)
Lemma process_audio_input_cases audio_path text history conv_state :
  exists hs cs r,
    process_audio_input ext_str transcribe generate_response audio_path text
      history conv_state = (history ++ hs, conv_state ++ cs, r) /\
    (r = Ok [] \/ exists u, r = Raise u) /\
    ((hs = [] /\ cs = []) \/
     (exists t, hs = [(t, None)] /\ cs = [Message (of_string "user") t]) \/
     (exists t reply,
        hs = [(t, Some reply)] /\
        cs = [Message (of_string "user") t;
              Message (of_string "assistant") reply] /\
        encodable reply = true /\ r = Ok [])) /\
    (forall u, r = Raise u ->
       (hs = [] /\ cs = []) \/
       (exists t x,
          generate_response (conv_state ++ [Message (of_string "user") t])
          = Raise x /\
          encodable (ext_str x) = false)) /\
    ((widget_truthy audio_path
      && negb (encodable (format_widget audio_path)))
     || (truthy text && negb (encodable text)) = true ->
     hs = [] /\ cs = [] /\ exists u, r = Raise u).
Proof.
  assert (Hstop : forall (b : bool) (r : result encode_error str),
            (exists u, r = Raise u) ->
            exists hs cs r0,
              (history, conv_state, r) = (history ++ hs, conv_state ++ cs, r0) /\
              (r0 = Ok [] \/ exists u, r0 = Raise u) /\
              ((hs = [] /\ cs = []) \/
               (exists t, hs = [(t, None)] /\
                          cs = [Message (of_string "user") t]) \/
               (exists t reply,
                  hs = [(t, Some reply)] /\
                  cs = [Message (of_string "user") t;
                        Message (of_string "assistant") reply] /\
                  encodable reply = true /\ r0 = Ok [])) /\
              (forall u, r0 = Raise u ->
                 (hs = [] /\ cs = []) \/
                 (exists t x,
                    generate_response
                      (conv_state ++ [Message (of_string "user") t])
                    = Raise x /\
                    encodable (ext_str x) = false)) /\
              (b = true -> hs = [] /\ cs = [] /\ exists u, r0 = Raise u)).
  { intros b r Hr. exists [], [], r. rewrite !app_nil_r.
    split; [reflexivity|]. split; [right; exact Hr|].
    split; [left; split; reflexivity|].
    split; [intros u _; left; split; reflexivity|].
    intros _. split; [reflexivity|]. split; [reflexivity | exact Hr]. }
  unfold process_audio_input.
  destruct (widget_truthy audio_path) eqn:Ha.
  - destruct (print_cases
                (of_string "Audio Input Path: " ++ format_widget audio_path))
      as [[He ->]|[He ->]]; rewrite encodable_literal_app in He.
    2:{ apply Hstop. eexists. reflexivity. }
    rewrite He. cbn [negb andb orb].
    destruct (truthy text) eqn:Ht.
    + destruct (print_cases (of_string "User Text Input: " ++ text))
        as [[He2 ->]|[He2 ->]]; rewrite encodable_literal_app in He2.
      2:{ apply Hstop. eexists. reflexivity. }
      rewrite He2. cbn [negb andb orb].
      destruct (respond_cases audio_path text history conv_state)
        as [hs [cs [oe [-> Hc]]]].
      destruct Hc as [[-> [-> [e ->]]] | [[t [x [-> [-> [Hg ->]]]]]
                      | [[t [u [-> [-> ->]]]] | [t [r [-> [-> [Hr ->]]]]]]]].
      * destruct (print_cases
                    (of_string "Error processing input: " ++ exc_str ext_str e))
          as [[_ ->]|[_ ->]];
          exists [], [];
          eexists; (split; [reflexivity|]);
          (split; [(left; reflexivity) || (right; eexists; reflexivity)|]);
          (split; [left; split; reflexivity|]);
          (split; [intros u0 _; left; split; reflexivity | discriminate]).
      * destruct (print_cases
                    (of_string "Error processing input: "
                     ++ exc_str ext_str (Raised x)))
          as [[Hm ->]|[Hm ->]]; rewrite encodable_literal_app in Hm;
          exists [(t, None)], [Message (of_string "user") t];
          eexists; (split; [reflexivity|]);
          (split; [(left; reflexivity) || (right; eexists; reflexivity)|]);
          (split; [right; left; exists t; split; reflexivity|]);
          (split; [|discriminate]).
        -- discriminate.
        -- intros u0 _. right. exists t, x. split; [exact Hg | exact Hm].
      * rewrite print_ok
          by (rewrite encodable_literal_app; apply encode_error_str_encodable).
        exists [(t, None)], [Message (of_string "user") t], (Ok []).
        split; [reflexivity|]. split; [left; reflexivity|].
        split; [right; left; exists t; split; reflexivity|].
        split; discriminate.
      * exists [(t, Some r)],
          [Message (of_string "user") t; Message (of_string "assistant") r],
          (Ok []).
        split; [reflexivity|]. split; [left; reflexivity|].
        split; [right; right; exists t, r; repeat split; exact Hr|].
        split; discriminate.
    + cbn [andb orb].
      destruct (respond_cases audio_path text history conv_state)
        as [hs [cs [oe [-> Hc]]]].
      destruct Hc as [[-> [-> [e ->]]] | [[t [x [-> [-> [Hg ->]]]]]
                      | [[t [u [-> [-> ->]]]] | [t [r [-> [-> [Hr ->]]]]]]]].
      * destruct (print_cases
                    (of_string "Error processing input: " ++ exc_str ext_str e))
          as [[_ ->]|[_ ->]];
          exists [], [];
          eexists; (split; [reflexivity|]);
          (split; [(left; reflexivity) || (right; eexists; reflexivity)|]);
          (split; [left; split; reflexivity|]);
          (split; [intros u0 _; left; split; reflexivity | discriminate]).
      * destruct (print_cases
                    (of_string "Error processing input: "
                     ++ exc_str ext_str (Raised x)))
          as [[Hm ->]|[Hm ->]]; rewrite encodable_literal_app in Hm;
          exists [(t, None)], [Message (of_string "user") t];
          eexists; (split; [reflexivity|]);
          (split; [(left; reflexivity) || (right; eexists; reflexivity)|]);
          (split; [right; left; exists t; split; reflexivity|]);
          (split; [|discriminate]).
        -- discriminate.
        -- intros u0 _. right. exists t, x. split; [exact Hg | exact Hm].
      * rewrite print_ok
          by (rewrite encodable_literal_app; apply encode_error_str_encodable).
        exists [(t, None)], [Message (of_string "user") t], (Ok []).
        split; [reflexivity|]. split; [left; reflexivity|].
        split; [right; left; exists t; split; reflexivity|].
        split; discriminate.
      * exists [(t, Some r)],
          [Message (of_string "user") t; Message (of_string "assistant") r],
          (Ok []).
        split; [reflexivity|]. split; [left; reflexivity|].
        split; [right; right; exists t, r; repeat split; exact Hr|].
        split; discriminate.
  - cbn [negb andb orb].
    destruct (truthy text) eqn:Ht.
    + destruct (print_cases (of_string "User Text Input: " ++ text))
        as [[He2 ->]|[He2 ->]]; rewrite encodable_literal_app in He2.
      2:{ apply Hstop. eexists. reflexivity. }
      rewrite He2. cbn [negb andb orb].
      destruct (negb (truthy (strip text))).
      { exists [], [], (Ok []). rewrite !app_nil_r.
        split; [reflexivity|]. split; [left; reflexivity|].
        split; [left; split; reflexivity|]. split; discriminate. }
      destruct (respond_cases audio_path text history conv_state)
        as [hs [cs [oe [-> Hc]]]].
      destruct Hc as [[-> [-> [e ->]]] | [[t [x [-> [-> [Hg ->]]]]]
                      | [[t [u [-> [-> ->]]]] | [t [r [-> [-> [Hr ->]]]]]]]].
      * destruct (print_cases
                    (of_string "Error processing input: " ++ exc_str ext_str e))
          as [[_ ->]|[_ ->]];
          exists [], [];
          eexists; (split; [reflexivity|]);
          (split; [(left; reflexivity) || (right; eexists; reflexivity)|]);
          (split; [left; split; reflexivity|]);
          (split; [intros u0 _; left; split; reflexivity | discriminate]).
      * destruct (print_cases
                    (of_string "Error processing input: "
                     ++ exc_str ext_str (Raised x)))
          as [[Hm ->]|[Hm ->]]; rewrite encodable_literal_app in Hm;
          exists [(t, None)], [Message (of_string "user") t];
          eexists; (split; [reflexivity|]);
          (split; [(left; reflexivity) || (right; eexists; reflexivity)|]);
          (split; [right; left; exists t; split; reflexivity|]);
          (split; [|discriminate]).
        -- discriminate.
        -- intros u0 _. right. exists t, x. split; [exact Hg | exact Hm].
      * rewrite print_ok
          by (rewrite encodable_literal_app; apply encode_error_str_encodable).
        exists [(t, None)], [Message (of_string "user") t], (Ok []).
        split; [reflexivity|]. split; [left; reflexivity|].
        split; [right; left; exists t; split; reflexivity|].
        split; discriminate.
      * exists [(t, Some r)],
          [Message (of_string "user") t; Message (of_string "assistant") r],
          (Ok []).
        split; [reflexivity|]. split; [left; reflexivity|].
        split; [right; right; exists t, r; repeat split; exact Hr|].
        split; discriminate.
    + assert (Hs : truthy (strip text) = false)
        by (destruct text; [reflexivity | discriminate]).
      rewrite Hs. cbn [negb andb].
      exists [], [], (Ok []). rewrite !app_nil_r.
      split; [reflexivity|]. split; [left; reflexivity|].
      split; [left; split; reflexivity|]. split; discriminate.
Qed.


Lemma transcript_cons m rest :
  transcript (m :: rest) =
  if str_eqb (role m) (of_string "user") then
    match rest with
    | m' :: rest' =>
        if str_eqb (role m') (of_string "assistant")
        then (content m, Some (content m')) :: transcript rest'
        else (content m, None) :: transcript rest
    | [] => [(content m, None)]
    end
  else transcript rest.
Proof. reflexivity. Qed.

(** Messages added at the end, the first of which is no assistant
    message, add their own exchanges. *)
Lemma transcript_app n : forall conv m l,
  length conv <= n ->
  str_eqb (role m) (of_string "assistant") = false ->
  transcript (conv ++ m :: l) = transcript conv ++ transcript (m :: l).
Proof.
  induction n as [|n IH]; intros conv m l Hn Hm.
  - destruct conv; [reflexivity | simpl in Hn; lia].
  - destruct conv as [|m0 rest]; [reflexivity|].
    simpl in Hn. rewrite <- app_comm_cons.
    rewrite (transcript_cons m0 (rest ++ m :: l)), (transcript_cons m0 rest).
    destruct (str_eqb (role m0) (of_string "user")).
    + destruct rest as [|m' rest'].
      * cbn [app]. rewrite Hm. reflexivity.
      * rewrite <- app_comm_cons.
        destruct (str_eqb (role m') (of_string "assistant")).
        -- simpl in Hn. rewrite (IH rest' m l ltac:(lia) Hm). reflexivity.
        -- rewrite app_comm_cons.
           rewrite (IH (m' :: rest') m l ltac:(simpl in *; lia) Hm).
           reflexivity.
    + exact (IH rest m l ltac:(lia) Hm).
Qed.

(** X23: when the text of whatever [generate_response] raises can be
    printed, then through any sequence of messages sent, conversations
    cleared and system prompts changed, starting from the state the page
    opens with, the chat history shown is the transcript of the
    conversation state: one entry for each user message, with the reply
    that follows it, or with no reply when the reply failed. *)
Theorem chat_history_is_transcript (events : list event) :
  (forall conv x, generate_response conv = Raise x ->
                  encodable (ext_str x) = true) ->
  let st := fold_left (handle ext_str transcribe generate_response) events
              clear_conversation in
  fst st = transcript (snd st).
Proof.
  intros Hmsg. cbv zeta.
  assert (H : forall st, fst st = transcript (snd st) ->
            fst (fold_left (handle ext_str transcribe generate_response)
                   events st) =
            transcript
              (snd (fold_left (handle ext_str transcribe generate_response)
                      events st))).
  { induction events as [|e events IH]; intros st Hst; simpl; [exact Hst|].
    apply IH. destruct e as [audio_path text| |new_prompt]; simpl;
      try reflexivity.
    destruct (process_audio_input_cases audio_path text (fst st) (snd st))
      as [hs [cs [r [E [Hr [Hshape [Hraise _]]]]]]].
    rewrite E. unfold after_input.
    destruct r as [out|u].
    - cbn [fst snd].
      destruct Hshape as [[-> ->] | [[t [-> ->]] | [t [rp [-> [-> _]]]]]].
      + rewrite !app_nil_r. exact Hst.
      + rewrite (transcript_app _ (snd st) (Message (of_string "user") t) []
                   (le_n _) eq_refl), Hst.
        reflexivity.
      + rewrite (transcript_app _ (snd st) (Message (of_string "user") t)
                   [Message (of_string "assistant") rp] (le_n _) eq_refl), Hst.
        reflexivity.
    - cbn [fst snd].
      destruct (Hraise u eq_refl) as [[_ ->] | [t [x [Hg Hx]]]].
      + rewrite app_nil_r. exact Hst.
      + rewrite (Hmsg _ _ Hg) in Hx. discriminate. }
  apply H. reflexivity.
Qed.

(** X24: a submission that adds nothing to the chat (no audio and a blank
    text, or an audio whose transcription raises) is followed all the
    same by [generate_audio_response] on the unchanged history: when the
    last exchange has a reply and a reference audio is set, that reply is
    synthesized again. *)
Theorem empty_submission_replays_reply audio_path text history conv_state
    user_message reply ref_audio_path ref_text rs (w : World) :
  (widget_truthy audio_path = false /\ forallb isspace text = true) \/
  (exists path x, audio_path = Some path /\ truthy path = true /\
                  transcribe path text = Raise x) ->
  truthy reply = true -> truthy ref_audio_path = true ->
  send_message ext_str transcribe generate_response infer audio_path text
    (history ++ [(user_message, Some reply)]) conv_state
    (Some ref_audio_path) ref_text rs w =
  (history ++ [(user_message, Some reply)], conv_state,
   match infer ref_audio_path ref_text reply rs w with
   | (w', Raise x) => (w', Raise x)
   | (w', Ok (audio_result, ref_text_out)) =>
       (w', Ok (Some (audio_result, ref_text_out)))
   end).
Proof.
  intros Hin Hr Ha. unfold send_message.
  assert (E : after_input (history ++ [(user_message, Some reply)])
                (process_audio_input ext_str transcribe generate_response
                   audio_path text (history ++ [(user_message, Some reply)])
                   conv_state) =
              (history ++ [(user_message, Some reply)], conv_state)).
  { destruct Hin as [[H1 H2] | [path [x [-> [Hp Ht]]]]].
    - unfold process_audio_input. rewrite H1.
      rewrite (print_ok (of_string "User Text Input: " ++ text))
        by (rewrite encodable_literal_app; apply blank_encodable; exact H2).
      rewrite truthy_strip, H2. destruct (truthy text); reflexivity.
    - unfold process_audio_input, respond. cbn [widget_truthy negb andb].
      rewrite Hp, Ht. cbn [negb andb].
      destruct (print (of_string "Audio Input Path: "
                       ++ format_widget (Some path))); [|reflexivity].
      destruct (if truthy text
                then print (of_string "User Text Input: " ++ text)
                else Ok tt); [|reflexivity].
      destruct (print (of_string "Error processing input: "
                       ++ exc_str ext_str (Raised x))); reflexivity. }
  rewrite E. f_equal. unfold generate_audio_response.
  destruct (history ++ [(user_message, Some reply)]) as [|p l] eqn:El.
  { destruct history; discriminate. }
  rewrite Ha. cbn [negb]. rewrite <- El, last_last, Hr. reflexivity.
Qed.

(** X25: when the text typed and the text of what [generate_response]
    raised can be printed, and the reply cannot be generated, the user's
    message stays in the conversation and in the history with no reply,
    and nothing is synthesized. *)
Theorem failed_reply_gives_no_audio text history conv_state ref_audio
    ref_text rs (w : World) x :
  truthy (strip text) = true -> encodable text = true ->
  generate_response (conv_state ++ [Message (of_string "user") text])
  = Raise x ->
  encodable (ext_str x) = true ->
  send_message ext_str transcribe generate_response infer None text history
    conv_state ref_audio ref_text rs w =
  (history ++ [(text, None)],
   conv_state ++ [Message (of_string "user") text], (w, Ok None)).
Proof.
  intros Ht He Hg Hx. unfold send_message, process_audio_input, respond.
  cbn [widget_truthy negb andb].
  rewrite (print_ok (of_string "User Text Input: " ++ text))
    by (rewrite encodable_literal_app; exact He).
  rewrite Ht, Hg. cbn [negb exc_str].
  rewrite print_ok by (rewrite encodable_literal_app; exact Hx).
  assert (Htt : (if truthy text then @Ok encode_error unit tt else Ok tt)
                = Ok tt) by (destruct (truthy text); reflexivity).
  rewrite Htt. cbn [after_input]. f_equal.
  unfold generate_audio_response.
  destruct (history ++ [(text, None)]) as [|p l] eqn:El.
  { destruct history; discriminate. }
  destruct ref_audio as [path|]; [|reflexivity].
  destruct (negb (truthy path)); [reflexivity|].
  rewrite <- El, last_last. reflexivity.
Qed.


End Chat.

Section Load.

Variables (ext chat_model tokenizer : Type).
Variable load_model : unit -> result ext chat_model.
Variable load_tokenizer : unit -> result ext tokenizer.

(** X26: [load_chat_model] goes by [chat_model_state] alone.  When the
    model loads and the tokenizer then raises, the model stays set with
    no tokenizer, and every later call returns at once without loading
    anything: the tokenizer is never loaded. *)
Theorem load_chat_model_after_tokenizer_failure m x (n : nat) :
  load_model tt = Ok m -> load_tokenizer tt = Raise x ->
  let g1 := fst (load_chat_model load_model load_tokenizer
                   (ChatGlobals None None)) in
  g1 = ChatGlobals (Some m) None /\
  Nat.iter n (fun g => fst (load_chat_model load_model load_tokenizer g)) g1
  = g1 /\
  load_chat_model load_model load_tokenizer g1 = (g1, Ok tt).
Proof.
  intros Hm Ht. cbv zeta.
  assert (E : load_chat_model load_model load_tokenizer (ChatGlobals None None)
              = (ChatGlobals (Some m) None, Raise x)).
  { unfold load_chat_model. simpl. rewrite Hm, Ht. reflexivity. }
  rewrite E. cbn [fst]. split; [reflexivity|]. split; [|reflexivity].
  induction n as [|n IH]; [reflexivity|]. simpl. rewrite IH. reflexivity.
Qed.

End Load.

Lemma chat_history_is_transcript_witness :
  let st := fold_left
              (handle Demo.message_of (fun _ _ => @Raise unit _ tt)
                 (fun _ => Raise tt))
              [Send None (of_string "hi"); Clear; Send None (of_string "yo")]
              clear_conversation in
  fst st = transcript (snd st).
Proof.
  exact (chat_history_is_transcript unit Demo.message_of
           (fun _ _ => Raise tt) (fun _ => Raise tt)
           [Send None (of_string "hi"); Clear; Send None (of_string "yo")]
           (fun _ _ _ => eq_refl)).
Defined.

(** Without that hypothesis the two part: when the text of what
    [generate_response] raised cannot be printed, the handler raises after
    the user's message was appended to the conversation state, and the
    history shown is one entry short of the transcript. *)
Lemma chat_history_after_unprintable_error :
  let st := fold_left
              (handle (fun _ : unit => [56448%N])
                 (fun _ _ => @Raise unit _ tt) (fun _ => Raise tt))
              [Send None (of_string "hi")] clear_conversation in
  fst st = [] /\ transcript (snd st) = [(of_string "hi", None)].
Proof.
  cbv zeta. vm_compute. split; reflexivity.
Qed.

Lemma empty_submission_replays_reply_witness :
  snd (send_message Demo.message_of (fun _ _ => @Raise unit _ tt)
         (fun _ => Raise tt)
         (fun (_ : str) (_ : widget) (reply : str) (_ : bool) (w : unit) =>
            (w, Ok (reply, of_string "ref")))
         None (of_string " ")
         ([] ++ [(of_string "hi", Some (of_string "hello"))]) []
         (Some (of_string "voice.wav")) None true tt)
  = (tt, Ok (Some (of_string "hello", of_string "ref"))).
Proof.
  exact (f_equal snd
           (empty_submission_replays_reply unit str unit Demo.message_of
              (fun _ _ => Raise tt) (fun _ => Raise tt)
              (fun (_ : str) (_ : widget) (reply : str) (_ : bool) (w : unit) =>
                 (w, Ok (reply, of_string "ref")))
              None (of_string " ") [] [] (of_string "hi") (of_string "hello")
              (of_string "voice.wav") None true tt
              (or_introl (conj eq_refl eq_refl)) eq_refl eq_refl)).
Defined.

Lemma failed_reply_gives_no_audio_witness :
  send_message Demo.message_of (fun _ _ => @Raise unit _ tt)
    (fun _ => Raise tt)
    (fun (_ : str) (_ : widget) (reply : str) (_ : bool) (w : unit) =>
       (w, Ok (reply, of_string "ref")))
    None (of_string "hi") [] [] (Some (of_string "voice.wav")) None true tt
  = ([(of_string "hi", None)], [Message (of_string "user") (of_string "hi")],
     (tt, Ok None)).
Proof.
  exact (failed_reply_gives_no_audio unit str unit Demo.message_of
           (fun _ _ => Raise tt) (fun _ => Raise tt)
           (fun (_ : str) (_ : widget) (reply : str) (_ : bool) (w : unit) =>
              (w, Ok (reply, of_string "ref")))
           (of_string "hi") [] [] (Some (of_string "voice.wav")) None true tt
           tt eq_refl eq_refl eq_refl eq_refl).
Defined.


Lemma load_chat_model_after_tokenizer_failure_witness :
  load_chat_model (fun _ => @Ok unit nat 7) (fun _ => @Raise unit nat tt)
    (ChatGlobals (Some 7) None)
  = (ChatGlobals (Some 7) None, Ok tt).
Proof.
  exact (proj2 (proj2 (load_chat_model_after_tokenizer_failure unit nat nat
                         (fun _ => Ok 7) (fun _ => Raise tt) 7 tt 3
                         eq_refl eq_refl))).
Defined.

End ChatMore.

(** ** The last used custom model *)

Module ModelChoiceFacts.
Import Py Infer ModelChoice PyFacts.

Lemma split_comma_plain s : has_comma s = false -> split_comma s = [s].
Proof.
  unfold has_comma. induction s as [|c s IH]; [reflexivity|].
  cbn [existsb split_comma]. intros H. apply orb_false_iff in H as [Hc Hs].
  rewrite N.eqb_sym in Hc. rewrite Hc, (IH Hs). reflexivity.
Qed.

Lemma split_comma_app c v :
  has_comma c = false ->
  split_comma (c ++ comma :: v) = c :: split_comma v.
Proof.
  unfold has_comma. induction c as [|x c IH].
  - intros _. cbn [app split_comma]. rewrite N.eqb_refl. reflexivity.
  - cbn [existsb app split_comma]. intros H.
    apply orb_false_iff in H as [Hx Hc].
    rewrite N.eqb_sym in Hx. rewrite Hx, (IH Hc). reflexivity.
Qed.

Lemma split_comma_length s :
  length (split_comma s) = S (count_occ N.eq_dec s comma).
Proof.
  induction s as [|c s IH]; [reflexivity|].
  cbn [split_comma count_occ].
  destruct (N.eq_dec c comma) as [->|Hne].
  - rewrite N.eqb_refl. cbn [length]. rewrite IH. reflexivity.
  - apply N.eqb_neq in Hne. rewrite Hne.
    destruct (split_comma s) as [|part parts]; simpl in *; [discriminate|].
    exact IH.
Qed.

Lemma has_comma_count s : has_comma s = true -> 0 < count_occ N.eq_dec s comma.
Proof.
  unfold has_comma. intros H. apply existsb_exists in H as [x [Hx E]].
  apply N.eqb_eq in E. subst x. apply count_occ_In. exact Hx.
Qed.

(** The unfolding of [universal_newlines] on a text that is not empty. *)
Lemma universal_newlines_cons c s :
  universal_newlines (c :: s) =
  if (c =? carriage_return)%N then
    match s with
    | c' :: _ =>
        if (c' =? newline)%N then universal_newlines s
        else newline :: universal_newlines s
    | [] => [newline]
    end
  else c :: universal_newlines s.
Proof. reflexivity. Qed.

(** Reading in text mode keeps the commas where they are. *)
Lemma universal_newlines_app_comma c v :
  universal_newlines (c ++ comma :: v) =
  universal_newlines c ++ comma :: universal_newlines v.
Proof.
  induction c as [|x c IH]; [reflexivity|].
  rewrite <- app_comm_cons, !universal_newlines_cons.
  destruct (x =? carriage_return)%N; [|rewrite IH; reflexivity].
  destruct c as [|y c].
  - cbn [app] in *. change (comma =? newline)%N with false. cbv iota.
    rewrite IH. reflexivity.
  - rewrite <- app_comm_cons in *.
    destruct (y =? newline)%N; rewrite IH; reflexivity.
Qed.

Lemma has_comma_universal s : has_comma (universal_newlines s) = has_comma s.
Proof.
  unfold has_comma. induction s as [|c s IH]; [reflexivity|].
  rewrite universal_newlines_cons.
  destruct (N.eqb_spec c carriage_return) as [->|Hne].
  - cbn [existsb]. change (comma =? carriage_return)%N with false.
    cbn [orb]. destruct s as [|c' s]; [reflexivity|].
    destruct (c' =? newline)%N; [exact IH|].
    cbn [existsb] in *. change (comma =? newline)%N with false.
    cbn [orb]. exact IH.
  - cbn [existsb]. rewrite IH. reflexivity.
Qed.

(** What was read in text mode holds no carriage return. *)
Lemma has_return_universal s : has_return (universal_newlines s) = false.
Proof.
  unfold has_return. induction s as [|c s IH]; [reflexivity|].
  rewrite universal_newlines_cons.
  destruct (N.eqb_spec c carriage_return) as [->|Hne].
  - destruct s as [|c' s]; [reflexivity|].
    destruct (c' =? newline)%N; [exact IH|].
    cbn [existsb]. rewrite IH. reflexivity.
  - cbn [existsb]. rewrite IH.
    apply N.eqb_neq in Hne. rewrite N.eqb_sym, Hne. reflexivity.
Qed.

Lemma universal_newlines_same s :
  universal_newlines s = s <-> has_return s = false.
Proof.
  split.
  - intros E. rewrite <- E. apply has_return_universal.
  - unfold has_return. induction s as [|c s IH]; [reflexivity|].
    cbn [existsb]. intros H. apply orb_false_iff in H as [Hc Hs].
    rewrite universal_newlines_cons, N.eqb_sym, Hc, (IH Hs). reflexivity.
Qed.

(** X27: the text [set_custom_model] writes, read back by
    [switch_tts_model] for the choice "Custom", where the file is written
    and read in text mode under a UTF-8 locale.  When the two paths can
    be encoded, the write passes, and the choice read back is the two
    paths with every carriage return, alone or before a line feed, turned
    into a line feed, unless a path has a comma in it: then the text
    splits into more than two parts and [switch_tts_model] raises
    [ValueError].  So the choice that was set is restored exactly when no
    path has a comma or a carriage return.  When a path holds a surrogate
    the write raises and leaves the file empty, and [switch_tts_model]
    raises [ValueError]. *)
Theorem custom_choice_round_trip (ckpt vocab : str) :
  let set := set_custom_model ckpt vocab in
  let read_back :=
    switch_tts_model (of_string "Custom") (Some (snd (fst set))) in
  (encodable (ckpt ++ comma :: vocab) = true ->
   snd set = Ok tt /\
   read_back =
   if has_comma ckpt || has_comma vocab then Raise ValueError
   else Ok (Items [of_string "Custom"; universal_newlines ckpt;
                   universal_newlines vocab])) /\
  (encodable (ckpt ++ comma :: vocab) = true ->
   (read_back = Ok (fst (fst set)) <->
    has_comma ckpt || has_comma vocab = false /\
    has_return ckpt || has_return vocab = false)) /\
  (encodable (ckpt ++ comma :: vocab) = false ->
   (exists u, snd set = Raise u) /\ snd (fst set) = [] /\
   read_back = Raise ValueError).
Proof.
  cbv zeta.
  assert (Hread : encodable (ckpt ++ comma :: vocab) = true ->
            switch_tts_model (of_string "Custom")
              (Some (snd (fst (set_custom_model ckpt vocab)))) =
            if has_comma ckpt || has_comma vocab then Raise ValueError
            else Ok (Items [of_string "Custom"; universal_newlines ckpt;
                            universal_newlines vocab])).
  { intros He. unfold set_custom_model. rewrite He. cbn [fst snd].
    unfold switch_tts_model, load_last_used_custom.
    change (str_eqb (of_string "Custom") (of_string "Custom")) with true.
    cbv iota. rewrite universal_newlines_app_comma.
    destruct (has_comma ckpt || has_comma vocab) eqn:E.
    - assert (Hlen : 2 < length (split_comma
                                   (universal_newlines ckpt
                                    ++ comma :: universal_newlines vocab))).
      { rewrite split_comma_length, count_occ_app.
        assert (Hk : count_occ N.eq_dec (comma :: universal_newlines vocab)
                       comma =
                     S (count_occ N.eq_dec (universal_newlines vocab) comma))
          by (apply count_occ_cons_eq; reflexivity).
        apply Nat.lt_le_trans
          with (S (count_occ N.eq_dec (universal_newlines ckpt) comma +
                   S (count_occ N.eq_dec (universal_newlines vocab) comma)));
          [|apply le_n_S, Nat.add_le_mono_l, Nat.eq_le_incl, eq_sym, Hk].
        apply orb_true_iff in E as [E|E];
          rewrite <- has_comma_universal in E;
          apply has_comma_count in E; lia. }
      destruct (split_comma (universal_newlines ckpt
                             ++ comma :: universal_newlines vocab))
        as [|a [|b [|c l]]]; simpl in Hlen; try lia; reflexivity.
    - apply orb_false_iff in E as [Ec Ev].
      rewrite <- has_comma_universal in Ec, Ev.
      rewrite (split_comma_app _ _ Ec), (split_comma_plain _ Ev).
      reflexivity. }
  split; [|split].
  - intros He. split; [|exact (Hread He)].
    unfold set_custom_model. rewrite He. reflexivity.
  - intros He. rewrite (Hread He).
    assert (Hset : fst (fst (set_custom_model ckpt vocab)) =
                   Items [of_string "Custom"; ckpt; vocab])
      by (unfold set_custom_model;
          destruct (encodable (ckpt ++ comma :: vocab)); reflexivity).
    rewrite Hset.
    destruct (has_comma ckpt || has_comma vocab).
    + split; [discriminate | intros [H _]; discriminate].
    + split.
      * intros E. injection E as Ec Ev. split; [reflexivity|].
        apply universal_newlines_same in Ec, Ev. rewrite Ec, Ev. reflexivity.
      * intros [_ H]. apply orb_false_iff in H as [Hc Hv].
        apply universal_newlines_same in Hc, Hv. rewrite Hc, Hv. reflexivity.
  - intros He. unfold set_custom_model. rewrite He. cbn [fst snd].
    split; [eexists; reflexivity|]. split; reflexivity.
Qed.

(** A path with a carriage return in it is not restored. *)
Lemma custom_choice_round_trip_witness :
  switch_tts_model (of_string "Custom")
    (Some (snd (fst (set_custom_model (of_string "a" ++ [carriage_return])
                       (of_string "v.txt")))))
  = Ok (Items [of_string "Custom"; of_string "a" ++ [newline];
               of_string "v.txt"]).
Proof.
  exact (proj2 (proj1 (custom_choice_round_trip
                         (of_string "a" ++ [carriage_return])
                         (of_string "v.txt")) eq_refl)).
Defined.

End ModelChoiceFacts.
